(** * LCUI CSS library: a shallow embedding of [lib/css] and its properties

    The development follows the two C translation units found in
    [src/lib/css/src/css_value.c] (the value-definition compiler and the
    style library proper) and the type declarations of the public header.

    Conventions of the embedding:
    - [int] fields are [Z]; [size_t] lengths and array indices are [nat];
      the 32-bit [css_selector_hash_t] is a [Z] reduced modulo [2^32];
    - C strings are [string]; a [char *] that may be [NULL] is an
      [option string];
    - [dict_t] tables that are only probed are [gmap]s; tables the code
      iterates over are insertion-ordered association lists ([dict]);
    - heap objects reached through several pointers (style links) live in an
      explicit store and are named by their index;
    - allocation is assumed to succeed unless a function explicitly takes
      the allocator's answer as an argument;
    - an access outside an allocated array is reported as [None]
      (or as a dedicated outcome) instead of being given a meaning. *)

From Stdlib Require Import ZArith String Ascii List Bool Lia.
From Stdlib Require Import Sorting.Sorted Sorting.Permutation.
From stdpp Require Import base list gmap strings.

Local Open Scope string_scope.
Local Open Scope Z_scope.
Local Open Scope nat_scope.
Local Open Scope list_scope.

(* ===================================================================== *)
(** * Style values and declarations *)
(* ===================================================================== *)

Module Decl.

(** [css_style_value_type_t], in declaration order. *)
Inductive css_style_value_type_t :=
  | CSS_NO_VALUE
  | CSS_INVALID_VALUE
  | CSS_UNPARSED_VALUE
  | CSS_ARRAY_VALUE
  | CSS_NUMBERIC_VALUE
  | CSS_STRING_VALUE
  | CSS_KEYWORD_VALUE
  | CSS_COLOR_VALUE
  | CSS_IMAGE_VALUE
  | CSS_UNIT_VALUE
  | CSS_LENGTH_VALUE
  | CSS_PERCENTAGE_VALUE.

(** The integer a C compiler assigns to each enumerator. *)
Definition type_code (t : css_style_value_type_t) : Z :=
  match t with
  | CSS_NO_VALUE => 0
  | CSS_INVALID_VALUE => 1
  | CSS_UNPARSED_VALUE => 2
  | CSS_ARRAY_VALUE => 3
  | CSS_NUMBERIC_VALUE => 4
  | CSS_STRING_VALUE => 5
  | CSS_KEYWORD_VALUE => 6
  | CSS_COLOR_VALUE => 7
  | CSS_IMAGE_VALUE => 8
  | CSS_UNIT_VALUE => 9
  | CSS_LENGTH_VALUE => 10
  | CSS_PERCENTAGE_VALUE => 11
  end%Z.

(** The anonymous union of a style value.  Numbers of type [double] are
    carried as opaque integers: the modelled code only copies them. *)
Inductive css_value_payload :=
  | V_zero
  | V_numeric (v : Z)
  | V_integer (v : Z)
  | V_string (s : string)
  | V_unparsed (s : string)
  | V_image (url : string)
  | V_keyword (k : Z)
  | V_color (rgba : Z)
  | V_unit (v : Z) (unit : string).

(** One cell of a declaration's [sheet].  The library code addresses the
    cell through the flag [is_valid] and the tag [type]. *)
Record css_style_value_t := mk_value {
  is_valid : bool;
  type : css_style_value_type_t;
  value : css_value_payload
}.

(** A cell as [calloc] returns it: every byte zero. *)
Definition zero_value : css_style_value_t :=
  {| is_valid := false; type := CSS_NO_VALUE; value := V_zero |}.

(** [s[i].is_valid = FALSE]: only the flag is written. *)
Definition invalidate (v : css_style_value_t) : css_style_value_t :=
  {| is_valid := false; type := type v; value := value v |}.

(** [css_unit_value_merge(dst, src)]: a deep copy of the payload and the
    tag, after which the destination is flagged valid. *)
Definition css_unit_value_merge (dst src : css_style_value_t) : css_style_value_t :=
  {| is_valid := true; type := type src; value := value src |}.

(** [css_unit_value_destroy]: owned strings are released and the flag is
    cleared. *)
Definition css_unit_value_destroy (s : css_style_value_t) : css_style_value_t :=
  {| is_valid := false;
     type := type s;
     value := match value s with
              | V_string _ | V_unparsed _ | V_image _ => V_zero
              | p => p
              end |}.

(** [css_style_declaration_t]: [sheet] is the allocated array, so
    [length (sheet ss)] is the number of cells the allocation holds, which
    the code keeps apart from the field [length]. *)
Record css_style_declaration_t := mk_decl {
  sheet : list css_style_value_t;
  ss_length : nat
}.

(** [css_style_property_t]: one [(key, value)] entry of a rule body. *)
Record css_style_property_t := mk_prop {
  key : nat;
  style : css_style_value_t
}.

Definition css_style_properties_t := list css_style_property_t.

(** [css_style_properties_create]. *)
Definition css_style_properties_create : css_style_properties_t := [].

(** [css_style_declaration_create], given [css_get_property_count()]:
    [calloc(sizeof(...), ss->length + 1)]. *)
Definition css_style_declaration_create (count : nat) : css_style_declaration_t :=
  {| sheet := replicate (count + 1) zero_value; ss_length := count |}.

(** [css_style_declaration_clear]. *)
Definition css_style_declaration_clear (ss : css_style_declaration_t)
  : css_style_declaration_t :=
  {| sheet := imap (fun i v => if decide (i < ss_length ss)
                               then css_unit_value_destroy v else v) (sheet ss);
     ss_length := ss_length ss |}.

(** [css_style_properties_add]: a fresh, invalid entry appended. *)
Definition css_style_properties_add (l : css_style_properties_t) (k : nat)
  : css_style_properties_t :=
  l ++ [ {| key := k; style := zero_value |} ].

(** [css_style_properties_merge(list, sheet)]: every valid cell below
    [sheet->length] is appended to the list, in index order.  Returns the
    list and the number of entries added. *)
Fixpoint css_style_properties_merge_from (i : nat) (cells : list css_style_value_t)
    (len : nat) (l : css_style_properties_t) (count : Z)
  : css_style_properties_t * Z :=
  match cells with
  | [] => (l, count)
  | c :: cells' =>
      if decide (i < len) then
        if is_valid c
        then css_style_properties_merge_from (S i) cells' len
               (l ++ [ {| key := i; style := css_unit_value_merge zero_value c |} ])
               (count + 1)%Z
        else css_style_properties_merge_from (S i) cells' len l count
      else (l, count)
  end.

Definition css_style_properties_merge (l : css_style_properties_t)
    (ss : css_style_declaration_t) : css_style_properties_t * Z :=
  css_style_properties_merge_from 0 (sheet ss) (ss_length ss) l 0%Z.

(** The reallocation of [css_style_declaration_merge_properties]:
    [realloc] to [k + 1] cells, then [is_valid = FALSE] for every index
    from the old [length] up to [k] inclusive.  A cell that [realloc]
    adds is uninitialised memory; only its flag is defined by the code,
    and the model gives the rest the zero pattern. *)
Definition grow (ss : css_style_declaration_t) (k : nat) : css_style_declaration_t :=
  {| sheet := imap (fun i v => if decide (ss_length ss ≤ i) then invalidate v else v)
                   (resize (k + 1) zero_value (sheet ss));
     ss_length := k + 1 |}.

(** One iteration of the loop of [css_style_declaration_merge_properties].
    [None] stands for the access [ss->sheet[snode->key]] falling outside
    the allocation. *)
Definition merge_property (acc : css_style_declaration_t * Z)
    (snode : css_style_property_t) : option (css_style_declaration_t * Z) :=
  let '(ss, count) := acc in
  let ss := if decide (ss_length ss < key snode) then grow ss (key snode) else ss in
  match sheet ss !! key snode with
  | None => None
  | Some cell =>
      if negb (is_valid cell) && is_valid (style snode)
      then Some ({| sheet := <[key snode := css_unit_value_merge cell (style snode)]> (sheet ss);
                    ss_length := ss_length ss |}, (count + 1)%Z)
      else Some (ss, count)
  end.

Fixpoint merge_properties_loop (acc : css_style_declaration_t * Z)
    (l : css_style_properties_t) : option (css_style_declaration_t * Z) :=
  match l with
  | [] => Some acc
  | snode :: l' =>
      match merge_property acc snode with
      | None => None
      | Some acc' => merge_properties_loop acc' l'
      end
  end.

(** [css_style_declaration_merge_properties(ss, list)]: the updated
    declaration and the returned count. *)
Definition css_style_declaration_merge_properties (ss : css_style_declaration_t)
    (l : css_style_properties_t) : option (css_style_declaration_t * Z) :=
  merge_properties_loop (ss, 0%Z) l.

(** The common prologue of [css_style_declaration_merge] and
    [css_style_declaration_replace]: [realloc] to [src->length] cells and
    invalidate the new indices. *)
Definition grow_to (dest : css_style_declaration_t) (n : nat) : css_style_declaration_t :=
  if decide (ss_length dest < n)
  then {| sheet := imap (fun i v => if decide (ss_length dest ≤ i) then invalidate v else v)
                        (resize n zero_value (sheet dest));
          ss_length := n |}
  else dest.

(** [css_style_declaration_replace(dest, src)]: for every valid cell of
    [src] below [src->length], the cell of [dest] is destroyed and
    overwritten. *)
Definition css_style_declaration_replace (dest src : css_style_declaration_t)
  : css_style_declaration_t * Z :=
  let dest := grow_to dest (ss_length src) in
  let cells := take (ss_length src) (sheet src) in
  ({| sheet := imap (fun i d => match cells !! i with
                                | Some s => if is_valid s
                                            then css_unit_value_merge (css_unit_value_destroy d) s
                                            else d
                                | None => d
                                end) (sheet dest);
      ss_length := ss_length dest |},
   Z.of_nat (List.length (filter (fun s => is_valid s = true) cells))).

(** [css_style_declaration_merge(dest, src)]: copy where [src] is valid
    and [dest] is not. *)
Definition css_style_declaration_merge (dest src : css_style_declaration_t)
  : css_style_declaration_t :=
  let dest := grow_to dest (ss_length src) in
  let cells := take (ss_length src) (sheet src) in
  {| sheet := imap (fun i d => match cells !! i with
                               | Some s => if is_valid s && negb (is_valid d)
                                           then css_unit_value_merge d s
                                           else d
                               | None => d
                               end) (sheet dest);
     ss_length := ss_length dest |}.

End Decl.

(* ===================================================================== *)
(** * Selectors: nodes, specificity, full names, the parser *)
(* ===================================================================== *)

Module Selector.

Definition CSS_SELECTOR_MAX_LEN : nat := 1024.
Definition CSS_SELECTOR_MAX_DEPTH : nat := 32.
Definition MAX_NAME_LEN : nat := 256.

(** [enum css_selector_rank]. *)
Definition GENERAL_RANK : Z := 0.
Definition TYPE_RANK : Z := 1.
Definition CLASS_RANK : Z := 10.
Definition PCLASS_RANK : Z := 10.
Definition ID_RANK : Z := 100.

(** [css_selector_node_t].  [classes] and [status] are NULL-terminated
    string arrays; the NULL array and the empty one behave alike in every
    function modelled here and are both the empty list. *)
Record css_selector_node_t := mk_node {
  sn_id : option string;
  sn_type : option string;
  sn_classes : list string;
  sn_status : list string;
  sn_fullname : option string;
  sn_rank : Z
}.

(** A node as [calloc] returns it. *)
Definition empty_node : css_selector_node_t :=
  {| sn_id := None; sn_type := None; sn_classes := []; sn_status := [];
     sn_fullname := None; sn_rank := 0 |}.

(** [css_selector_t].  [sel_nodes] holds the entries [nodes[0 .. length)]. *)
Record css_selector_t := mk_selector {
  sel_rank : Z;
  sel_batch_num : Z;
  sel_length : nat;
  sel_hash : Z;
  sel_nodes : list css_selector_node_t
}.

(** Modelled from the spec: [strlist_sorted_add] belongs to the string-list
    utilities, which are not part of the sources at hand.  The spec has
    classes and states "added to sorted, duplicate-suppressing sets"; the
    caller tests the result against [0] for "added".  The order is that of
    [strcmp]. *)
Fixpoint strlist_insert (s : string) (l : list string) : option (list string) :=
  match l with
  | [] => Some [s]
  | x :: l' =>
      match String.compare s x with
      | Eq => None
      | Lt => Some (s :: x :: l')
      | Gt => match strlist_insert s l' with
              | Some r => Some (x :: r)
              | None => None
              end
      end
  end.

Definition strlist_sorted_add (l : list string) (s : string) : list string * Z :=
  match strlist_insert s l with
  | Some l' => (l', 0%Z)
  | None => (l, (-1)%Z)
  end.

(** [SelectorNode_Save(node, name, len, type)]: the updated node and the
    specificity the saved part contributes ([0] when nothing is saved). *)
Definition SelectorNode_Save (node : css_selector_node_t) (name : string)
    (len : nat) (type : ascii) : css_selector_node_t * Z :=
  if decide (len < 1) then (node, 0%Z)
  else if Ascii.eqb type Ascii.zero then
    match sn_type node with
    | Some _ => (node, 0%Z)
    | None => ({| sn_id := sn_id node; sn_type := Some name;
                  sn_classes := sn_classes node; sn_status := sn_status node;
                  sn_fullname := sn_fullname node; sn_rank := sn_rank node |},
               TYPE_RANK)
    end
  else if Ascii.eqb type ":" then
    let '(l, r) := strlist_sorted_add (sn_status node) name in
    if Z.eqb r 0
    then ({| sn_id := sn_id node; sn_type := sn_type node;
             sn_classes := sn_classes node; sn_status := l;
             sn_fullname := sn_fullname node; sn_rank := sn_rank node |},
          PCLASS_RANK)
    else (node, 0%Z)
  else if Ascii.eqb type "." then
    let '(l, r) := strlist_sorted_add (sn_classes node) name in
    if Z.eqb r 0
    then ({| sn_id := sn_id node; sn_type := sn_type node;
             sn_classes := l; sn_status := sn_status node;
             sn_fullname := sn_fullname node; sn_rank := sn_rank node |},
          CLASS_RANK)
    else (node, 0%Z)
  else if Ascii.eqb type "#" then
    match sn_id node with
    | Some _ => (node, 0%Z)
    | None => ({| sn_id := Some name; sn_type := sn_type node;
                  sn_classes := sn_classes node; sn_status := sn_status node;
                  sn_fullname := sn_fullname node; sn_rank := sn_rank node |},
               ID_RANK)
    end
  else (node, 0%Z).

(** The [strcat] sequences of [css_selector_node_update]. *)
Definition cat_prefixed (sep : string) (l : list string) : string :=
  fold_right (fun x acc => sep +:+ x +:+ acc) "" l.

Definition node_fullname (type id : option string) (classes status : list string)
  : string :=
  (match type with Some t => t | None => "" end) +:+
  (match id with Some i => "#" +:+ i | None => "" end) +:+
  cat_prefixed "." classes +:+ cat_prefixed ":" status.

(** The specificity [css_selector_node_update] accumulates. *)
Definition node_rank (type id : option string) (classes status : list string) : Z :=
  ((match id with Some _ => ID_RANK | None => 0 end) +
   (match type with Some _ => TYPE_RANK | None => 0 end) +
   CLASS_RANK * Z.of_nat (List.length classes) +
   PCLASS_RANK * Z.of_nat (List.length status))%Z.

(** The byte count [len] of [css_selector_node_update]: each part
    contributes its length plus one. *)
Definition node_name_len (type id : option string) (classes status : list string)
  : nat :=
  (match id with Some i => String.length i + 1 | None => 0 end) +
  (match type with Some t => String.length t + 1 | None => 0 end) +
  foldr (fun c acc => String.length c + 1 + acc) 0 classes +
  foldr (fun c acc => String.length c + 1 + acc) 0 status.

(** [css_selector_node_update]: recompute [rank] and [fullname] from the
    node's parts. *)
Definition css_selector_node_update (node : css_selector_node_t) : css_selector_node_t :=
  {| sn_id := sn_id node; sn_type := sn_type node;
     sn_classes := sn_classes node; sn_status := sn_status node;
     sn_fullname :=
       if decide (0 < node_name_len (sn_type node) (sn_id node)
                                    (sn_classes node) (sn_status node))
       then Some (node_fullname (sn_type node) (sn_id node)
                                (sn_classes node) (sn_status node))
       else None;
     sn_rank := node_rank (sn_type node) (sn_id node)
                          (sn_classes node) (sn_status node) |}.

(** [css_selector_node_copy(dst, src)] into a [calloc]ed [dst]: the rank
    is not copied. *)
Definition css_selector_node_copy (src : css_selector_node_t) : css_selector_node_t :=
  {| sn_id := sn_id src; sn_type := sn_type src;
     sn_classes := foldl (fun l c => (strlist_sorted_add l c).1) [] (sn_classes src);
     sn_status := foldl (fun l c => (strlist_sorted_add l c).1) [] (sn_status src);
     sn_fullname := sn_fullname src; sn_rank := 0 |}.

(** The full name a selector's node is required to carry: the trie and
    the hash dereference [fullname] without a test, so a node placed in a
    selector has one. *)
Definition name_of (sn : css_selector_node_t) : string :=
  match sn_fullname sn with Some s => s | None => "" end.

(** One round of the rolling hash: [((hash << 5) + hash) + c] on
    [unsigned int]. *)
Definition hash_char (hash : Z) (c : ascii) : Z :=
  ((Z.shiftl hash 5 + hash + Z.of_N (N_of_ascii c)) mod 2 ^ 32)%Z.

Definition hash_string (hash : Z) (s : string) : Z :=
  foldl hash_char hash (list_ascii_of_string s).

(** [css_selector_update]. *)
Definition css_selector_update (s : css_selector_t) : css_selector_t :=
  {| sel_rank := sel_rank s; sel_batch_num := sel_batch_num s;
     sel_length := sel_length s;
     sel_hash := foldl (fun h n => hash_string h (name_of n)) 5381%Z
                       (take (sel_length s) (sel_nodes s));
     sel_nodes := sel_nodes s |}.

(** [css_selector_append]: the selector and the status code. *)
Definition css_selector_append (s : css_selector_t) (node : css_selector_node_t)
  : css_selector_t * Z :=
  if decide (CSS_SELECTOR_MAX_DEPTH ≤ sel_length s) then (s, (-1)%Z)
  else ({| sel_rank := sel_rank s; sel_batch_num := sel_batch_num s;
           sel_length := sel_length s + 1;
           sel_hash := hash_string (sel_hash s) (name_of node);
           sel_nodes := take (sel_length s) (sel_nodes s) ++ [node] |}, 0%Z).

(** The character class accepted inside a name. *)
Definition is_name_char (c : ascii) : bool :=
  (Ascii.eqb c "-" || Ascii.eqb c "_" || Ascii.eqb c "*"
   || (Ascii.leb "a" c && Ascii.leb c "z")
   || (Ascii.leb "A" c && Ascii.leb c "Z")
   || (Ascii.leb "0" c && Ascii.leb c "9"))%bool.

Definition is_white_space (c : ascii) : bool :=
  (Ascii.eqb c " " || Ascii.eqb c "013" || Ascii.eqb c "010" || Ascii.eqb c "009")%bool.

(** The local variables of [css_selector_create].  [p_name] is the
    content [name[0 .. ni)] of the scratch buffer, so [ni] is its length;
    [p_nodes] are the finished entries [s->nodes[0 .. si)], so [si] is
    their number; [p_node] is the node under construction, which the code
    also stores at [s->nodes[si]]. *)
Record parser_t := mk_parser {
  p_name : string;
  p_type : ascii;
  p_is_saving : bool;
  p_node : option css_selector_node_t;
  p_rank : Z;
  p_nodes : list css_selector_node_t
}.

(** What a call of [css_selector_create] comes to: a selector, the NULL
    pointer, or an access the C language gives no meaning to (the
    256-byte name buffer overrun). *)
Inductive create_result :=
  | Created (s : css_selector_t)
  | Rejected
  | Undefined.

Definition ni (st : parser_t) : nat := String.length (p_name st).
Definition si (st : parser_t) : nat := List.length (p_nodes st).

Definition set_name (st : parser_t) (n : string) : parser_t :=
  {| p_name := n; p_type := p_type st; p_is_saving := p_is_saving st;
     p_node := p_node st; p_rank := p_rank st; p_nodes := p_nodes st |}.

(** The allocation at the head of the loop body:
    [if (!node && is_saving) { node = calloc(...); if (si >= MAX) return NULL; ... }]. *)
Definition enter_node (st : parser_t) : option parser_t :=
  match p_node st with
  | None =>
      if p_is_saving st then
        if decide (CSS_SELECTOR_MAX_DEPTH ≤ si st) then None
        else Some {| p_name := p_name st; p_type := p_type st;
                     p_is_saving := true; p_node := Some empty_node;
                     p_rank := p_rank st; p_nodes := p_nodes st |}
      else Some st
  | Some _ => Some st
  end.

(** One iteration of the scanning loop on character [c]: either the next
    state or the value returned at once. *)
Definition parse_char (c : ascii) (st0 : parser_t) : parser_t + create_result :=
  match enter_node st0 with
  | None => inr Rejected
  | Some st =>
      if (Ascii.eqb c ":" || Ascii.eqb c "." || Ascii.eqb c "#")%bool then
        if negb (p_is_saving st) then
          inl {| p_name := p_name st; p_type := c; p_is_saving := true;
                 p_node := p_node st; p_rank := p_rank st; p_nodes := p_nodes st |}
        else
          match p_node st with
          | None => inr Undefined
          | Some node =>
              let '(node', rank) := SelectorNode_Save node (p_name st) (ni st) (p_type st) in
              if (0 <? rank)%Z then
                inl {| p_name := ""; p_type := c; p_is_saving := true;
                       p_node := Some node'; p_rank := (p_rank st + rank)%Z;
                       p_nodes := p_nodes st |}
              else
                inl {| p_name := ""; p_type := c; p_is_saving := true;
                       p_node := None; p_rank := p_rank st; p_nodes := p_nodes st |}
          end
      else if is_white_space c then
        if negb (p_is_saving st) then
          inl {| p_name := ""; p_type := p_type st; p_is_saving := false;
                 p_node := None; p_rank := p_rank st; p_nodes := p_nodes st |}
        else
          match p_node st with
          | None => inr Undefined
          | Some node =>
              let '(node', rank) := SelectorNode_Save node (p_name st) (ni st) (p_type st) in
              if (0 <? rank)%Z then
                inl {| p_name := ""; p_type := p_type st; p_is_saving := false;
                       p_node := None; p_rank := (p_rank st + rank)%Z;
                       p_nodes := p_nodes st ++ [css_selector_node_update node'] |}
              else
                inl {| p_name := ""; p_type := p_type st; p_is_saving := false;
                       p_node := None; p_rank := p_rank st; p_nodes := p_nodes st |}
          end
      else if is_name_char c then
        if decide (MAX_NAME_LEN ≤ ni st + 1) then inr Undefined
        else
          inl {| p_name := p_name st +:+ String c "";
                 p_type := if p_is_saving st then p_type st else Ascii.zero;
                 p_is_saving := true;
                 p_node := p_node st; p_rank := p_rank st; p_nodes := p_nodes st |}
      else inr Rejected
  end.

Fixpoint parse_chars (cs : list ascii) (st : parser_t) : parser_t + create_result :=
  match cs with
  | [] => inl st
  | c :: cs' =>
      match parse_char c st with
      | inl st' => parse_chars cs' st'
      | inr r => inr r
      end
  end.

(** The code after the loop: save the pending part, close the node list,
    compute the hash. *)
Definition parse_finish (batch : Z) (st : parser_t) : create_result :=
  let close (rank : Z) (nodes : list css_selector_node_t) :=
    Created (css_selector_update
               {| sel_rank := rank; sel_batch_num := batch;
                  sel_length := List.length nodes; sel_hash := 0%Z;
                  sel_nodes := nodes |}) in
  if p_is_saving st then
    match enter_node st with
    | None => Rejected
    | Some st =>
        match p_node st with
        | None => Undefined
        | Some node =>
            let '(node', rank) := SelectorNode_Save node (p_name st) (ni st) (p_type st) in
            if (0 <? rank)%Z
            then close (p_rank st + rank)%Z (p_nodes st ++ [css_selector_node_update node'])
            else close (p_rank st) (p_nodes st)
        end
    end
  else close (p_rank st) (p_nodes st).

(** [++n] on an [int]: the successor in 32 bits two's complement, where
    [INT_MAX] is followed by [INT_MIN]. *)
Definition int_incr (n : Z) : Z := ((n + 1 + 2 ^ 31) mod 2 ^ 32 - 2 ^ 31)%Z.

(** [css_selector_create(selector)].  [batch_num] is the value of the
    function's [static int] counter before the call; [++batch_num] comes
    first, and the new value is returned next to the result. *)
Definition css_selector_create (batch_num : Z) (selector : option string)
  : create_result * Z :=
  let batch := int_incr batch_num in
  match selector with
  | None =>
      (Created {| sel_rank := 0; sel_batch_num := batch; sel_length := 0;
                  sel_hash := 0; sel_nodes := [] |}, batch)
  | Some text =>
      let st0 := {| p_name := ""; p_type := Ascii.zero; p_is_saving := false;
                    p_node := None; p_rank := 0; p_nodes := [] |} in
      match parse_chars (list_ascii_of_string text) st0 with
      | inl st => (parse_finish batch st, batch)
      | inr r => (r, batch)
      end
  end.

End Selector.

(* ===================================================================== *)
(** * Selector-name expansion *)
(* ===================================================================== *)

Module Collector.
Import Selector.

(** [enum css_selector_name_finder_level]. *)
Definition LEVEL_NONE : nat := 0.
Definition LEVEL_TYPE : nat := 1.
Definition LEVEL_ID : nat := 2.
Definition LEVEL_CLASS : nat := 3.
Definition LEVEL_CLASS_2 : nat := 4.
Definition LEVEL_STATUS : nat := 5.
Definition LEVEL_STATUS_2 : nat := 6.
Definition LEVEL_TOTAL_NUM : nat := 7.

(** The first [n] characters of a string: what remains of the scratch
    buffer after [fullname[n] = 0], and the part [strcpy(fullname + n, _)]
    leaves in place. *)
Fixpoint str_take (n : nat) (s : string) : string :=
  match n, s with
  | S n', String c s' => String c (str_take n' s')
  | _, _ => ""
  end.

(** [css_selector_name_collector_t].  [name] is the C string held by the
    scratch buffer ([name_i] stays [0], so [fullname] is the buffer
    itself); the node is passed next to the collector.  The size of the
    buffer, [MAX_NAME_LEN], is not part of the record: the code copies
    into it with [strcpy] and tests no length, so the model follows the
    code as long as the names written are shorter than [MAX_NAME_LEN],
    and a statement about the names carries that bound. *)
Record css_selector_name_collector_t := mk_collector {
  level : nat;
  class_i : nat;
  status_i : nat;
  name : string
}.

Definition set_level (sf : css_selector_name_collector_t) (l : nat) :=
  {| level := l; class_i := class_i sf; status_i := status_i sf; name := name sf |}.
Definition set_class_i (sf : css_selector_name_collector_t) (i : nat) :=
  {| level := level sf; class_i := i; status_i := status_i sf; name := name sf |}.
Definition set_status_i (sf : css_selector_name_collector_t) (i : nat) :=
  {| level := level sf; class_i := class_i sf; status_i := i; name := name sf |}.
Definition set_name (sf : css_selector_name_collector_t) (n : string) :=
  {| level := level sf; class_i := class_i sf; status_i := status_i sf; name := n |}.

(** Collector, output list and running [count]. *)
Definition collect_state : Type :=
  css_selector_name_collector_t * list string * Z.

Section Loops.
(** The recursive call [css_selector_collect_name(sfinder, list)]. *)
Variable rec : css_selector_name_collector_t → list string → option collect_state.

(** The loop closing the function:
    [for (i = level + 1; i < LEVEL_TOTAL_NUM; ++i)], skipping the two
    secondary levels. *)
Fixpoint next_levels (levels : list nat) (st : collect_state) : option collect_state :=
  match levels with
  | [] => Some st
  | i :: levels' =>
      if (Nat.eqb i LEVEL_STATUS_2 || Nat.eqb i LEVEL_CLASS_2)%bool
      then next_levels levels' st
      else
        let '(sf, l, count) := st in
        match rec (set_level sf i) l with
        | None => None
        | Some (sf', l', c) => next_levels levels' (sf', l', (count + c)%Z)
        end
  end.

(** [while (sfinder->level < LEVEL_TOTAL_NUM) { count += collect; level += 1 }],
    cut after [n] rounds. *)
Fixpoint deeper_levels (n : nat) (st : collect_state) : option collect_state :=
  let '(sf, l, count) := st in
  if decide (level sf < LEVEL_TOTAL_NUM) then
    match n with
    | O => None
    | S n' =>
        match rec sf l with
        | None => None
        | Some (sf', l', c) =>
            deeper_levels n' (set_level sf' (level sf' + 1), l', (count + c)%Z)
        end
    end
  else Some st.

(** The body of the [LEVEL_CLASS] loop, over [classes[i ..]]. *)
Fixpoint class_loop (n : nat) (len : nat) (i : nat) (classes : list string)
    (st : collect_state) : option collect_state :=
  match classes with
  | [] => Some st
  | c :: classes' =>
      let '(sf, l, count) := st in
      let sf := set_level sf (level sf + 1) in
      let sf := set_class_i sf i in
      let sf := set_name sf (str_take len (name sf) +:+ c) in
      let l := l ++ [name sf] in
      match deeper_levels n (sf, l, count) with
      | None => None
      | Some (sf, l, count) =>
          class_loop n len (S i) classes' (set_level sf LEVEL_CLASS, l, count)
      end
  end.

(** The body of the [LEVEL_CLASS_2] loop. *)
Fixpoint class_2_loop (len : nat) (i : nat) (classes : list string)
    (st : collect_state) : option collect_state :=
  match classes with
  | [] => Some st
  | c :: classes' =>
      let '(sf, l, count) := st in
      if decide (i ≤ class_i sf) then class_2_loop len (S i) classes' st
      else
        let sf := set_name sf (str_take len (name sf) +:+ c) in
        let l := l ++ [name sf] in
        let sf := set_class_i sf i in
        match rec sf l with
        | None => None
        | Some (sf, l, c1) =>
            let sf := set_class_i sf 0 in
            let sf := set_level sf LEVEL_STATUS in
            match rec sf l with
            | None => None
            | Some (sf, l, c2) =>
                class_2_loop len (S i) classes'
                  (set_level sf LEVEL_CLASS_2, l, (count + c1 + c2)%Z)
            end
        end
  end.

(** The body of the [LEVEL_STATUS] loop. *)
Fixpoint status_loop (len : nat) (i : nat) (status : list string)
    (st : collect_state) : option collect_state :=
  match status with
  | [] => Some st
  | s :: status' =>
      let '(sf, l, count) := st in
      let sf := set_status_i sf i in
      let sf := set_name sf (str_take len (name sf) +:+ s) in
      let l := l ++ [name sf] in
      match rec sf l with
      | None => None
      | Some (sf, l, c) => status_loop len (S i) status' (sf, l, (count + c)%Z)
      end
  end.

(** The body of the [LEVEL_STATUS_2] loop. *)
Fixpoint status_2_loop (len : nat) (i : nat) (status : list string)
    (st : collect_state) : option collect_state :=
  match status with
  | [] => Some st
  | s :: status' =>
      let '(sf, l, count) := st in
      if decide (i ≤ status_i sf) then status_2_loop len (S i) status' st
      else
        let sf := set_name sf (str_take len (name sf) +:+ ":" +:+ s) in
        let l := l ++ [name sf] in
        let sf := set_status_i sf i in
        match rec sf l with
        | None => None
        | Some (sf, l, c) =>
            status_2_loop len (S i) status' (set_status_i sf 0, l, (count + c)%Z)
        end
  end.
End Loops.

(** [css_selector_collect_name(sfinder, list)] for the node [node].  The
    recursion of the C function descends through the levels and, inside
    the two secondary levels, through increasing indices; [fuel] bounds
    its depth and [None] is "fuel exhausted". *)
Fixpoint css_selector_collect_name (fuel : nat) (node : css_selector_node_t)
    (sf : css_selector_name_collector_t) (l : list string) : option collect_state :=
  match fuel with
  | O => None
  | S fuel' =>
      let rec := css_selector_collect_name fuel' node in
      let old_len := String.length (name sf) in
      let old_level := level sf in
      let after_switch (sf : css_selector_name_collector_t) (l : list string) :=
        match next_levels rec (seq (level sf + 1) (LEVEL_TOTAL_NUM - (level sf + 1)))
                          (sf, l, 0%Z) with
        | None => None
        | Some (sf, l, count) =>
            Some (set_level (set_name sf (str_take old_len (name sf))) old_level, l, count)
        end in
      if Nat.eqb (level sf) LEVEL_TYPE then
        match sn_type node with
        | None => Some (sf, l, 0%Z)
        | Some t =>
            let sf := set_name sf t in
            after_switch sf (l ++ [name sf])
        end
      else if Nat.eqb (level sf) LEVEL_ID then
        match sn_id node with
        | None => Some (sf, l, 0%Z)
        | Some i =>
            let sf := set_name sf (name sf +:+ "#" +:+ i) in
            after_switch sf (l ++ [name sf])
        end
      else if Nat.eqb (level sf) LEVEL_CLASS then
        match sn_classes node with
        | [] => Some (sf, l, 0%Z)
        | classes =>
            let sf := set_name sf (name sf +:+ ".") in
            match class_loop rec fuel' (old_len + 1) 0 classes (sf, l, 0%Z) with
            | None => None
            | Some (sf, l, count) =>
                let sf := set_level sf LEVEL_CLASS in
                let sf := set_name sf (str_take old_len (name sf)) in
                Some (set_class_i sf 0, l, count)
            end
        end
      else if Nat.eqb (level sf) LEVEL_CLASS_2 then
        match sn_classes node with
        | [] => Some (sf, l, 0%Z)
        | classes =>
            let sf := set_name sf (name sf +:+ ".") in
            match class_2_loop rec (old_len + 1) 0 classes (sf, l, 0%Z) with
            | None => None
            | Some (sf, l, count) =>
                let sf := set_name sf (str_take old_len (name sf)) in
                Some (set_level sf LEVEL_CLASS_2, l, count)
            end
        end
      else if Nat.eqb (level sf) LEVEL_STATUS then
        match sn_status node with
        | [] => Some (sf, l, 0%Z)
        | status =>
            let sf := set_name sf (name sf +:+ ":") in
            let sf := set_level sf LEVEL_STATUS_2 in
            match status_loop rec (old_len + 1) 0 status (sf, l, 0%Z) with
            | None => None
            | Some (sf, l, count) =>
                let sf := set_level sf LEVEL_STATUS in
                let sf := set_name sf (str_take old_len (name sf)) in
                Some (set_status_i sf 0, l, count)
            end
        end
      else if Nat.eqb (level sf) LEVEL_STATUS_2 then
        match sn_status node with
        | [] => Some (sf, l, 0%Z)
        | status =>
            match status_2_loop rec old_len 0 status (sf, l, 0%Z) with
            | None => None
            | Some (sf, l, count) =>
                Some (set_name sf (str_take old_len (name sf)), l, count)
            end
        end
      else after_switch sf l
  end.

(** Recursion depth that suffices for a node. *)
Definition collect_fuel (sn : css_selector_node_t) : nat :=
  List.length (sn_classes sn) + List.length (sn_status sn) + 8.

(** [css_selector_init_name_collector]. *)
Definition css_selector_init_name_collector : css_selector_name_collector_t :=
  {| level := 0; class_i := 0; status_i := 0; name := "" |}.

(** [css_selector_node_get_name_list(sn, names)], with the recursion
    depth made explicit. *)
Definition css_selector_node_get_name_list_opt (sn : css_selector_node_t)
    (names : list string) : option (list string * Z) :=
  match css_selector_collect_name (collect_fuel sn) sn
          css_selector_init_name_collector names with
  | Some (_, l, count) => Some (l, count)
  | None => None
  end.

(** [css_selector_node_get_name_list(sn, names)]: the list with the
    generated names appended, and the returned count.
    [get_name_list_defined] below shows the depth bound is always
    enough, so the second branch is never taken. *)
Definition css_selector_node_get_name_list (sn : css_selector_node_t)
    (names : list string) : list string * Z :=
  match css_selector_node_get_name_list_opt sn names with
  | Some r => r
  | None => (names, 0%Z)
  end.

End Collector.

(* ===================================================================== *)
(** * The style library: rule store, query, cascade, registries *)
(* ===================================================================== *)

Module Library.
Import Decl Selector Collector.

(** ** Dictionaries the code iterates over

    [dict_t] is an external hash table.  Where the library walks a table
    with an iterator the model is an association list with unique keys,
    walked in insertion order; no statement below depends on that order. *)
Definition dict (V : Type) : Type := list (string * V).

Fixpoint dict_fetch_value {V : Type} (d : dict V) (k : string) : option V :=
  match d with
  | [] => None
  | (k', v) :: d' => if String.eqb k' k then Some v else dict_fetch_value d' k
  end.

(** [dict_add]: fails (non-zero) when the key is present. *)
Definition dict_add {V : Type} (d : dict V) (k : string) (v : V) : dict V * Z :=
  match dict_fetch_value d k with
  | Some _ => (d, (-1)%Z)
  | None => (d ++ [(k, v)], 0%Z)
  end.

(** Writing through a pointer obtained from [dict_fetch_value]: the value
    stored under [k] is replaced. *)
Fixpoint dict_store {V : Type} (d : dict V) (k : string) (v : V) : dict V :=
  match d with
  | [] => []
  | (k', v') :: d' =>
      if String.eqb k' k then (k', v) :: d' else (k', v') :: dict_store d' k v
  end.

(** [dict_add] on a table that is only probed. *)
Definition map_add {K : Type} `{Countable K} {V : Type}
    (m : gmap K V) (k : K) (v : V) : gmap K V * Z :=
  match m !! k with
  | Some _ => (m, (-1)%Z)
  | None => (<[k := v]> m, 0%Z)
  end.

(** ** Records *)

(** [css_style_rule_t]. *)
Record css_style_rule_t := mk_rule {
  rule_rank : Z;
  rule_batch_num : Z;
  rule_space : option string;
  rule_selector : string;
  rule_list : css_style_properties_t
}.

(** [css_style_link_t].  Links are shared between a group's [links] table
    and the [parents] tables of other links, so they live in the store
    [links] of the module state and are referred to by index.  [group] is
    the back pointer to the owning group, kept as the depth and the key of
    that group. *)
Record css_style_link_t := mk_link {
  link_selector : string;
  link_group : nat * string;
  link_styles : list css_style_rule_t;
  link_parents : dict nat
}.

(** [css_style_link_group_t]. *)
Record css_style_link_group_t := mk_link_group {
  slg_links : dict nat;
  slg_name : option string;
  slg_snode : css_selector_node_t
}.

(** [css_style_group_t]: [dict_t<string, css_style_link_group_t*>]. *)
Definition css_style_group_t : Type := dict css_style_link_group_t.

(** [css_keyword_t]. *)
Record css_keyword_t := mk_keyword {
  kw_key : Z;
  kw_name : string
}.

(** [css_property_definition_t]; the compiled syntax is kept as the list
    of value-type names it accepts. *)
Record css_property_definition_t := mk_property {
  prop_key : Z;
  prop_name : string;
  prop_syntax : list string;
  prop_initial_value : css_style_value_t
}.

(** [struct css_module_t], the static [css]. *)
Record css_module_t := mk_css {
  groups : list css_style_group_t;
  links : list css_style_link_t;
  cache : gmap Z css_style_declaration_t;
  properties : list (option css_property_definition_t);
  properties_length : nat;
  property_map : gmap string css_property_definition_t;
  keywords : gmap string css_keyword_t;
  keyword_names : gmap Z css_keyword_t;
  count : nat
}.

Definition set_groups (st : css_module_t) (g : list css_style_group_t) : css_module_t :=
  {| groups := g; links := links st; cache := cache st;
     properties := properties st; properties_length := properties_length st;
     property_map := property_map st; keywords := keywords st;
     keyword_names := keyword_names st; count := count st |}.

Definition set_links (st : css_module_t) (l : list css_style_link_t) : css_module_t :=
  {| groups := groups st; links := l; cache := cache st;
     properties := properties st; properties_length := properties_length st;
     property_map := property_map st; keywords := keywords st;
     keyword_names := keyword_names st; count := count st |}.

Definition set_cache (st : css_module_t) (c : gmap Z css_style_declaration_t)
  : css_module_t :=
  {| groups := groups st; links := links st; cache := c;
     properties := properties st; properties_length := properties_length st;
     property_map := property_map st; keywords := keywords st;
     keyword_names := keyword_names st; count := count st |}.

(** [STYLE_KEY_TOTAL], the number of enumerators of [css_property_key_t],
    and two of the keys. *)
Definition STYLE_KEY_TOTAL : nat := 78.
Definition css_key_width : nat := 10.
Definition css_key_color : nat := 67.

(** [css_get_property_count]. *)
Definition css_get_property_count (st : css_module_t) : nat := count st.

(** ** Insertion into the trie *)

(** [css_style_link_group_create(snode)]. *)
Definition css_style_link_group_create (snode : css_selector_node_t)
  : css_style_link_group_t :=
  let copy := css_selector_node_copy snode in
  {| slg_links := []; slg_name := sn_fullname copy; slg_snode := copy |}.

(** The variables [link], [parents], [buf] and [fullname] of
    [css_select_style_properties], next to the module state.  [parents]
    points into a link, so it is that link's index. *)
Record select_state := mk_select {
  sel_css : css_module_t;
  sel_link : option nat;
  sel_parents : option nat;
  sel_buf : string;
  sel_fullname : string
}.

(** One round of the loop of [css_select_style_properties], at depth [i]
    for the node [sn = selector->nodes[right]].  The two scratch buffers
    [buf] and [fullname] are strings here and their size,
    [CSS_SELECTOR_MAX_LEN], is not part of the state: the code fills
    them with [strcpy] and [sprintf] and tests no length, so the model
    follows the code as long as the texts are shorter than
    [CSS_SELECTOR_MAX_LEN], and a statement about the links these texts
    name carries that bound. *)
Definition select_step (i : nat) (sn : css_selector_node_t) (ss : select_state)
  : select_state :=
  let st := sel_css ss in
  (* group = list_get(&css.groups, i), created when missing *)
  let gs := match groups st !! i with
            | Some _ => groups st
            | None => groups st ++ [[]]
            end in
  let group := default [] (gs !! i) in
  (* slg = dict_fetch_value(group, sn->fullname), created when missing *)
  let '(group, slg) :=
    match dict_fetch_value group (name_of sn) with
    | Some slg => (group, slg)
    | None =>
        let slg := css_style_link_group_create sn in
        ((dict_add group (name_of sn) slg).1, slg)
    end in
  let fullname := if decide (i = 0) then "*" else sel_buf ss in
  (* link = dict_fetch_value(slg->links, fullname), created when missing *)
  let '(lks, slg, link) :=
    match dict_fetch_value (slg_links slg) fullname with
    | Some link => (links st, slg, link)
    | None =>
        let link := List.length (links st) in
        (links st ++ [ {| link_selector := fullname;
                          link_group := (i, name_of sn);
                          link_styles := [];
                          link_parents := [] |} ],
         {| slg_links := (dict_add (slg_links slg) fullname link).1;
            slg_name := slg_name slg; slg_snode := slg_snode slg |},
         link)
    end in
  let group := dict_store group (name_of sn) slg in
  let gs := <[i := group]> gs in
  let '(buf, fullname) :=
    if decide (i = 0) then (name_of sn, name_of sn)
    else (name_of sn +:+ " " +:+ sel_buf ss, sel_buf ss) in
  (* the link is recorded in the previous link's parents *)
  let lks :=
    match sel_parents ss with
    | None => lks
    | Some p =>
        match lks !! p with
        | None => lks
        | Some pl =>
            match dict_fetch_value (link_parents pl) (name_of sn) with
            | Some _ => lks
            | None =>
                <[p := {| link_selector := link_selector pl;
                          link_group := link_group pl;
                          link_styles := link_styles pl;
                          link_parents := (dict_add (link_parents pl) (name_of sn) link).1 |}]>
                  lks
            end
        end
    end in
  {| sel_css := set_links (set_groups st gs) lks;
     sel_link := Some link;
     sel_parents := Some link;
     sel_buf := buf;
     sel_fullname := fullname |}.

(** The loop [for (i = 0, right = length - 1; right >= 0; --right, ++i)]
    over the nodes taken from the right. *)
Fixpoint select_loop (i : nat) (rnodes : list css_selector_node_t) (ss : select_state)
  : select_state :=
  match rnodes with
  | [] => ss
  | sn :: rnodes' => select_loop (S i) rnodes' (select_step i sn ss)
  end.

(** [css_select_style_properties(selector, space)]: the new state and,
    when a link was reached, the place of the rule just created (link
    index and position in the link's [styles]), whose property list the
    caller fills. *)
Definition css_select_style_properties (st : css_module_t) (selector : css_selector_t)
    (space : option string) : css_module_t * option (nat * nat) :=
  let ss := select_loop 0 (rev (take (sel_length selector) (sel_nodes selector)))
              {| sel_css := st; sel_link := None; sel_parents := None;
                 sel_buf := ""; sel_fullname := "" |} in
  match sel_link ss with
  | None => (sel_css ss, None)
  | Some link =>
      match links (sel_css ss) !! link with
      | None => (sel_css ss, None)
      | Some l =>
          let snode := {| rule_rank := sel_rank selector;
                          rule_batch_num := sel_batch_num selector;
                          rule_space := space;
                          rule_selector := sel_fullname ss;
                          rule_list := css_style_properties_create |} in
          (set_links (sel_css ss)
             (<[link := {| link_selector := link_selector l;
                           link_group := link_group l;
                           link_styles := link_styles l ++ [snode];
                           link_parents := link_parents l |}]> (links (sel_css ss))),
           Some (link, List.length (link_styles l)))
      end
  end.

(** Appending to the property list of the rule at [place]. *)
Definition fill_rule (st : css_module_t) (place : nat * nat)
    (style : css_style_declaration_t) : css_module_t :=
  match links st !! place.1 with
  | None => st
  | Some l =>
      match link_styles l !! place.2 with
      | None => st
      | Some r =>
          let r' := {| rule_rank := rule_rank r; rule_batch_num := rule_batch_num r;
                       rule_space := rule_space r; rule_selector := rule_selector r;
                       rule_list := (css_style_properties_merge (rule_list r) style).1 |} in
          set_links st
            (<[place.1 := {| link_selector := link_selector l;
                             link_group := link_group l;
                             link_styles := <[place.2 := r']> (link_styles l);
                             link_parents := link_parents l |}]> (links st))
      end
  end.

(** [css_add_style_sheet(selector, style, space)]: [dict_empty(css.cache)]
    comes first. *)
Definition css_add_style_sheet (st : css_module_t) (selector : css_selector_t)
    (style : css_style_declaration_t) (space : option string) : css_module_t * Z :=
  let st := set_cache st ∅ in
  let '(st, place) := css_select_style_properties st selector space in
  match place with
  | Some place => (fill_rule st place style, 0%Z)
  | None => (st, 0%Z)
  end.

(** ** Query *)

(** The scan of [StyleLink_GetStyleSheets] over the output list for one
    rule [snode]: the index [i] reached and the flag [found]. *)
Fixpoint find_position (snode : css_style_rule_t) (outlist : list css_style_rule_t)
    (i : nat) : nat * bool :=
  match outlist with
  | [] => (i, false)
  | out_snode :: outlist' =>
      if (rule_rank out_snode <? rule_rank snode)%Z then (i, true)
      else if negb (rule_rank snode =? rule_rank out_snode)%Z
      then find_position snode outlist' (i + 1)
      else if (rule_batch_num out_snode <? rule_batch_num snode)%Z then (i, true)
      else find_position snode outlist' (i + 1)
  end.

(** [list_insert(list, pos, data)]. *)
Definition list_insert {A : Type} (l : list A) (pos : nat) (x : A) : list A :=
  take pos l ++ x :: drop pos l.

(** The body of the outer loop of [StyleLink_GetStyleSheets]. *)
Definition insert_rule (outlist : list css_style_rule_t) (snode : css_style_rule_t)
  : list css_style_rule_t :=
  let '(i, found) := find_position snode outlist 0 in
  if found then list_insert outlist i snode else outlist ++ [snode].

(** [StyleLink_GetStyleSheets(link, outlist)]: a NULL [outlist] only
    counts. *)
Definition StyleLink_GetStyleSheets (link : css_style_link_t)
    (outlist : option (list css_style_rule_t)) : option (list css_style_rule_t) * nat :=
  match outlist with
  | None => (None, List.length (link_styles link))
  | Some out => (Some (foldl insert_rule out (link_styles link)),
                 List.length (link_styles link))
  end.

(** [css_query_selector_from_link(link, s, i, list)] over the link store
    [lks].  The recursion is on [i], which every nested call lowers. *)
Fixpoint css_query_selector_from_link (lks : list css_style_link_t)
    (link : css_style_link_t) (s : css_selector_t) (i : nat)
    (out : list css_style_rule_t) {struct i} : list css_style_rule_t * nat :=
  let out := default out (StyleLink_GetStyleSheets link (Some out)).1 in
  let count := List.length (link_styles link) in
  (fix ancestors (i : nat) (acc : list css_style_rule_t * nat) {struct i} :=
     match i with
     | O => acc
     | S j =>
         let names :=
           match sel_nodes s !! j with
           | Some sn => (css_selector_node_get_name_list sn []).1
           | None => []
           end in
         let acc :=
           foldl (fun (acc : list css_style_rule_t * nat) (name : string) =>
                    match dict_fetch_value (link_parents link) name with
                    | None => acc
                    | Some p =>
                        match lks !! p with
                        | None => acc
                        | Some parent =>
                            let '(l, c) := css_query_selector_from_link lks parent s j acc.1 in
                            (l, acc.2 + c)
                        end
                    end) acc names in
         ancestors j acc
     end) i (out, count).

(** [css_query_selector_from_group(group, name, s, list)]. *)
Definition css_query_selector_from_group (st : css_module_t) (group : nat)
    (name : option string) (s : css_selector_t) (out : list css_style_rule_t)
  : list css_style_rule_t * Z :=
  match groups st !! group with
  | None => (out, 0%Z)
  | Some groups =>
      if decide (sel_length s < 1) then (out, 0%Z)
      else
        let i := sel_length s - 1 in
        let names :=
          match name with
          | Some name => [name]
          | None =>
              match sel_nodes s !! i with
              | Some sn => (css_selector_node_get_name_list sn []).1 ++ ["*"]
              | None => ["*"]
              end
          end in
        let '(l, count) :=
          foldl (fun (acc : list css_style_rule_t * nat) (name : string) =>
                   match dict_fetch_value groups name with
                   | None => acc
                   | Some slg =>
                       foldl (fun (acc : list css_style_rule_t * nat) (entry : string * nat) =>
                                match links st !! entry.2 with
                                | None => acc
                                | Some link =>
                                    let '(l, c) :=
                                      css_query_selector_from_link (links st) link s i acc.1 in
                                    (l, acc.2 + c)
                                end) acc (slg_links slg)
                   end) (out, 0) names in
        (l, Z.of_nat count)
  end.

(** Modelled from the spec: [css_query_selector] is called by the cascade
    but its definition is not part of the sources at hand.  The spec has
    the query start at depth 0 from the rightmost node with every
    candidate name and ["*"], on an output list that starts empty, i.e.
    [css_query_selector_from_group(0, NULL, s, list)]. *)
Definition css_query_selector (st : css_module_t) (s : css_selector_t)
  : list css_style_rule_t * Z :=
  css_query_selector_from_group st 0 None s [].

(** ** Cascade and cache *)

(** The merge loop of [css_get_computed_style_with_cache] over the
    ordered rule list; the count each merge returns is dropped. *)
Fixpoint merge_rules (ss : css_style_declaration_t) (rules : list css_style_rule_t)
  : option css_style_declaration_t :=
  match rules with
  | [] => Some ss
  | sn :: rules' =>
      match css_style_declaration_merge_properties ss (rule_list sn) with
      | None => None
      | Some (ss', _) => merge_rules ss' rules'
      end
  end.

(** [css_get_computed_style_with_cache(s)]: the declaration returned and
    the state, in which a miss has filled the cache.  [None] is an access
    outside the declaration's allocation during the merge. *)
Definition css_get_computed_style_with_cache (st : css_module_t) (s : css_selector_t)
  : option (css_style_declaration_t * css_module_t) :=
  match cache st !! sel_hash s with
  | Some ss => Some (ss, st)
  | None =>
      let ss := css_style_declaration_create (css_get_property_count st) in
      let rules := (css_query_selector st s).1 in
      match merge_rules ss rules with
      | None => None
      | Some ss => Some (ss, set_cache st (<[sel_hash s := ss]> (cache st)))
      end
  end.

(** [css_get_computed_style(s, out_ss)]. *)
Definition css_get_computed_style (st : css_module_t) (s : css_selector_t)
    (out_ss : css_style_declaration_t)
  : option (css_style_declaration_t * css_module_t) :=
  match css_get_computed_style_with_cache st s with
  | None => None
  | Some (ss, st') =>
      Some ((css_style_declaration_replace (css_style_declaration_clear out_ss) ss).1, st')
  end.

End Library.

(* ===================================================================== *)
(** * Registries: keywords, properties, value types *)
(* ===================================================================== *)

Module Registry.
Import Decl Selector Library.

(** What a call comes to when the C code may leave defined behaviour:
    a returned value, an access outside an object (or through NULL), or
    the use of a variable that was never assigned. *)
Inductive outcome (A : Type) :=
  | Ret (a : A)
  | Fault
  | Uninitialised.
Arguments Ret {A} a.
Arguments Fault {A}.
Arguments Uninitialised {A}.

Definition set_keywords (st : css_module_t) (k : gmap string css_keyword_t)
    (n : gmap Z css_keyword_t) : css_module_t :=
  {| groups := groups st; links := links st; cache := cache st;
     properties := properties st; properties_length := properties_length st;
     property_map := property_map st; keywords := k;
     keyword_names := n; count := count st |}.

Definition set_properties (st : css_module_t)
    (p : list (option css_property_definition_t)) (n : nat) : css_module_t :=
  {| groups := groups st; links := links st; cache := cache st;
     properties := p; properties_length := n;
     property_map := property_map st; keywords := keywords st;
     keyword_names := keyword_names st; count := count st |}.

(** ** Keywords *)

(** [css_register_keyword(key, name)]. *)
Definition css_register_keyword (st : css_module_t) (key : Z) (name : string)
  : css_module_t * Z :=
  let kw := {| kw_key := key; kw_name := name |} in
  let '(k, r) := map_add (keywords st) name kw in
  if negb (r =? 0)%Z then (st, (-1)%Z)
  else
    let '(n, r) := map_add (keyword_names st) key kw in
    if negb (r =? 0)%Z then (set_keywords st k (keyword_names st), (-2)%Z)
    else (set_keywords st k n, 0%Z).

(** [css_get_keyword_key(str)]: [-1] when the name is not registered. *)
Definition css_get_keyword_key (st : css_module_t) (str : string) : Z :=
  match keywords st !! str with
  | Some kw => kw_key kw
  | None => (-1)%Z
  end.

(** [css_get_keyword_name(val)]. *)
Definition css_get_keyword_name (st : css_module_t) (val : Z) : option string :=
  match keyword_names st !! val with
  | Some kw => Some (kw_name kw)
  | None => None
  end.

(** The registrations of [css_init_keywords], in order; the keys are
    the values of [css_keyword_value_t]. *)
Definition initial_keywords : list (Z * string) :=
  [ (0, "none"); (1, "auto"); (3, "inherit"); (4, "initial"); (5, "contain");
    (6, "cover"); (7, "left"); (8, "center"); (9, "right"); (10, "top");
    (11, "top left"); (12, "top center"); (13, "top right"); (14, "middle");
    (15, "center left"); (16, "center center"); (17, "center right");
    (18, "bottom"); (19, "bottom left"); (20, "bottom center");
    (21, "bottom right"); (22, "solid"); (23, "dotted"); (24, "double");
    (25, "dashed"); (26, "content-box"); (27, "padding-box");
    (28, "border-box"); (29, "graph-box"); (30, "static"); (31, "relative");
    (32, "absolute"); (33, "block"); (34, "inline-block"); (35, "flex");
    (2, "normal"); (36, "flex-start"); (37, "flex-end"); (38, "stretch");
    (39, "space-between"); (40, "space-around"); (41, "space-evenly");
    (43, "nowrap"); (42, "wrap"); (44, "row"); (45, "column") ]%Z.

(** [css_init_keywords]. *)
Definition css_init_keywords (st : css_module_t) : css_module_t :=
  foldl (fun st kv => (css_register_keyword st kv.1 kv.2).1)
        (set_keywords st ∅ ∅) initial_keywords.

(** The module state once [css_init] has run, as far as the functions
    modelled here read it: empty rule store and cache, the keywords of
    [css_init_keywords], [count = STYLE_KEY_TOTAL].  The property table
    is left empty ([css_register_property_with_key] stores nothing, see
    below). *)
Definition css_init : css_module_t :=
  css_init_keywords
    {| groups := []; links := []; cache := ∅; properties := [];
       properties_length := 0; property_map := ∅; keywords := ∅;
       keyword_names := ∅; count := STYLE_KEY_TOTAL |}.

(** ** Properties *)

(** [css_register_property_with_key(key, name, syntax, initial_value)].
    [props_ok] and [prop_ok] are the answers of [realloc] and [malloc].
    The statements after [if (prop) return -1;] run only with
    [prop == NULL], and the first of them writes [prop->syntax]. *)
Definition css_register_property_with_key (st : css_module_t)
    (props_ok prop_ok : bool) (key : nat) (name syntax initial_value : string)
  : outcome (Z * css_module_t) :=
  let grown :=
    if decide (properties_length st ≤ key) then
      if props_ok
      then Some (set_properties st (resize key None (properties st)) key)
      else None
    else Some st in
  match grown with
  | None => Ret ((-1)%Z, st)
  | Some st' => if prop_ok then Ret ((-1)%Z, st') else Fault
  end.

(** [css_register_property(name, syntax, initial_value)]. *)
Definition css_register_property (st : css_module_t) (props_ok prop_ok : bool)
    (name syntax initial_value : string) : outcome (Z * css_module_t) :=
  css_register_property_with_key st props_ok prop_ok (properties_length st)
    name syntax initial_value.

(** [css_get_property_by_key(key)]. *)
Definition css_get_property_by_key (st : css_module_t) (key : Z)
  : option css_property_definition_t :=
  if ((0 <=? key)%Z && (Z.to_nat key <? properties_length st))%bool
  then default None (properties st !! Z.to_nat key)
  else None.

(** ** Value types and their aliases (the static [css_value]) *)

(** [css_value_type_record_t]; the parse function is named by an index. *)
Record css_value_type_record_t := mk_value_type {
  vt_name : string;
  vt_parse_value : nat
}.

Record css_value_module_t := mk_css_value {
  types : gmap string css_value_type_record_t;
  type_alias : gmap string string
}.

(** [css_register_value_type(type_name, parse)]. *)
Definition css_register_value_type (cv : css_value_module_t) (type_name : string)
    (parse : nat) : css_value_module_t * option css_value_type_record_t :=
  let t := {| vt_name := type_name; vt_parse_value := parse |} in
  let '(m, r) := map_add (types cv) type_name t in
  if negb (r =? 0)%Z then (cv, None)
  else ({| types := m; type_alias := type_alias cv |}, Some t).

(** [css_get_value_type(type_name)]. *)
Definition css_get_value_type (cv : css_value_module_t) (type_name : string)
  : option css_value_type_record_t :=
  types cv !! type_name.

(** [css_register_value_type_alias(type_name, alias)]:
    [if (css_get_keyword_key(alias)) return -1;] then [dict_add]. *)
Definition css_register_value_type_alias (st : css_module_t) (cv : css_value_module_t)
    (type_name alias : string) : css_value_module_t * Z :=
  if negb (css_get_keyword_key st alias =? 0)%Z then (cv, (-1)%Z)
  else
    let '(m, r) := map_add (type_alias cv) alias type_name in
    ({| types := types cv; type_alias := m |}, r).

(** [css_resolve_value_type(alias)]. *)
Definition css_resolve_value_type (cv : css_value_module_t) (alias : string)
  : option string :=
  type_alias cv !! alias.

End Registry.

(* ===================================================================== *)
(** * The value-definition compilers *)
(* ===================================================================== *)

Module ValDef.
Import Registry.

(** [css_valdef_parser_target_t]. *)
Inductive css_valdef_parser_target_t :=
  | CSS_VALDEF_PARSER_TARGET_NONE
  | CSS_VALDEF_PARSER_TARGET_ERROR
  | CSS_VALDEF_PARSER_TARGET_KEYWORD
  | CSS_VALDEF_PARSER_TARGET_DATA_TYPE
  | CSS_VALDEF_PARSER_TARGET_SIGN.

(** [css_valdef_parser_t], with the fields the reachable code touches.
    [cur] is an offset into the bytes the caller's pointer gives access
    to; it is a [Z] because the code steps it back before stepping it
    forward. *)
Record css_valdef_parser_t := mk_parser {
  cur : Z;
  buffer : string;
  pos : nat;
  buffer_size : nat;
  target : css_valdef_parser_target_t
}.

(** [css_valdef_parser_create(buffer_size)]. *)
Definition css_valdef_parser_create (buffer_size : nat) : css_valdef_parser_t :=
  {| cur := 0; buffer := ""; pos := 0; buffer_size := buffer_size;
     target := CSS_VALDEF_PARSER_TARGET_NONE |}.

(** Reading [*p] in the memory [mem]: [None] outside of it. *)
Definition read (mem : list ascii) (p : Z) : option ascii :=
  if (p <? 0)%Z then None else mem !! Z.to_nat p.

Definition is_white_space (c : ascii) : bool :=
  (Ascii.eqb c " " || Ascii.eqb c "010" || Ascii.eqb c "013" || Ascii.eqb c "009")%bool.

(** [css_valdef_parser_parse_target(parser)] on the character [c = *cur]. *)
Definition css_valdef_parser_parse_target (c : ascii) (parser : css_valdef_parser_t)
  : css_valdef_parser_t * Z :=
  if (Ascii.eqb c "|" || Ascii.eqb c "&" || Ascii.eqb c "<")%bool then
    ({| cur := (cur parser - 1)%Z; buffer := ""; pos := 0;
        buffer_size := buffer_size parser;
        target := CSS_VALDEF_PARSER_TARGET_SIGN |}, 0%Z)
  else if (Ascii.eqb c ">" || Ascii.eqb c "]")%bool then
    ({| cur := cur parser; buffer := buffer parser; pos := pos parser;
        buffer_size := buffer_size parser;
        target := CSS_VALDEF_PARSER_TARGET_ERROR |}, (-1)%Z)
  else if is_white_space c then (parser, (-1)%Z)
  else
    ({| cur := (cur parser - 1)%Z; buffer := ""; pos := 0;
        buffer_size := buffer_size parser;
        target := CSS_VALDEF_PARSER_TARGET_KEYWORD |}, 0%Z).

Definition step_cur (parser : css_valdef_parser_t) : css_valdef_parser_t :=
  {| cur := (cur parser + 1)%Z; buffer := buffer parser; pos := pos parser;
     buffer_size := buffer_size parser; target := target parser |}.

(** The loop of [css_valdef_parser_parse]:
    [while ( *parser->cur && size < parser->buffer_size )].  Only the
    [TARGET_NONE] and [TARGET_ERROR] cases of the [switch] do anything;
    every other target falls to [default: break;].  [room] is
    [buffer_size - size]. *)
Fixpoint parse_loop (room : nat) (mem : list ascii) (parser : css_valdef_parser_t)
    (size : nat) : outcome (css_valdef_parser_t * nat) :=
  match read mem (cur parser) with
  | None => Fault
  | Some c =>
      if Ascii.eqb c Ascii.zero then Ret (parser, size)
      else
        match room with
        | O => Ret (parser, size)
        | S room' =>
            match target parser with
            | CSS_VALDEF_PARSER_TARGET_NONE =>
                let parser := (css_valdef_parser_parse_target c parser).1 in
                parse_loop room' mem (step_cur parser) (size + 1)
            | CSS_VALDEF_PARSER_TARGET_ERROR => Ret (parser, 0)
            | _ => parse_loop room' mem (step_cur parser) (size + 1)
            end
        end
  end.

(** [css_valdef_parser_parse(parser, str)], [str] being the offset [p]. *)
Definition css_valdef_parser_parse (mem : list ascii) (parser : css_valdef_parser_t)
    (p : Z) : outcome (css_valdef_parser_t * nat) :=
  parse_loop (buffer_size parser) mem
    {| cur := p; buffer := buffer parser; pos := pos parser;
       buffer_size := buffer_size parser; target := target parser |} 0.

(** The loop of [css_compile_valdef]:
    [for (len = 1, p = str; len > 0; p += len)].  Every round with
    [len > 0] moves [p] forward, so [fuel] rounds past the end of [mem]
    are never needed; [None] is "fuel exhausted". *)
Fixpoint compile_loop (fuel : nat) (mem : list ascii) (parser : css_valdef_parser_t)
    (p : Z) : option (outcome Z) :=
  match fuel with
  | O => None
  | S fuel' =>
      match css_valdef_parser_parse mem parser p with
      | Fault => Some Fault
      | Uninitialised => Some Uninitialised
      | Ret (parser, len) =>
          match target parser with
          | CSS_VALDEF_PARSER_TARGET_ERROR => Some (Ret (-1)%Z)
          | _ =>
              if decide (0 < len) then compile_loop fuel' mem parser (p + Z.of_nat len)%Z
              else Some (Ret 0%Z)
          end
      end
  end.

(** [css_compile_valdef(str, out_val)] on the bytes [mem] readable from
    [str] on: the returned code.  [css_valdef_parser_output] stores
    nothing. *)
Definition css_compile_valdef (mem : list ascii) : option (outcome Z) :=
  compile_loop (S (List.length mem)) mem (css_valdef_parser_create 512) 0.

(** The bytes of a C string: its characters and the terminator. *)
Definition c_string (s : string) : list ascii :=
  list_ascii_of_string s ++ [Ascii.zero].

(** The name table of [css_compile_syntax]. *)
Definition syntax_map : list string :=
  ["length"; "percentage"; "keyword"; "color"; "image"].

(** The locals of [css_compile_syntax].  [name_len] is declared without
    an initial value: [None] until the first assignment.  [name] is the
    content of [name[0 .. name_len)]. *)
Record syntax_state := mk_syntax {
  name_len : option Z;
  name : string;
  out_parsers : list string
}.

(** One round of [for (p = syntax_str; *p; ++p)] on [c = *p]: the next
    state, or the value returned.  [p == '|'] compares the pointer with
    a character constant and is false for the address of any string;
    [return NULL] in a function returning [int] gives [0]. *)
Definition syntax_char (c : ascii) (st : syntax_state) : syntax_state + outcome Z :=
  if Ascii.eqb c "<" then
    inl {| name_len := Some 0%Z; name := ""; out_parsers := out_parsers st |}
  else if negb (Ascii.eqb c ">") then
    match name_len st with
    | None => inr Uninitialised
    | Some n =>
        if (n =? -1)%Z then inl st
        else if (32 <? n mod 2 ^ 64)%Z then inr (Ret 0%Z)
        else if (n =? 32)%Z then inr Fault
        else inl {| name_len := Some (n + 1)%Z; name := name st +:+ String c "";
                    out_parsers := out_parsers st |}
    end
  else
    match name_len st with
    | None => inr Uninitialised
    | Some n =>
        if ((n <? 0) || (32 <=? n))%Z then inr Fault
        else if bool_decide (name st ∈ syntax_map) then
          if decide (8 ≤ List.length (out_parsers st)) then inr Fault
          else inl {| name_len := Some (-1)%Z; name := name st;
                      out_parsers := out_parsers st ++ [name st] |}
        else inr (Ret 0%Z)
    end.

Fixpoint syntax_loop (cs : list ascii) (st : syntax_state) : outcome (Z * list string) :=
  match cs with
  | [] => Ret (0%Z, out_parsers st)
  | c :: cs' =>
      match syntax_char c st with
      | inl st' => syntax_loop cs' st'
      | inr (Ret r) => Ret (r, out_parsers st)
      | inr Fault => Fault
      | inr Uninitialised => Uninitialised
      end
  end.

(** [css_compile_syntax(syntax_str, out)]: the returned code and the
    parsers stored in [out]. *)
Definition css_compile_syntax (syntax_str : string) : outcome (Z * list string) :=
  syntax_loop (list_ascii_of_string syntax_str)
    {| name_len := None; name := ""; out_parsers := [] |}.

End ValDef.


(* ===================================================================== *)
(** * Scenario data and specification-side definitions *)
(* ===================================================================== *)

Module Scenario.
Import Decl Selector Collector Library Registry.

(** Opaque colours, as [r, g, b, a] bytes packed into the 32-bit word. *)
Definition green : css_style_value_t :=
  {| is_valid := true; type := CSS_COLOR_VALUE; value := V_color 0xFF008000 |}.
Definition black : css_style_value_t :=
  {| is_valid := true; type := CSS_COLOR_VALUE; value := V_color 0xFF000000 |}.

(** A rule body [{ color: v }]: a fresh declaration with the colour cell
    written. *)
Definition color_declaration (st : css_module_t) (v : css_style_value_t)
  : css_style_declaration_t :=
  let ss := css_style_declaration_create (css_get_property_count st) in
  {| sheet := <[css_key_color := v]> (sheet ss); ss_length := ss_length ss |}.

(** The selector a successful parse returns (the empty selector stands
    in for the other results). *)
Definition created (r : create_result * Z) : css_selector_t :=
  match r.1 with
  | Created s => s
  | _ => {| sel_rank := 0; sel_batch_num := 0; sel_length := 0; sel_hash := 0;
            sel_nodes := [] |}
  end.

(** [section article p { color: green }], then [p { color: black }],
    added to the store of a freshly initialised library. *)
Definition descendant_store : css_module_t :=
  let r1 := css_selector_create 0 (Some "section article p") in
  let st1 := (css_add_style_sheet css_init (created r1)
                (color_declaration css_init green) None).1 in
  let r2 := css_selector_create r1.2 (Some "p") in
  (css_add_style_sheet st1 (created r2) (color_declaration st1 black) None).1.

(** The colour cell of the computed style of the selector [text]. *)
Definition computed_color (st : css_module_t) (batch : Z) (text : string)
  : option css_style_value_t :=
  match css_get_computed_style_with_cache st (created (css_selector_create batch (Some text))) with
  | Some (ss, _) => sheet ss !! css_key_color
  | None => None
  end.

(** [* { color: green }] and [* p { color: black }] in a fresh store. *)
Definition wildcard_store : css_module_t :=
  let r1 := css_selector_create 0 (Some "*") in
  let st1 := (css_add_style_sheet css_init (created r1)
                (color_declaration css_init green) None).1 in
  let r2 := css_selector_create r1.2 (Some "* p") in
  (css_add_style_sheet st1 (created r2) (color_declaration st1 black) None).1.

(** The sum of the node ranks of a selector. *)
Definition nodes_rank (s : css_selector_t) : Z :=
  foldr (fun n acc => (sn_rank n + acc)%Z) 0%Z (sel_nodes s).

End Scenario.

Module Order.
Import Decl Selector Collector Library.

(** [(r1.rank, r1.batch_num) > (r2.rank, r2.batch_num)], lexicographically. *)
Definition rule_gt (r1 r2 : css_style_rule_t) : Prop :=
  (rule_rank r2 < rule_rank r1)%Z ∨
  (rule_rank r1 = rule_rank r2 ∧ (rule_batch_num r2 < rule_batch_num r1)%Z).

Definition rule_gtb (r1 r2 : css_style_rule_t) : bool :=
  ((rule_rank r2 <? rule_rank r1)%Z ||
   ((rule_rank r1 =? rule_rank r2)%Z && (rule_batch_num r2 <? rule_batch_num r1)%Z))%bool.

(** [r1] does not come after [r2]: [r2] is not strictly greater. *)
Definition rule_ge (r1 r2 : css_style_rule_t) : Prop := ¬ rule_gt r2 r1.

(** Equal rank and batch number. *)
Definition same_key (r1 r2 : css_style_rule_t) : bool :=
  ((rule_rank r1 =? rule_rank r2)%Z && (rule_batch_num r1 =? rule_batch_num r2)%Z)%bool.

(** Insertion as the spec words it: before the first entry that is
    strictly smaller, after every entry that is greater or equal. *)
Fixpoint sorted_insert (r : css_style_rule_t) (out : list css_style_rule_t)
  : list css_style_rule_t :=
  match out with
  | [] => [r]
  | e :: out' => if rule_gtb r e then r :: e :: out' else e :: sorted_insert r out'
  end.

(** The ancestor loop of [css_query_selector_from_link] with the nested
    call abstracted: [rec j parent out] stands for the call on the link
    [parent] at index [j]. *)
Section Ancestors.
Variable lks : list css_style_link_t.
Variable link : css_style_link_t.
Variable s : css_selector_t.
Variable rec : nat → css_style_link_t → list css_style_rule_t
               → list css_style_rule_t * nat.

Definition ancestor_names (j : nat) : list string :=
  match sel_nodes s !! j with
  | Some sn => (css_selector_node_get_name_list sn []).1
  | None => []
  end.

Definition visit_parent (j : nat) (acc : list css_style_rule_t * nat) (name : string)
  : list css_style_rule_t * nat :=
  match dict_fetch_value (link_parents link) name with
  | None => acc
  | Some p =>
      match lks !! p with
      | None => acc
      | Some parent => let '(l, c) := rec j parent acc.1 in (l, acc.2 + c)
      end
  end.

Fixpoint ancestors_loop (i : nat) (acc : list css_style_rule_t * nat)
  : list css_style_rule_t * nat :=
  match i with
  | O => acc
  | S j => ancestors_loop j (foldl (visit_parent j) acc (ancestor_names j))
  end.
End Ancestors.

(** The rules a query passes to [StyleLink_GetStyleSheets], in the order
    of the calls: the insertion order of the output list. *)
Fixpoint link_visits (lks : list css_style_link_t) (s : css_selector_t) (i : nat)
    (link : css_style_link_t) {struct i} : list css_style_rule_t :=
  link_styles link ++
  (fix ancestors (i : nat) : list css_style_rule_t :=
     match i with
     | O => []
     | S j =>
         flat_map (fun name =>
                     match dict_fetch_value (link_parents link) name with
                     | None => []
                     | Some p =>
                         match lks !! p with
                         | None => []
                         | Some parent => link_visits lks s j parent
                         end
                     end) (ancestor_names s j)
         ++ ancestors j
     end) i.

Definition group_visits (st : css_module_t) (group : nat) (name : option string)
    (s : css_selector_t) : list css_style_rule_t :=
  match groups st !! group with
  | None => []
  | Some groups =>
      if decide (sel_length s < 1) then []
      else
        let i := sel_length s - 1 in
        let names :=
          match name with
          | Some name => [name]
          | None =>
              match sel_nodes s !! i with
              | Some sn => (css_selector_node_get_name_list sn []).1 ++ ["*"]
              | None => ["*"]
              end
          end in
        flat_map (fun name =>
                    match dict_fetch_value groups name with
                    | None => []
                    | Some slg =>
                        flat_map (fun entry : string * nat =>
                                    match links st !! entry.2 with
                                    | None => []
                                    | Some link => link_visits (links st) s i link
                                    end) (slg_links slg)
                    end) names
  end.

Definition query_visits (st : css_module_t) (s : css_selector_t)
  : list css_style_rule_t :=
  group_visits st 0 None s.

End Order.

Module Cascade.
Import Decl Selector Collector Library Registry Scenario.

(** The first valid entry for key [k] in a property list. *)
Fixpoint first_writer (k : nat) (l : css_style_properties_t) : option css_style_value_t :=
  match l with
  | [] => None
  | p :: l' =>
      if (bool_decide (key p = k) && is_valid (style p))%bool then Some (style p)
      else first_writer k l'
  end.

(** The value the cascade assigns to key [k]: that of the first rule, in
    the order of the list, that has a valid entry for [k]. *)
Fixpoint cascaded_value (k : nat) (rules : list css_style_rule_t)
  : option css_style_value_t :=
  match rules with
  | [] => None
  | r :: rules' =>
      match first_writer k (rule_list r) with
      | Some v => Some v
      | None => cascaded_value k rules'
      end
  end.

(** The cell a copy of [v] leaves in a declaration. *)
Definition stored (v : css_style_value_t) : css_style_value_t :=
  css_unit_value_merge zero_value v.

(** The [length] a declaration of length [len] has after a property list
    has been merged: a key beyond the length moves it to [key + 1]. *)
Definition length_after (len : nat) (l : css_style_properties_t) : nat :=
  foldl (fun len p => if decide (len < key p) then key p + 1 else len) len l.

(** No entry is merged at the moment its key equals the declaration's
    length. *)
Fixpoint clear_of_boundary (len : nat) (l : css_style_properties_t) : bool :=
  match l with
  | [] => true
  | p :: l' =>
      (negb (Nat.eqb (key p) len)
       && clear_of_boundary (if decide (len < key p) then key p + 1 else len) l')%bool
  end.

Fixpoint rules_clear_of_boundary (len : nat) (rules : list css_style_rule_t) : bool :=
  match rules with
  | [] => true
  | r :: rules' =>
      (clear_of_boundary len (rule_list r)
       && rules_clear_of_boundary (length_after len (rule_list r)) rules')%bool
  end.

(** The valid cell a declaration holds at an index below its length. *)
Definition valid_cell (ss : css_style_declaration_t) (k : nat) : option css_style_value_t :=
  match sheet ss !! k with
  | Some c => if (bool_decide (k < ss_length ss) && is_valid c)%bool then Some c else None
  | None => None
  end.

Definition or_else {A : Type} (a b : option A) : option A :=
  match a with Some _ => a | None => b end.

(** C1 as the specification words it, on one query: every valid cell of
    the returned declaration is the value of the first rule of the
    query's list that sets the key. *)
Definition every_valid_cell_cascaded (st : css_module_t) (s : css_selector_t) : Prop :=
  ∀ ss st' k cell,
    css_get_computed_style_with_cache st s = Some (ss, st') →
    sheet ss !! k = Some cell → is_valid cell = true →
    ∃ v, cascaded_value k (css_query_selector st s).1 = Some v ∧ cell = stored v.

(** A store with the rule [bA { color: green }], after the computed
    style of [bA] has been asked for once. *)
Definition collision_store : css_module_t :=
  let r := css_selector_create 0 (Some "bA") in
  let st1 := (css_add_style_sheet css_init (created r)
                (color_declaration css_init green) None).1 in
  match css_get_computed_style_with_cache st1 (created r) with
  | Some (_, st2) => st2
  | None => st1
  end.

(** The selector [ab], whose hash is that of [bA]. *)
Definition colliding_selector : css_selector_t :=
  created (css_selector_create 1 (Some "ab")).

(** The declaration cached under that hash. *)
Definition collision_cached : css_style_declaration_t :=
  default (css_style_declaration_create 0)
          (cache collision_store !! sel_hash colliding_selector).

(** What [css_get_computed_style_with_cache] does by design: a cache
    entry under the selector's hash is returned as it is; otherwise the
    query's rules are merged in order into a fresh declaration, which is
    cached and returned.  In it every valid cell is the copy of the
    value of the first rule that sets its key, and every key some rule
    sets has its cell, below the length. *)
Definition cascade_result (st : css_module_t) (s : css_selector_t) : Prop :=
  let rules := (css_query_selector st s).1 in
  match cache st !! sel_hash s with
  | Some cached => css_get_computed_style_with_cache st s = Some (cached, st)
  | None =>
      ∃ ss,
        css_get_computed_style_with_cache st s
          = Some (ss, set_cache st (<[sel_hash s := ss]> (cache st))) ∧
        css_get_property_count st ≤ ss_length ss ∧
        ss_length ss ≤ List.length (sheet ss) ∧
        (∀ k cell,
           sheet ss !! k = Some cell → is_valid cell = true →
           ∃ v, cascaded_value k rules = Some v ∧ cell = stored v) ∧
        (∀ k v,
           cascaded_value k rules = Some v →
           k < ss_length ss ∧ sheet ss !! k = Some (stored v))
  end.

(** No cell at or past the length is valid. *)
Definition tail_unset (ss : css_style_declaration_t) : Prop :=
  ∀ k c, ss_length ss ≤ k → sheet ss !! k = Some c → is_valid c = false.

(** Entries for the examples on the boundary key. *)
Definition entry (k : nat) (c : Z) : css_style_property_t :=
  {| key := k;
     style := {| is_valid := true; type := CSS_COLOR_VALUE; value := V_color c |} |}.

End Cascade.

Module Names.
Import Selector Collector.

(** The names the two state levels add to a name [nm]: [nm] followed by
    every non-empty sublist of the states, each state behind a colon,
    in the order the collector emits them. *)
Fixpoint status_2_names (nm : string) (status : list string) : list string :=
  match status with
  | [] => []
  | s :: rest =>
      (nm +:+ ":" +:+ s)
        :: status_2_names (nm +:+ ":" +:+ s) rest ++ status_2_names nm rest
  end.

(** What [LEVEL_CLASS_2] adds to [nm] from the classes still ahead: every
    non-empty sublist of them, each followed by the state names. *)
Fixpoint class_2_names (status : list string) (nm : string) (classes : list string)
  : list string :=
  match classes with
  | [] => []
  | c :: rest =>
      (nm +:+ "." +:+ c)
        :: class_2_names status (nm +:+ "." +:+ c) rest
        ++ status_2_names (nm +:+ "." +:+ c) status
        ++ class_2_names status nm rest
  end.

(** What [LEVEL_CLASS] adds to [nm].  After the sublists starting with a
    class and their state names, the loop over the remaining levels
    visits [LEVEL_STATUS_2] once more with [status_i = 0], which repeats
    the state names that skip the first state. *)
Fixpoint class_names (status : list string) (nm : string) (classes : list string)
  : list string :=
  match classes with
  | [] => []
  | c :: rest =>
      (nm +:+ "." +:+ c)
        :: class_2_names status (nm +:+ "." +:+ c) rest
        ++ status_2_names (nm +:+ "." +:+ c) status
        ++ status_2_names (nm +:+ "." +:+ c) (tail status)
        ++ class_names status nm rest
  end.

(** What [LEVEL_ID] adds to [nm]. *)
Definition id_names (sn : css_selector_node_t) (nm : string) : list string :=
  match sn_id sn with
  | None => []
  | Some i =>
      (nm +:+ "#" +:+ i)
        :: class_names (sn_status sn) (nm +:+ "#" +:+ i) (sn_classes sn)
        ++ status_2_names (nm +:+ "#" +:+ i) (sn_status sn)
  end.

(** What [LEVEL_TYPE] produces. *)
Definition type_names (sn : css_selector_node_t) : list string :=
  match sn_type sn with
  | None => []
  | Some t =>
      t :: id_names sn t
        ++ class_names (sn_status sn) t (sn_classes sn)
        ++ status_2_names t (sn_status sn)
  end.

(** The whole expansion of a node, in the collector's order. *)
Definition node_names (sn : css_selector_node_t) : list string :=
  type_names sn ++ id_names sn ""
    ++ class_names (sn_status sn) "" (sn_classes sn)
    ++ status_2_names "" (sn_status sn).

(** The node of the example: [tv#m.a.b:h]. *)
Definition example_node : css_selector_node_t :=
  {| sn_id := Some "m"; sn_type := Some "tv"; sn_classes := ["a"; "b"];
     sn_status := ["h"]; sn_fullname := Some "tv#m.a.b:h"; sn_rank := 121 |}.

(** ** What each level of the collector is expected to do

    The statements the induction on the fuel goes through, one per
    level: the call [f] returns, appends the names of its level to the
    list, and hands the collector back with its level, counters and
    name restored. *)

Section Expected.
Variable node : css_selector_node_t.

Abbreviation classes := (sn_classes node).
Abbreviation status := (sn_status node).

(** What a call at [LEVEL_STATUS_2] is expected to do, for the calls
    with [status_i] at or past [b]. *)
Definition status_2_ok
    (f : css_selector_name_collector_t → list string → option collect_state)
    (b : nat) : Prop :=
  ∀ sf l,
    level sf = LEVEL_STATUS_2 → b ≤ status_i sf → status_i sf < List.length status →
    ∃ sf',
      f sf l = Some (sf', l ++ status_2_names (name sf) (drop (S (status_i sf)) status), 0%Z) ∧
      level sf' = LEVEL_STATUS_2 ∧ class_i sf' = class_i sf ∧ name sf' = name sf ∧
      status_i sf' = (if decide (S (status_i sf) < List.length status) then 0
                      else status_i sf).

(** What a call at [LEVEL_STATUS] is expected to do. *)
Definition status_ok
    (f : css_selector_name_collector_t → list string → option collect_state) : Prop :=
  ∀ sf l,
    level sf = LEVEL_STATUS → status_i sf = 0 →
    ∃ sf',
      f sf l = Some (sf', l ++ status_2_names (name sf) status, 0%Z) ∧
      level sf' = LEVEL_STATUS ∧ class_i sf' = class_i sf ∧ name sf' = name sf ∧
      status_i sf' = 0.

(** What a call at [LEVEL_CLASS_2] is expected to do, for the calls with
    [class_i] at or past [b]. *)
Definition class_2_ok
    (f : css_selector_name_collector_t → list string → option collect_state)
    (b : nat) : Prop :=
  ∀ sf l,
    level sf = LEVEL_CLASS_2 → status_i sf = 0 →
    b ≤ class_i sf → class_i sf < List.length classes →
    ∃ sf',
      f sf l = Some (sf', l ++ class_2_names status (name sf)
                                 (drop (S (class_i sf)) classes), 0%Z) ∧
      level sf' = LEVEL_CLASS_2 ∧ status_i sf' = 0 ∧ name sf' = name sf ∧
      class_i sf' = (if decide (S (class_i sf) < List.length classes) then 0
                     else class_i sf).

(** What the extra visit of [LEVEL_STATUS_2] with [status_i = 0] does. *)
Definition status_2_again_ok
    (f : css_selector_name_collector_t → list string → option collect_state) : Prop :=
  ∀ sf l,
    level sf = LEVEL_STATUS_2 → status_i sf = 0 →
    ∃ sf',
      f sf l = Some (sf', l ++ status_2_names (name sf) (tail status), 0%Z) ∧
      level sf' = LEVEL_STATUS_2 ∧ class_i sf' = class_i sf ∧ name sf' = name sf ∧
      status_i sf' = 0.

(** What a call at [LEVEL_CLASS] is expected to do. *)
Definition class_ok
    (f : css_selector_name_collector_t → list string → option collect_state) : Prop :=
  ∀ sf l,
    level sf = LEVEL_CLASS → status_i sf = 0 → class_i sf = 0 →
    ∃ sf',
      f sf l = Some (sf', l ++ class_names status (name sf) classes, 0%Z) ∧
      level sf' = LEVEL_CLASS ∧ status_i sf' = 0 ∧ class_i sf' = 0 ∧
      name sf' = name sf.

(** What a call at [LEVEL_ID] is expected to do. *)
Definition id_ok
    (f : css_selector_name_collector_t → list string → option collect_state) : Prop :=
  ∀ sf l,
    level sf = LEVEL_ID → status_i sf = 0 → class_i sf = 0 →
    ∃ sf',
      f sf l = Some (sf', l ++ id_names node (name sf), 0%Z) ∧
      level sf' = LEVEL_ID ∧ status_i sf' = 0 ∧ class_i sf' = 0 ∧
      name sf' = name sf.

(** What a call at [LEVEL_TYPE] is expected to do, from the empty name. *)
Definition type_ok
    (f : css_selector_name_collector_t → list string → option collect_state) : Prop :=
  ∀ sf l,
    level sf = LEVEL_TYPE → status_i sf = 0 → class_i sf = 0 → name sf = "" →
    ∃ sf',
      f sf l = Some (sf', l ++ type_names node, 0%Z) ∧
      level sf' = LEVEL_TYPE ∧ status_i sf' = 0 ∧ class_i sf' = 0 ∧
      name sf' = "".

End Expected.

(** The longest name the collector writes for a node is the one made
    of all its parts.  With its terminator it has to fit
    [name[MAX_NAME_LEN]]: the collector copies with [strcpy] and tests no
    length, so a longer name is written past the buffer.  The statements
    about the expansion are made for the nodes that fit. *)
Definition fits_name_buffer (sn : css_selector_node_t) : Prop :=
  String.length (node_fullname (sn_type sn) (sn_id sn) (sn_classes sn) (sn_status sn))
    < MAX_NAME_LEN.

(** Every generated name other than the bare type holds one of the
    separators. *)
Definition has_separator (n : string) : Prop :=
  ∃ (p r : string) (sep : ascii),
    n = p +:+ String sep r ∧ (sep = "#" ∨ sep = "." ∨ sep = ":")%char.

End Names.
(* ===================================================================== *)
(** * Further definitions: declarations and property lists *)
(* ===================================================================== *)

Module Declarations.
Import Decl Selector Library Cascade.

(** The allocation of a declaration holds the [length] cells the code
    addresses through [sheet[i]], [i < length]. *)
Definition decl_wf (ss : css_style_declaration_t) : Prop :=
  ss_length ss ≤ List.length (sheet ss).

(** The number of valid cells below the length. *)
Definition valid_count (ss : css_style_declaration_t) : nat :=
  List.length (filter (fun c => is_valid c = true) (take (ss_length ss) (sheet ss))).

(** [css_style_properties_find(list, key)]: the first entry with the key. *)
Fixpoint css_style_properties_find (l : css_style_properties_t) (k : nat)
  : option css_style_property_t :=
  match l with
  | [] => None
  | snode :: l' =>
      if Nat.eqb (key snode) k then Some snode else css_style_properties_find l' k
  end.

(** [css_style_properties_remove(list, key)]: the first entry with the
    key is unlinked and [0] is returned; [-1] when there is none. *)
Fixpoint css_style_properties_remove (l : css_style_properties_t) (k : nat)
  : css_style_properties_t * Z :=
  match l with
  | [] => ([], (-1)%Z)
  | snode :: l' =>
      if Nat.eqb (key snode) k then (l', 0%Z)
      else let '(r, c) := css_style_properties_remove l' k in (snode :: r, c)
  end.

(** The entries [css_style_properties_merge] appends for the cells
    [cells], the first of which has index [i]: one per valid cell below
    [len], in index order. *)
Fixpoint entries_from (i : nat) (cells : list css_style_value_t) (len : nat)
  : css_style_properties_t :=
  match cells with
  | [] => []
  | c :: cells' =>
      if decide (i < len) then
        (if is_valid c then [ {| key := i; style := stored c |} ] else [])
        ++ entries_from (S i) cells' len
      else []
  end.

(** A declaration with two of its three cells written, and one with a
    cell written past them. *)
Definition sample_declaration : css_style_declaration_t :=
  {| sheet := [ Scenario.green; zero_value; Scenario.black; zero_value ];
     ss_length := 3 |}.

Definition other_declaration : css_style_declaration_t :=
  {| sheet := [ Scenario.black; Scenario.black; zero_value; zero_value;
                Scenario.green; zero_value ];
     ss_length := 5 |}.

(** A property list that names key 5 twice, and the declaration a
    fresh two-cell declaration becomes when it is merged. *)
Definition sample_entries : css_style_properties_t :=
  [ entry 5 1; entry 0 2; entry 5 3; {| key := 7; style := zero_value |} ].

Definition merged_sample : css_style_declaration_t :=
  match css_style_declaration_merge_properties
          (css_style_declaration_create 2) sample_entries with
  | Some r => r.1
  | None => css_style_declaration_create 2
  end.

(** The selector [p] and what the cache routine returns for it on the
    store of the descendant scenario. *)
Definition paragraph : css_selector_t :=
  Scenario.created (css_selector_create 2 (Some "p")).

Definition paragraph_style : css_style_declaration_t * css_module_t :=
  match css_get_computed_style_with_cache Scenario.descendant_store paragraph with
  | Some r => r
  | None => (css_style_declaration_create 0, Scenario.descendant_store)
  end.

End Declarations.

(* ===================================================================== *)
(** * Further definitions: matching and duplicating selectors *)
(* ===================================================================== *)

Module Matching.
Import Selector Registry.

(** The inner loop of [css_selector_node_match],
    [for (j = 0; sn1[j]; ++j)], for the entry [x = sn2[i]]; [js] are the
    entries of [sn1] from [j] on.  Every round compares [x] with
    [sn1[i]], not with [sn1[j]]; at [i = length] that is the terminating
    NULL, which [strcmp] dereferences, and past it the array has ended.
    The result is [true] for [j == -1]. *)
Fixpoint match_inner (x : string) (l1 : list string) (i : nat) (js : list string)
  : outcome bool :=
  match js with
  | [] => Ret false
  | _ :: js' =>
      match l1 !! i with
      | None => Fault
      | Some y => if String.eqb x y then Ret true else match_inner x l1 i js'
      end
  end.

(** The outer loop [for (i = 0; sn2[i]; ++i)], from index [i] on. *)
Fixpoint match_list (l1 : list string) (i : nat) (l2 : list string) : outcome bool :=
  match l2 with
  | [] => Ret true
  | x :: l2' =>
      match match_inner x l1 i l1 with
      | Ret true => match_list l1 (S i) l2'
      | Ret false => Ret false
      | Fault => Fault
      | Uninitialised => Uninitialised
      end
  end.

(** The test on the id: [sn2->id] absent, or equal to [sn1->id]. *)
Definition id_matches (sn1 sn2 : css_selector_node_t) : bool :=
  match sn_id sn2 with
  | None => true
  | Some i2 => match sn_id sn1 with
               | None => false
               | Some i1 => String.eqb i1 i2
               end
  end.

(** The test on the type: [sn2->type] absent or ["*"], or equal to
    [sn1->type]. *)
Definition type_matches (sn1 sn2 : css_selector_node_t) : bool :=
  match sn_type sn2 with
  | None => true
  | Some t2 =>
      if String.eqb t2 "*" then true
      else match sn_type sn1 with
           | None => false
           | Some t1 => String.eqb t1 t2
           end
  end.

(** [css_selector_node_match(sn1, sn2)]. *)
Definition css_selector_node_match (sn1 sn2 : css_selector_node_t) : outcome bool :=
  if negb (id_matches sn1 sn2) then Ret false
  else if negb (type_matches sn1 sn2) then Ret false
  else
    match match_list (sn_classes sn1) 0 (sn_classes sn2) with
    | Ret true => match_list (sn_status sn1) 0 (sn_status sn2)
    | r => r
    end.

(** [css_selector_duplicate(selector)], next to the static counter of
    [css_selector_create], which the call [css_selector_create(NULL)]
    advances.  [None] stands for reading [selector->nodes[i]] past the
    nodes the selector holds. *)
Definition css_selector_duplicate (batch_num : Z) (selector : css_selector_t)
  : option css_selector_t * Z :=
  let batch := (css_selector_create batch_num None).2 in
  if decide (sel_length selector ≤ List.length (sel_nodes selector)) then
    (Some {| sel_rank := sel_rank selector;
             sel_batch_num := sel_batch_num selector;
             sel_length := sel_length selector;
             sel_hash := sel_hash selector;
             sel_nodes := map css_selector_node_copy
                              (take (sel_length selector) (sel_nodes selector)) |},
     batch)
  else (None, batch).

(** The concatenation of the full names of a selector's nodes. *)
Definition names_concat (s : css_selector_t) : string :=
  foldr (fun n acc => name_of n +:+ acc) "" (take (sel_length s) (sel_nodes s)).

(** The node has at least one part. *)
Definition has_part (n : css_selector_node_t) : Prop :=
  is_Some (sn_type n) ∨ is_Some (sn_id n) ∨ sn_classes n ≠ [] ∨ sn_status n ≠ [].

(** The node is as [css_selector_node_update] leaves it: the rank is the
    specificity of its parts and the full name is their concatenation. *)
Definition up_to_date (n : css_selector_node_t) : Prop :=
  sn_rank n = node_rank (sn_type n) (sn_id n) (sn_classes n) (sn_status n) ∧
  sn_fullname n = Some (node_fullname (sn_type n) (sn_id n) (sn_classes n) (sn_status n)).

(** The characters [css_selector_create] gives a meaning to. *)
Definition is_selector_char (c : ascii) : bool :=
  (Ascii.eqb c ":" || Ascii.eqb c "." || Ascii.eqb c "#"
   || is_white_space c || is_name_char c)%bool.

(** The specificity of the parts of the node under construction. *)
Definition pending_rank (st : parser_t) : Z :=
  match p_node st with
  | Some n => node_rank (sn_type n) (sn_id n) (sn_classes n) (sn_status n)
  | None => 0%Z
  end.

(** The sum of the ranks of a list of nodes. *)
Definition ranks (nodes : list css_selector_node_t) : Z :=
  foldr (fun n acc => (sn_rank n + acc)%Z) 0%Z nodes.

(** What the scanning loop of [css_selector_create] keeps true: the
    finished nodes are up to date and not empty, their ranks and the
    parts saved in the node under construction are accounted for in the
    running rank, and a node is under construction only while there is
    room for it. *)
Definition parser_inv (st : parser_t) : Prop :=
  Forall (fun n => up_to_date n ∧ has_part n) (p_nodes st) ∧
  (ranks (p_nodes st) + pending_rank st ≤ p_rank st)%Z ∧
  List.length (p_nodes st) ≤ CSS_SELECTOR_MAX_DEPTH ∧
  (is_Some (p_node st) → List.length (p_nodes st) < CSS_SELECTOR_MAX_DEPTH).

(** Two selectors, [a b] and [ab], and a longer one. *)
Definition two_nodes : css_selector_t :=
  Scenario.created (css_selector_create 0 (Some "a b")).
Definition one_node : css_selector_t :=
  Scenario.created (css_selector_create 0 (Some "ab")).

Definition long_selector : css_selector_t :=
  Scenario.created
    (css_selector_create 0 (Some "section.main article#top  p.a.b:hover:focus")).

End Matching.

(* ===================================================================== *)
(** * Further definitions: the expansion as a set *)
(* ===================================================================== *)

Module Selections.
Import Selector Collector Names.

(** A choice of parts of the node [sn]: its type or none, its id or
    none, some of its classes and some of its states in their stored
    order, and at least one part in all. *)
Definition selection (sn : css_selector_node_t) (ot oi : option string)
    (cs ss : list string) : Prop :=
  (ot = None ∨ ot = sn_type sn) ∧ (oi = None ∨ oi = sn_id sn) ∧
  sublist cs (sn_classes sn) ∧ sublist ss (sn_status sn) ∧
  (is_Some ot ∨ is_Some oi ∨ cs ≠ [] ∨ ss ≠ []).

(** A node with one class and two states. *)
Definition hovered_button : css_selector_node_t :=
  {| sn_id := None; sn_type := Some "button"; sn_classes := ["primary"];
     sn_status := ["focus"; "hover"]; sn_fullname := Some "button.primary:focus:hover";
     sn_rank := 31 |}.

End Selections.

(* ===================================================================== *)
(** * Further definitions: sample rules *)
(* ===================================================================== *)

Module Samples.
Import Decl Selector Library Scenario Cascade.

(** The link the rule [p { color: black }] is stored in, and a sorted
    list of two rules. *)
Definition paragraph_link : css_style_link_t :=
  default {| link_selector := ""; link_group := (0, ""); link_styles := [];
             link_parents := [] |}
          (links descendant_store !! 0).

Definition two_rules : list css_style_rule_t :=
  [ {| rule_rank := 100; rule_batch_num := 7; rule_space := None;
       rule_selector := "#a"; rule_list := [] |};
    {| rule_rank := 1; rule_batch_num := 9; rule_space := None;
       rule_selector := "b"; rule_list := [] |} ].

End Samples.

(* ===================================================================== *)
(** * Further definitions: value-definition strings *)
(* ===================================================================== *)

Module Strings.
Import Registry ValDef.

(** The first character of a string that is not white space. *)
Fixpoint first_non_blank (cs : list ascii) : option ascii :=
  match cs with
  | [] => None
  | c :: cs' => if is_white_space c then first_non_blank cs' else Some c
  end.

(** The characters [css_valdef_parser_parse_target] answers with an
    error. *)
Definition closes (c : ascii) : bool :=
  (Ascii.eqb c ">" || Ascii.eqb c "]")%bool.

(** The string holds no NUL character: it is a C string. *)
Definition c_text (s : string) : Prop :=
  Forall (fun c => c ≠ Ascii.zero) (list_ascii_of_string s).

(** A syntax made of type names in angle brackets, each followed by
    [sep]. *)
Definition bracketed (sep : string) (ts : list string) : string :=
  foldr (fun t acc => "<" +:+ t +:+ ">" +:+ sep +:+ acc) "" ts.

End Strings.

(* ===================================================================== *)
(** * Further definitions: the shape of the rule store *)
(* ===================================================================== *)

Module Store.
Import Decl Selector Collector Library.

(** The text [css_select_style_properties] holds in [buf] once it has
    passed the link: the name of the link's group at depth 0, and the
    name followed by the link's own key below. *)
Definition link_text (l : css_style_link_t) : string :=
  if decide ((link_group l).1 = 0) then (link_group l).2
  else (link_group l).2 +:+ " " +:+ link_selector l.

(** At depth [d] the group named [nm] files the link [p] under [key]. *)
Definition group_entry (st : css_module_t) (d : nat) (nm key : string) (p : nat)
  : Prop :=
  ∃ grp slg,
    groups st !! d = Some grp ∧ dict_fetch_value grp nm = Some slg ∧
    dict_fetch_value (slg_links slg) key = Some p.

(** The link [p] has the link [q] as its parent under the name [a]. *)
Definition parent_entry (st : css_module_t) (p : nat) (a : string) (q : nat) : Prop :=
  ∃ l, links st !! p = Some l ∧ dict_fetch_value (link_parents l) a = Some q.

(** The pointers of the store agree: a link filed in a group exists and
    points back to that group and key, and a parent of a link is the
    link the next depth files under the parent's name and the link's
    text. *)
Definition store_ok (st : css_module_t) : Prop :=
  (∀ d nm key p,
     group_entry st d nm key p →
     ∃ l, links st !! p = Some l ∧ link_group l = (d, nm) ∧ link_selector l = key) ∧
  (∀ p l a q,
     links st !! p = Some l → dict_fetch_value (link_parents l) a = Some q →
     group_entry st (S (link_group l).1) a (link_text l) q).

(** The selector is a list of finished nodes: [length] of them, each
    with its parts, rank and full name in step. *)
Definition selector_ok (s : css_selector_t) : Prop :=
  sel_length s = List.length (sel_nodes s) ∧
  Forall (fun n => Matching.up_to_date n ∧ Matching.has_part n) (sel_nodes s).

(** The text [css_select_style_properties] has in [buf] when its loop
    ends: the full names of the nodes, left to right, with a space
    between them. *)
Fixpoint selector_text (nodes : list css_selector_node_t) : string :=
  match nodes with
  | [] => ""
  | n :: rest =>
      match rest with
      | [] => name_of n
      | _ :: _ => name_of n +:+ " " +:+ selector_text rest
      end
  end.

(** The selector fits the scratch buffers of the code: the names of each
    node fit [name[MAX_NAME_LEN]] of the collector, and the text of the
    selector fits [buf] and [fullname] of
    [css_select_style_properties], [CSS_SELECTOR_MAX_LEN] bytes each.
    The code copies with [strcpy] and [sprintf] and tests no length, so
    a longer selector is written past them. *)
Definition selector_fits (s : css_selector_t) : Prop :=
  Forall Names.fits_name_buffer (sel_nodes s) ∧
  String.length (selector_text (sel_nodes s)) < CSS_SELECTOR_MAX_LEN.

(** What holds when [css_select_style_properties] enters the round at
    depth [i]: the store is in order, the groups reach depth [i], and
    past the first round [link] and [parents] are the link of the
    round before, whose text is in [buf]. *)
Definition select_inv (i : nat) (ss : select_state) : Prop :=
  store_ok (sel_css ss) ∧ i ≤ List.length (groups (sel_css ss)) ∧
  sel_parents ss = sel_link ss ∧
  match sel_link ss with
  | None => i = 0
  | Some p =>
      ∃ l, links (sel_css ss) !! p = Some l ∧ i = S (link_group l).1 ∧
           link_text l = sel_buf ss
  end.

(** The link [p] is where the node [sn] leads from [prev]: from the
    root it is filed at depth 0 under ["*"], from a link it is the
    parent under the node's name. *)
Definition step_entry (st : css_module_t) (prev : option nat)
    (sn : css_selector_node_t) (p : nat) : Prop :=
  match prev with
  | None => group_entry st 0 (name_of sn) "*" p
  | Some q => parent_entry st q (name_of sn) p
  end.

(** The nodes [rnodes], taken one after the other, lead from [prev] to
    [last]. *)
Fixpoint path (st : css_module_t) (prev : option nat)
    (rnodes : list css_selector_node_t) (last : option nat) : Prop :=
  match rnodes with
  | [] => prev = last
  | sn :: rest => ∃ p, step_entry st prev sn p ∧ path st (Some p) rest last
  end.

(** What of a link places it in the store: its key, its group and its
    parents. *)
Definition shape (l : css_style_link_t) : string * (nat * string) * dict nat :=
  (link_selector l, link_group l, link_parents l).

(** Two states that differ in the rules of their links only. *)
Definition same_shape (st st' : css_module_t) : Prop :=
  groups st' = groups st ∧ shape <$> links st' = shape <$> links st.

End Store.
(* ===================================================================== *)
(** * Properties of the registries and of the declaration constructor *)
(* ===================================================================== *)

Module RegistryFacts.
Import Decl Selector Library Registry ValDef.

(** [CSS_NO_VALUE] is the enumerator a zeroed tag reads as. *)
Lemma no_value_is_zero (t : css_style_value_type_t) :
  type_code t = 0%Z ↔ t = CSS_NO_VALUE.
Proof. split; [by destruct t | by intros ->]. Qed.

Lemma zero_value_unset :
  is_valid zero_value = false ∧ type zero_value = CSS_NO_VALUE.
Proof. done. Qed.

(** C10.  A declaration returned by [css_style_declaration_create] has
    [length] equal to the current property count, and every cell at an
    index from [0] up to and including [length] exists in the allocation
    and is unset: not valid, with the tag [CSS_NO_VALUE]. *)
Theorem style_declaration_create_unset (st : css_module_t) (i : nat) :
  i ≤ css_get_property_count st →
  let ss := css_style_declaration_create (css_get_property_count st) in
  ss_length ss = css_get_property_count st ∧
  ∃ cell, sheet ss !! i = Some cell ∧
          is_valid cell = false ∧ type cell = CSS_NO_VALUE.
Proof.
  intros Hi ss. split; [reflexivity|].
  exists zero_value. split; [|exact zero_value_unset].
  subst ss. unfold css_style_declaration_create; simpl.
  apply lookup_replicate_2. lia.
Qed.

Lemma style_declaration_create_unset_witness :
  STYLE_KEY_TOTAL ≤ css_get_property_count css_init ∧
  ss_length (css_style_declaration_create (css_get_property_count css_init))
    = css_get_property_count css_init ∧
  ∃ cell, sheet (css_style_declaration_create (css_get_property_count css_init))
            !! STYLE_KEY_TOTAL = Some cell ∧
          is_valid cell = false ∧ type cell = CSS_NO_VALUE.
Proof.
  split; [vm_compute; lia|].
  apply (style_declaration_create_unset css_init STYLE_KEY_TOTAL).
  vm_compute; lia.
Defined.

(** The key lookup yields a non-zero value exactly when the name is
    absent or registered under a non-zero key. *)
Lemma keyword_key_nonzero (st : css_module_t) (alias : string) :
  css_get_keyword_key st alias ≠ 0%Z ↔
  (keywords st !! alias = None ∨
   ∃ kw, keywords st !! alias = Some kw ∧ kw_key kw ≠ 0%Z).
Proof.
  unfold css_get_keyword_key. destruct (keywords st !! alias) as [kw|] eqn:E.
  - split.
    + intros H. right. by exists kw.
    + intros [H | (kw' & H1 & H2)]; [done | congruence].
  - split; [by left | done].
Qed.

(** C9.  When the alias is not a registered keyword name (the lookup
    gives the sentinel [-1]) or is registered with a non-zero key,
    [css_register_value_type_alias] returns [-1] and the alias table is
    what it was. *)
Theorem register_value_type_alias_rejects (st : css_module_t)
    (cv : css_value_module_t) (type_name alias : string) :
  (keywords st !! alias = None ∨
   ∃ kw, keywords st !! alias = Some kw ∧ kw_key kw ≠ 0%Z) →
  css_get_keyword_key st alias ≠ 0%Z ∧
  css_register_value_type_alias st cv type_name alias = (cv, (-1)%Z) ∧
  type_alias (css_register_value_type_alias st cv type_name alias).1 = type_alias cv.
Proof.
  intros H. apply keyword_key_nonzero in H.
  unfold css_register_value_type_alias.
  destruct (Z.eqb_spec (css_get_keyword_key st alias) 0) as [E|E]; [done|].
  simpl. done.
Qed.

Lemma register_value_type_alias_rejects_witness :
  css_get_keyword_key css_init "auto" ≠ 0%Z ∧
  css_register_value_type_alias css_init {| types := ∅; type_alias := ∅ |}
    "length" "auto" = ({| types := ∅; type_alias := ∅ |}, (-1)%Z) ∧
  type_alias (css_register_value_type_alias css_init
                {| types := ∅; type_alias := ∅ |} "length" "auto").1 = ∅.
Proof.
  apply (register_value_type_alias_rejects css_init
           {| types := ∅; type_alias := ∅ |} "length" "auto").
  right. exists {| kw_key := 1; kw_name := "auto" |}.
  split; [by vm_compute | simpl; lia].
Defined.

(** The other direction: an alias is handed to [dict_add] only when it
    is a keyword registered under key [0]. *)
Lemma register_value_type_alias_accepts (st : css_module_t)
    (cv : css_value_module_t) (type_name alias : string) :
  (css_register_value_type_alias st cv type_name alias).2 = 0%Z →
  ∃ kw, keywords st !! alias = Some kw ∧ kw_key kw = 0%Z.
Proof.
  unfold css_register_value_type_alias, css_get_keyword_key.
  destruct (keywords st !! alias) as [kw|] eqn:E; simpl.
  - destruct (Z.eqb_spec (kw_key kw) 0); simpl; [by eauto | done].
  - done.
Qed.

Example alias_unknown_name :
  css_register_value_type_alias css_init {| types := ∅; type_alias := ∅ |}
    "length" "len" = ({| types := ∅; type_alias := ∅ |}, (-1)%Z).
Proof. by vm_compute. Qed.

Example alias_none_accepted :
  (css_register_value_type_alias css_init {| types := ∅; type_alias := ∅ |}
     "length" "none").2 = 0%Z.
Proof. by vm_compute. Qed.

(** Whatever the state and the arguments, a registration whose
    allocations succeed returns [-1], and it leaves the name table, the
    count and every lookup by key as they were. *)
Lemma register_property_with_key_returns_error (st : css_module_t) (key : nat)
    (name syntax initial_value : string) :
  ∃ st', css_register_property_with_key st true true key name syntax initial_value
           = Ret ((-1)%Z, st') ∧
         property_map st' = property_map st ∧ count st' = count st.
Proof.
  unfold css_register_property_with_key.
  destruct (decide (properties_length st ≤ key)); eauto.
Qed.

(** A failed allocation of the definition leads to a write through
    NULL; there is no input on which a key is returned. *)
Lemma register_property_never_succeeds (st : css_module_t) (props_ok prop_ok : bool)
    (key : nat) (name syntax initial_value : string) (k : Z) (st' : css_module_t) :
  css_register_property_with_key st props_ok prop_ok key name syntax initial_value
    = Ret (k, st') → k = (-1)%Z.
Proof.
  unfold css_register_property_with_key.
  destruct (decide (properties_length st ≤ key)), props_ok, prop_ok; congruence.
Qed.

(** C6, evaluated on the first registration after start-up: the call
    returns [-1] instead of the key [0], nothing is recorded under the
    name, the property count is unchanged and the lookup by key [0]
    finds nothing. *)
Theorem register_property_first_call :
  ∃ st', css_register_property css_init true true
           "width" "auto | <length> | <percentage>" "auto" = Ret ((-1)%Z, st') ∧
         property_map st' !! "width" = None ∧
         css_get_property_by_key st' 0 = None ∧
         css_get_property_count st' = css_get_property_count css_init.
Proof.
  exists css_init. split_and!; vm_compute; reflexivity.
Qed.

(** C8, evaluated.  On ["auto | <nonsense>"] the state machine of
    [css_compile_valdef] never leaves [TARGET_KEYWORD]: the scan returns
    the string's length plus one, and the driver resumes one byte past
    the terminator.  With nothing readable there the access is outside
    the string; with a zero byte there the function returns [0].  The
    type registry is not consulted on either path.  The older
    [css_compile_syntax] reads [name_len] before assigning it on this
    input, and answers [0] for an unknown type name in brackets. *)
Theorem compile_valdef_unknown_type :
  css_compile_valdef (c_string "auto | <nonsense>") = Some Fault ∧
  css_compile_valdef (c_string "auto | <nonsense>" ++ [Ascii.zero]) = Some (Ret 0%Z) ∧
  css_compile_valdef (c_string "auto | <length> | <percentage>") = Some Fault ∧
  css_compile_syntax "auto | <nonsense>" = Uninitialised ∧
  css_compile_syntax "<nonsense>" = Ret (0%Z, []).
Proof. split_and!; vm_compute; reflexivity. Qed.

End RegistryFacts.
Module StoreFacts.
Import Decl Selector Collector Library Registry.

Lemma select_step_cache (i : nat) (sn : css_selector_node_t) (ss : select_state) :
  cache (sel_css (select_step i sn ss)) = cache (sel_css ss).
Proof.
  unfold select_step. repeat case_match; reflexivity.
Qed.

Lemma select_loop_cache (rnodes : list css_selector_node_t) (i : nat) (ss : select_state) :
  cache (sel_css (select_loop i rnodes ss)) = cache (sel_css ss).
Proof.
  revert i ss. induction rnodes as [|sn rnodes IH]; intros i ss; simpl; [done|].
  rewrite IH. apply select_step_cache.
Qed.

Lemma select_style_properties_cache (st : css_module_t) (selector : css_selector_t)
    (space : option string) :
  cache (css_select_style_properties st selector space).1 = cache st.
Proof.
  unfold css_select_style_properties.
  repeat case_match; simpl; by rewrite select_loop_cache.
Qed.

Lemma fill_rule_cache (st : css_module_t) (place : nat * nat)
    (style : css_style_declaration_t) :
  cache (fill_rule st place style) = cache st.
Proof. unfold fill_rule. by repeat case_match. Qed.

(** C7.  After [css_add_style_sheet] the cache holds no declaration,
    whether or not the selector led to a rule; and the flush comes
    first, so the call does not depend on what the cache held. *)
Theorem add_style_sheet_empties_cache (st : css_module_t) (selector : css_selector_t)
    (style : css_style_declaration_t) (space : option string) :
  cache (css_add_style_sheet st selector style space).1 = ∅ ∧
  (∀ h : Z, cache (css_add_style_sheet st selector style space).1 !! h = None) ∧
  css_add_style_sheet st selector style space
    = css_add_style_sheet (set_cache st ∅) selector style space.
Proof.
  assert (H : cache (css_add_style_sheet st selector style space).1 = ∅).
  { unfold css_add_style_sheet.
    pose proof (select_style_properties_cache (set_cache st ∅) selector space) as Hc.
    destruct (css_select_style_properties (set_cache st ∅) selector space) as [st' [place|]];
      simpl in *; [rewrite fill_rule_cache|]; exact Hc. }
  split_and!; [exact H | intros h; rewrite H; apply lookup_empty | reflexivity].
Qed.

End StoreFacts.

Module ScenarioFacts.
Import Decl Selector Collector Library Registry Scenario.

Example scenario_selectors_parse :
  (∃ s, (css_selector_create 0 (Some "section article p")).1 = Created s ∧
        sel_length s = 3 ∧ sel_rank s = 3%Z) ∧
  (∃ s, (css_selector_create 1 (Some "p")).1 = Created s ∧
        sel_length s = 1 ∧ sel_rank s = 1%Z) ∧
  (∃ s, (css_selector_create 2 (Some "article p")).1 = Created s ∧
        sel_length s = 2 ∧ sel_rank s = 2%Z).
Proof. split_and!; eexists; (split_and!; [vm_compute; reflexivity | done | done]). Qed.

(** C3.  With [section article p { color: green }] and
    [p { color: black }] in the store, the query for
    [section article p] collects both rules, the three-node rule first,
    and the computed colour is green; the query for [article p] collects
    the rule of [p] alone and the computed colour is black.  The link of
    [p] has [article] as its only parent name, and the link behind it has
    [section] as its only one, which the chain [article p] does not
    provide. *)
Theorem descendant_query :
  map (fun r => (rule_rank r, rule_list r))
      (css_query_selector descendant_store
         (created (css_selector_create 2 (Some "section article p")))).1
    = [ (3%Z, [ {| key := css_key_color; style := green |} ]);
        (1%Z, [ {| key := css_key_color; style := black |} ]) ] ∧
  computed_color descendant_store 2 "section article p" = Some green ∧
  map (fun r => (rule_rank r, rule_list r))
      (css_query_selector descendant_store
         (created (css_selector_create 2 (Some "article p")))).1
    = [ (1%Z, [ {| key := css_key_color; style := black |} ]) ] ∧
  computed_color descendant_store 2 "article p" = Some black ∧
  map (fun l => map fst (link_parents l)) (links descendant_store)
    = [ ["article"]; ["section"]; [] ].
Proof. split_and!; vm_compute; reflexivity. Qed.

(** The wildcard is a candidate name for the target node only: the rule
    of [*] is found by the query for [div p], the rule of [* p] is not,
    because the names tried for the ancestor [div] do not include it. *)
Example wildcard_only_for_target :
  map (fun r => (rule_rank r, rule_list r))
      (css_query_selector wildcard_store
         (created (css_selector_create 2 (Some "div p")))).1
    = [ (1%Z, [ {| key := css_key_color; style := green |} ]) ].
Proof. vm_compute. reflexivity. Qed.

(** C5, evaluated on ["#a#b"]: the second id is refused, the node under
    construction is discarded, and the selector is returned without
    nodes but with the [100] the first id had contributed. *)
Theorem selector_rank_keeps_discarded_parts :
  ∃ s, css_selector_create 0 (Some "#a#b") = (Created s, 1%Z) ∧
       sel_nodes s = [] ∧ sel_length s = 0 ∧
       sel_rank s = 100%Z ∧ nodes_rank s = 0%Z ∧
       sel_rank s ≠ nodes_rank s.
Proof.
  eexists. split; [vm_compute; reflexivity|]. by split_and!.
Qed.

End ScenarioFacts.

Module OrderFacts.
Import Decl Selector Collector Library Order.

Lemma rule_gtb_spec (r1 r2 : css_style_rule_t) :
  rule_gtb r1 r2 = true ↔ rule_gt r1 r2.
Proof.
  unfold rule_gtb, rule_gt.
  rewrite orb_true_iff, andb_true_iff, Z.ltb_lt, Z.ltb_lt, Z.eqb_eq. tauto.
Qed.

Lemma rule_gtb_false (r1 r2 : css_style_rule_t) :
  rule_gtb r1 r2 = false ↔ rule_ge r2 r1.
Proof.
  unfold rule_ge. rewrite <- rule_gtb_spec. destruct (rule_gtb r1 r2); split; congruence.
Qed.

Lemma same_key_spec (r1 r2 : css_style_rule_t) :
  same_key r1 r2 = true ↔
  rule_rank r1 = rule_rank r2 ∧ rule_batch_num r1 = rule_batch_num r2.
Proof. unfold same_key. rewrite andb_true_iff, !Z.eqb_eq. tauto. Qed.

Lemma rule_gt_ge (r1 r2 : css_style_rule_t) : rule_gt r1 r2 → rule_ge r1 r2.
Proof. unfold rule_ge, rule_gt. lia. Qed.

Lemma rule_ge_trans (r1 r2 r3 : css_style_rule_t) :
  rule_ge r1 r2 → rule_ge r2 r3 → rule_ge r1 r3.
Proof. unfold rule_ge, rule_gt. lia. Qed.

(** The scan of the source and the insertion of the spec agree. *)
Lemma find_position_sorted_insert (r : css_style_rule_t) (out : list css_style_rule_t)
    (i : nat) :
  i ≤ (find_position r out i).1 ∧
  (if (find_position r out i).2
   then list_insert out ((find_position r out i).1 - i) r
   else out ++ [r]) = sorted_insert r out.
Proof.
  revert i. induction out as [|e out IH]; intros i; simpl.
  - split; [lia | reflexivity].
  - unfold rule_gtb.
    destruct (Z.ltb_spec (rule_rank e) (rule_rank r)) as [Hlt|Hge]; simpl.
    + split; [lia|]. by rewrite Nat.sub_diag.
    + destruct (Z.eqb_spec (rule_rank r) (rule_rank e)) as [Heq|Hne]; simpl.
      * destruct (Z.ltb_spec (rule_batch_num e) (rule_batch_num r)) as [Hb|Hb]; simpl.
        -- split; [lia|]. by rewrite Nat.sub_diag.
        -- destruct (IH (i + 1)) as [Hle Hins]. split; [lia|].
           destruct (find_position r out (i + 1)) as [p found]; simpl in *.
           rewrite <- Hins. destruct found; [|reflexivity].
           unfold list_insert.
           replace (p - i) with (S (p - (i + 1))) by lia. reflexivity.
      * destruct (IH (i + 1)) as [Hle Hins]. split; [lia|].
        destruct (find_position r out (i + 1)) as [p found]; simpl in *.
        rewrite <- Hins. destruct found; [|reflexivity].
        unfold list_insert.
        replace (p - i) with (S (p - (i + 1))) by lia. reflexivity.
Qed.

Lemma insert_rule_sorted_insert (out : list css_style_rule_t) (r : css_style_rule_t) :
  insert_rule out r = sorted_insert r out.
Proof.
  unfold insert_rule.
  pose proof (find_position_sorted_insert r out 0) as [_ H].
  destruct (find_position r out 0) as [p found]; simpl in H.
  by rewrite Nat.sub_0_r in H.
Qed.

Lemma sorted_insert_perm (r : css_style_rule_t) (out : list css_style_rule_t) :
  Permutation (sorted_insert r out) (r :: out).
Proof.
  induction out as [|e out IH]; simpl; [done|].
  destruct (rule_gtb r e); [done|].
  rewrite IH. apply perm_swap.
Qed.

Lemma sorted_insert_sorted (r : css_style_rule_t) (out : list css_style_rule_t) :
  StronglySorted rule_ge out → StronglySorted rule_ge (sorted_insert r out).
Proof.
  induction out as [|e out IH]; intros Hs; simpl.
  - constructor; [constructor | constructor].
  - apply StronglySorted_inv in Hs as [Hs He].
    destruct (rule_gtb r e) eqn:E.
    + apply rule_gtb_spec in E. constructor.
      * by constructor.
      * constructor; [by apply rule_gt_ge|].
        eapply Forall_impl; [exact He|]. intros x Hx.
        eapply rule_ge_trans; [apply rule_gt_ge; exact E | exact Hx].
    + apply rule_gtb_false in E. constructor; [by apply IH|].
      eapply Permutation_Forall; [symmetry; apply sorted_insert_perm|].
      by constructor.
Qed.

(** Entries that compare equal stay in arrival order: the new rule goes
    behind the entries with its own key. *)
Lemma sorted_insert_stable (x r : css_style_rule_t) (out : list css_style_rule_t) :
  StronglySorted rule_ge out →
  List.filter (same_key x) (sorted_insert r out)
    = List.filter (same_key x) out ++ List.filter (same_key x) [r].
Proof.
  induction out as [|e out IH]; intros Hs; simpl; [done|].
  apply StronglySorted_inv in Hs as [Hs He].
  destruct (rule_gtb r e) eqn:E.
  - apply rule_gtb_spec in E.
    simpl. destruct (same_key x r) eqn:Exr; [|by rewrite app_nil_r].
    apply same_key_spec in Exr.
    assert (Hnone : List.filter (same_key x) (e :: out) = []).
    { assert (Hall : Forall (fun y => same_key x y = false) (e :: out)).
      { constructor.
        - destruct (same_key x e) eqn:Exe; [|done].
          apply same_key_spec in Exe. unfold rule_gt in E. lia.
        - eapply Forall_impl; [exact He|]. intros y Hy.
          destruct (same_key x y) eqn:Exy; [|done].
          apply same_key_spec in Exy. unfold rule_ge, rule_gt in *. lia. }
      clear - Hall. induction Hall as [|y l Hy _ IHl]; simpl; [done|].
      by rewrite Hy. }
    simpl in Hnone. rewrite Hnone. reflexivity.
  - simpl. rewrite (IH Hs). simpl.
    destruct (same_key x e); reflexivity.
Qed.

Lemma foldl_insert_sorted (rs out : list css_style_rule_t) :
  StronglySorted rule_ge out → StronglySorted rule_ge (foldl insert_rule out rs).
Proof.
  revert out. induction rs as [|r rs IH]; intros out Hs; simpl; [done|].
  apply IH. rewrite insert_rule_sorted_insert. by apply sorted_insert_sorted.
Qed.

Lemma foldl_insert_perm (rs out : list css_style_rule_t) :
  Permutation (foldl insert_rule out rs) (out ++ rs).
Proof.
  revert out. induction rs as [|r rs IH]; intros out; simpl.
  - by rewrite app_nil_r.
  - rewrite IH, insert_rule_sorted_insert, sorted_insert_perm.
    simpl. apply Permutation_middle.
Qed.

Lemma foldl_insert_stable (x : css_style_rule_t) (rs out : list css_style_rule_t) :
  StronglySorted rule_ge out →
  List.filter (same_key x) (foldl insert_rule out rs)
    = List.filter (same_key x) out ++ List.filter (same_key x) rs.
Proof.
  revert out. induction rs as [|r rs IH]; intros out Hs; simpl.
  - by rewrite app_nil_r.
  - rewrite IH by (rewrite insert_rule_sorted_insert; by apply sorted_insert_sorted).
    rewrite insert_rule_sorted_insert, sorted_insert_stable by done.
    simpl. destruct (same_key x r); simpl; by rewrite <- ?app_assoc, ?app_nil_r.
Qed.

(** In a sorted list a strictly greater rule is never behind a smaller
    one. *)
Lemma sorted_precedes (out : list css_style_rule_t) (i j : nat)
    (r1 r2 : css_style_rule_t) :
  StronglySorted rule_ge out →
  out !! i = Some r1 → out !! j = Some r2 → rule_gt r1 r2 → i < j.
Proof.
  intros Hs. revert i j. induction Hs as [|e out Hs IH He]; intros i j H1 H2 Hgt.
  - done.
  - destruct i as [|i], j as [|j]; simpl in *.
    + simplify_eq. unfold rule_gt in Hgt. lia.
    + lia.
    + simplify_eq. exfalso.
      rewrite Forall_forall in He.
      assert (Hin : r1 ∈ out) by (by eapply list_elem_of_lookup_2).
      specialize (He _ Hin). unfold rule_ge in He. done.
    + apply -> Nat.succ_lt_mono. by eapply IH.
Qed.

(** ** The traversal inserts the visited rules one by one *)

Lemma from_link_unfold (lks : list css_style_link_t) (link : css_style_link_t)
    (s : css_selector_t) (i : nat) (out : list css_style_rule_t) :
  css_query_selector_from_link lks link s i out
    = ancestors_loop lks link s
        (fun j parent out => css_query_selector_from_link lks parent s j out) i
        (foldl insert_rule out (link_styles link), List.length (link_styles link)).
Proof. destruct i; reflexivity. Qed.

Lemma link_visits_unfold (lks : list css_style_link_t) (s : css_selector_t)
    (i : nat) (link : css_style_link_t) :
  link_visits lks s i link
    = link_styles link ++
      (fix ancestors (i : nat) : list css_style_rule_t :=
         match i with
         | O => []
         | S j =>
             flat_map (fun name =>
                         match dict_fetch_value (link_parents link) name with
                         | None => []
                         | Some p =>
                             match lks !! p with
                             | None => []
                             | Some parent => link_visits lks s j parent
                             end
                         end) (ancestor_names s j)
             ++ ancestors j
         end) i.
Proof. destruct i; reflexivity. Qed.

(** Folding a step that inserts the rules [g x] inserts their
    concatenation. *)
Lemma foldl_inserts {X : Type}
    (f : list css_style_rule_t * nat → X → list css_style_rule_t * nat)
    (g : X → list css_style_rule_t) (xs : list X) :
  (∀ acc x, x ∈ xs → (f acc x).1 = foldl insert_rule acc.1 (g x)) →
  ∀ acc, (foldl f acc xs).1 = foldl insert_rule acc.1 (flat_map g xs).
Proof.
  induction xs as [|x xs IH]; intros Hf acc; simpl; [done|].
  rewrite IH by (intros; apply Hf; by right).
  rewrite Hf by (by left). by rewrite foldl_app.
Qed.

Lemma from_link_visits (lks : list css_style_link_t) (s : css_selector_t) (i : nat) :
  ∀ (link : css_style_link_t) (out : list css_style_rule_t),
    (css_query_selector_from_link lks link s i out).1
      = foldl insert_rule out (link_visits lks s i link).
Proof.
  induction (lt_wf i) as [i _ IH]. intros link out.
  rewrite from_link_unfold, link_visits_unfold, foldl_app.
  change (foldl insert_rule out (link_styles link))
    with ((foldl insert_rule out (link_styles link), List.length (link_styles link)).1) at 2.
  generalize (foldl insert_rule out (link_styles link), List.length (link_styles link)) as acc.
  assert (Hle : i ≤ i) by lia. revert Hle.
  generalize i at 1 3 4 as k.
  induction k as [|j IHk]; intros Hle acc; simpl; [done|].
  rewrite IHk by lia. rewrite foldl_app. f_equal.
  apply (foldl_inserts (visit_parent lks link _ j)).
  intros acc' name _. unfold visit_parent.
  destruct (dict_fetch_value (link_parents link) name) as [p|]; [|done].
  destruct (lks !! p) as [parent|]; [|done].
  specialize (IH j ltac:(lia) parent acc'.1).
  destruct (css_query_selector_from_link lks parent s j acc'.1) as [l c]. exact IH.
Qed.

Lemma from_group_visits (st : css_module_t) (group : nat) (name : option string)
    (s : css_selector_t) (out : list css_style_rule_t) :
  (css_query_selector_from_group st group name s out).1
    = foldl insert_rule out (group_visits st group name s).
Proof.
  unfold css_query_selector_from_group, group_visits.
  destruct (groups st !! group) as [g|]; [|done].
  destruct (decide (sel_length s < 1)); [done|].
  match goal with
  | |- (let '(l, count) := foldl ?f ?a ?xs in _).1 = _ =>
      change out with (a.1) at 2;
      rewrite <- (foldl_inserts f _ xs);
      [ destruct (foldl f a xs); reflexivity |]
  end.
  intros acc nm _. simpl.
  destruct (dict_fetch_value g nm) as [slg|]; [|done].
  apply foldl_inserts. intros acc' entry _.
  destruct (links st !! entry.2) as [link|]; [|done].
  pose proof (from_link_visits (links st) s (sel_length s - 1) link acc'.1) as H.
  destruct (css_query_selector_from_link (links st) link s (sel_length s - 1) acc'.1).
  exact H.
Qed.

(** C2.  The rule list a query returns is the result of inserting the
    visited rules, in visiting order, into an empty list; it holds the
    same rules; it is sorted by rank descending and then batch number
    descending, so a rule whose [(rank, batch_num)] is lexicographically
    greater always stands before the smaller one; and the rules that
    compare equal to any given rule appear in their insertion order. *)
Theorem query_output_sorted (st : css_module_t) (s : css_selector_t) :
  let out := (css_query_selector st s).1 in
  out = foldl insert_rule [] (query_visits st s) ∧
  Permutation out (query_visits st s) ∧
  StronglySorted rule_ge out ∧
  (∀ (i j : nat) (r1 r2 : css_style_rule_t),
     out !! i = Some r1 → out !! j = Some r2 → rule_gt r1 r2 → i < j) ∧
  (∀ x : css_style_rule_t,
     List.filter (same_key x) out = List.filter (same_key x) (query_visits st s)).
Proof.
  intros out.
  assert (Hout : out = foldl insert_rule [] (query_visits st s)).
  { subst out. unfold css_query_selector, query_visits. apply from_group_visits. }
  assert (Hs : StronglySorted rule_ge out).
  { rewrite Hout. apply foldl_insert_sorted. constructor. }
  split_and!.
  - exact Hout.
  - rewrite Hout. apply (foldl_insert_perm (query_visits st s) []).
  - exact Hs.
  - intros i j r1 r2. by apply sorted_precedes.
  - intros x. rewrite Hout. by rewrite foldl_insert_stable by constructor.
Qed.

End OrderFacts.

Module CascadeFacts.
Import Decl Selector Collector Library Registry Scenario Cascade.

Lemma or_else_None_r {A : Type} (a : option A) : or_else a None = a.
Proof. by destruct a. Qed.

Lemma or_else_assoc {A : Type} (a b c : option A) :
  or_else (or_else a b) c = or_else a (or_else b c).
Proof. by destruct a. Qed.

Lemma merge_is_stored (c v : css_style_value_t) : css_unit_value_merge c v = stored v.
Proof. reflexivity. Qed.

Lemma valid_cell_Some (ss : css_style_declaration_t) (k : nat) (c : css_style_value_t) :
  valid_cell ss k = Some c ↔
  sheet ss !! k = Some c ∧ k < ss_length ss ∧ is_valid c = true.
Proof.
  unfold valid_cell. destruct (sheet ss !! k) as [c'|].
  - destruct (decide (k < ss_length ss)) as [Hk|Hk].
    + rewrite bool_decide_eq_true_2 by done. simpl.
      destruct (is_valid c') eqn:E.
      * split; [intros [= <-]; done | intros ([= <-] & _ & _); done].
      * split; [done | intros ([= <-] & _ & Hv); congruence].
    + rewrite bool_decide_eq_false_2 by done. simpl.
      split; [done | intros (_ & Hk' & _); done].
  - split; [done | intros (H & _); done].
Qed.

Lemma valid_cell_None (ss : css_style_declaration_t) (k : nat) (c : css_style_value_t) :
  valid_cell ss k = None → k < ss_length ss → sheet ss !! k = Some c →
  is_valid c = false.
Proof.
  unfold valid_cell. intros H Hk Hc. rewrite Hc in H.
  rewrite bool_decide_eq_true_2 in H by done. simpl in H.
  by destruct (is_valid c).
Qed.

Lemma grow_lookup_old (ss : css_style_declaration_t) (n k : nat) :
  ss_length ss ≤ List.length (sheet ss) → ss_length ss < n → k < ss_length ss →
  sheet (grow ss n) !! k = sheet ss !! k.
Proof.
  intros Ha Hn Hk. unfold grow; simpl.
  rewrite list_lookup_imap, lookup_resize by lia.
  destruct (sheet ss !! k); simpl; [|done].
  by rewrite decide_False by lia.
Qed.

Lemma grow_lookup_new (ss : css_style_declaration_t) (n k : nat) :
  ss_length ss ≤ k → k ≤ n →
  ∃ c, sheet (grow ss n) !! k = Some c ∧ is_valid c = false.
Proof.
  intros Hk Hn. unfold grow; simpl. rewrite list_lookup_imap.
  destruct (decide (k < List.length (sheet ss))) as [Hl|Hl].
  - rewrite lookup_resize by lia.
    destruct (lookup_lt_is_Some_2 (sheet ss) k Hl) as [c Hc]. rewrite Hc. simpl.
    rewrite decide_True by lia. by eexists.
  - rewrite lookup_resize_new by lia. simpl.
    rewrite decide_True by lia. by eexists.
Qed.

Lemma grow_lookup_beyond (ss : css_style_declaration_t) (n k : nat) :
  n < k → sheet (grow ss n) !! k = None.
Proof.
  intros Hk. unfold grow; simpl.
  rewrite list_lookup_imap, lookup_resize_old by lia. done.
Qed.

Lemma grow_alloc (ss : css_style_declaration_t) (n : nat) :
  List.length (sheet (grow ss n)) = n + 1.
Proof. unfold grow; simpl. by rewrite length_imap, length_resize. Qed.

Lemma grow_length (ss : css_style_declaration_t) (n : nat) :
  ss_length (grow ss n) = n + 1.
Proof. reflexivity. Qed.

Local Arguments grow : simpl never.

(** One entry merged away from the boundary: the call is defined, the
    length moves only for a key beyond it, and the valid cells are the
    old ones plus, possibly, the entry's. *)
Lemma merge_property_spec (ss : css_style_declaration_t) (c : Z)
    (p : css_style_property_t) :
  ss_length ss ≤ List.length (sheet ss) → key p ≠ ss_length ss →
  ∃ ss1 c1,
    merge_property (ss, c) p = Some (ss1, c1) ∧
    ss_length ss1 = (if decide (ss_length ss < key p) then key p + 1 else ss_length ss) ∧
    ss_length ss1 ≤ List.length (sheet ss1) ∧
    ∀ k, valid_cell ss1 k
         = or_else (valid_cell ss k)
             (if (bool_decide (key p = k) && is_valid (style p))%bool
              then Some (stored (style p)) else None).
Proof.
  intros Ha Hne. unfold merge_property.
  destruct (decide (ss_length ss < key p)) as [Hgt|Hle].
  - (* the declaration grows *)
    destruct (grow_lookup_new ss (key p) (key p)) as (c0 & Hc0 & Hv0); [lia..|].
    rewrite Hc0, Hv0. cbn.
    destruct (is_valid (style p)) eqn:Evp; cbn.
    + eexists _, _. split; [reflexivity|]. cbn. rewrite ?grow_length.
      split; [done|]. split; [rewrite length_insert, grow_alloc; lia|].
      intros k. unfold valid_cell at 1; cbn. rewrite ?grow_length.
      destruct (decide (key p = k)) as [<-|Hk].
      * rewrite list_lookup_insert_eq by (rewrite grow_alloc; lia).
        rewrite bool_decide_eq_true_2 by lia. cbn.
        rewrite bool_decide_eq_true_2 by done. cbn.
        unfold valid_cell. destruct (sheet ss !! key p); [|done].
        by rewrite bool_decide_eq_false_2 by lia.
      * rewrite list_lookup_insert_ne by done.
        rewrite (bool_decide_eq_false_2 (key p = k)) by done. cbn.
        rewrite or_else_None_r. unfold valid_cell.
        destruct (decide (k < ss_length ss)) as [Hlt|Hge].
        -- rewrite grow_lookup_old by lia.
           destruct (sheet ss !! k); [|done].
           by rewrite !bool_decide_eq_true_2 by lia.
        -- rewrite (bool_decide_eq_false_2 (k < ss_length ss)) by done.
           destruct (decide (k ≤ key p)) as [Hkp|Hkp].
           ++ destruct (grow_lookup_new ss (key p) k) as (c' & Hc' & Hv'); [lia..|].
              rewrite Hc', Hv'. rewrite andb_false_r.
              by destruct (sheet ss !! k).
           ++ rewrite grow_lookup_beyond by lia. by destruct (sheet ss !! k).
    + eexists _, _. split; [reflexivity|]. cbn. rewrite ?grow_length.
      split; [done|]. split; [rewrite grow_alloc; lia|].
      intros k. rewrite andb_false_r, or_else_None_r. unfold valid_cell; cbn.
      rewrite ?grow_length.
      destruct (decide (k < ss_length ss)) as [Hlt|Hge].
      * rewrite grow_lookup_old by lia.
        destruct (sheet ss !! k); [|done].
        by rewrite !bool_decide_eq_true_2 by lia.
      * rewrite (bool_decide_eq_false_2 (k < ss_length ss)) by done.
        destruct (decide (k ≤ key p)) as [Hkp|Hkp].
        -- destruct (grow_lookup_new ss (key p) k) as (c' & Hc' & Hv'); [lia..|].
           rewrite Hc', Hv'. rewrite andb_false_r.
           by destruct (sheet ss !! k).
        -- rewrite grow_lookup_beyond by lia. by destruct (sheet ss !! k).
  - (* the key is below the length *)
    assert (Hlt : key p < ss_length ss) by lia.
    destruct (lookup_lt_is_Some_2 (sheet ss) (key p)) as [c0 Hc0]; [lia|].
    rewrite Hc0.
    destruct (negb (is_valid c0) && is_valid (style p))%bool eqn:Ew.
    + apply andb_true_iff in Ew as [Ev0 Evp]. apply negb_true_iff in Ev0.
      eexists _, _. split; [reflexivity|]. cbn. rewrite ?grow_length.
      split; [done|]. split; [by rewrite length_insert|].
      intros k. unfold valid_cell at 1; cbn. rewrite ?grow_length.
      destruct (decide (key p = k)) as [<-|Hk].
      * rewrite list_lookup_insert_eq by lia.
        rewrite !bool_decide_eq_true_2 by done. cbn. rewrite Evp.
        unfold valid_cell. rewrite Hc0, Ev0. by rewrite andb_false_r.
      * rewrite list_lookup_insert_ne by done.
        rewrite (bool_decide_eq_false_2 (key p = k)) by done. cbn.
        by rewrite or_else_None_r.
    + eexists _, _. split; [reflexivity|].
      split; [done|]. split; [done|].
      intros k. destruct (decide (key p = k)) as [<-|Hk].
      * rewrite bool_decide_eq_true_2 by done. cbn.
        destruct (is_valid (style p)) eqn:Evp; [|by rewrite or_else_None_r].
        rewrite andb_true_r in Ew. apply negb_false_iff in Ew.
        unfold valid_cell. rewrite Hc0, Ew.
        by rewrite bool_decide_eq_true_2 by done.
      * rewrite (bool_decide_eq_false_2 (key p = k)) by done. cbn.
        by rewrite or_else_None_r.
Qed.

Lemma merge_property_tail (ss ss1 : css_style_declaration_t) (c c1 : Z)
    (p : css_style_property_t) :
  key p ≠ ss_length ss → tail_unset ss →
  merge_property (ss, c) p = Some (ss1, c1) → tail_unset ss1.
Proof.
  intros Hne Ht. unfold merge_property.
  destruct (decide (ss_length ss < key p)) as [Hgt|Hle].
  - (* after a growth the allocation ends at the length *)
    intros Hrun k c0 Hk Hc0. exfalso.
    apply lookup_lt_Some in Hc0.
    destruct (sheet (grow ss (key p)) !! key p) as [cell|]; [|done].
    destruct (negb (is_valid cell) && is_valid (style p))%bool; simplify_eq;
      cbn [sheet ss_length] in *; rewrite ?length_insert, ?grow_alloc, ?grow_length in *;
      lia.
  - destruct (sheet ss !! key p) as [cell|]; [|done].
    destruct (negb (is_valid cell) && is_valid (style p))%bool; intros ?; simplify_eq;
      [|done].
    intros k c0 Hk Hc0. cbn [sheet ss_length] in *.
    rewrite list_lookup_insert_ne in Hc0 by lia. by eapply Ht.
Qed.

Local Arguments merge_property : simpl never.

Lemma merge_properties_loop_spec (l : css_style_properties_t) :
  ∀ (ss : css_style_declaration_t) (c : Z),
    ss_length ss ≤ List.length (sheet ss) → tail_unset ss →
    clear_of_boundary (ss_length ss) l = true →
    ∃ ss' c',
      merge_properties_loop (ss, c) l = Some (ss', c') ∧
      ss_length ss' = length_after (ss_length ss) l ∧
      ss_length ss' ≤ List.length (sheet ss') ∧ tail_unset ss' ∧
      ∀ k, valid_cell ss' k
           = or_else (valid_cell ss k) (stored <$> first_writer k l).
Proof.
  induction l as [|p l IH]; intros ss c Ha Ht Hc; simpl in *.
  - eexists _, _. split_and!; try done. intros k. by rewrite or_else_None_r.
  - apply andb_true_iff in Hc as [Hp Hl].
    apply negb_true_iff, Nat.eqb_neq in Hp.
    destruct (merge_property_spec ss c p Ha Hp) as (ss1 & c1 & Hstep & Hlen & Ha1 & Hv1).
    pose proof (merge_property_tail ss ss1 c c1 p Hp Ht Hstep) as Ht1.
    rewrite Hstep. rewrite <- Hlen in Hl.
    destruct (IH ss1 c1 Ha1 Ht1 Hl) as (ss' & c' & Hrun & Hlen' & Ha' & Ht' & Hv').
    exists ss', c'. split_and!; try done.
    + by rewrite Hlen', Hlen.
    + intros k. rewrite Hv', Hv1, or_else_assoc. f_equal.
      by destruct (bool_decide (key p = k) && is_valid (style p))%bool.
Qed.

Lemma merge_rules_spec (rules : list css_style_rule_t) :
  ∀ ss : css_style_declaration_t,
    ss_length ss ≤ List.length (sheet ss) → tail_unset ss →
    rules_clear_of_boundary (ss_length ss) rules = true →
    ∃ ss',
      merge_rules ss rules = Some ss' ∧
      ss_length ss ≤ ss_length ss' ∧
      ss_length ss' ≤ List.length (sheet ss') ∧ tail_unset ss' ∧
      ∀ k, valid_cell ss' k
           = or_else (valid_cell ss k) (stored <$> cascaded_value k rules).
Proof.
  induction rules as [|r rules IH]; intros ss Ha Ht Hc; simpl in *.
  - eexists. split_and!; try done. intros k. by rewrite or_else_None_r.
  - apply andb_true_iff in Hc as [Hr Hrs].
    unfold css_style_declaration_merge_properties.
    destruct (merge_properties_loop_spec (rule_list r) ss 0%Z Ha Ht Hr)
      as (ss1 & c1 & -> & Hlen & Ha1 & Ht1 & Hv1).
    rewrite <- Hlen in Hrs.
    destruct (IH ss1 Ha1 Ht1 Hrs) as (ss' & Hrun & Hlen' & Ha' & Ht' & Hv').
    exists ss'. split_and!; try done.
    + assert (ss_length ss ≤ ss_length ss1); [|lia].
      rewrite Hlen. clear. generalize (ss_length ss) as n.
      induction (rule_list r) as [|p l IHl]; intros n; simpl; [done|].
      etrans; [|apply IHl]. destruct (decide (n < key p)); lia.
    + intros k. rewrite Hv', Hv1, or_else_assoc. f_equal.
      by destruct (first_writer k (rule_list r)).
Qed.

Lemma created_declaration_no_valid_cell (n k : nat) :
  valid_cell (css_style_declaration_create n) k = None.
Proof.
  unfold valid_cell, css_style_declaration_create; simpl.
  destruct (replicate (n + 1) zero_value !! k) as [c|] eqn:E; [|done].
  apply lookup_replicate in E as [-> _]. simpl. by rewrite andb_false_r.
Qed.

Lemma created_declaration_tail_unset (n : nat) :
  tail_unset (css_style_declaration_create n).
Proof.
  intros k c _ Hc. unfold css_style_declaration_create in Hc; simpl in Hc.
  by apply lookup_replicate in Hc as [-> _].
Qed.

(** First writer wins, entry by entry: a cell that is valid before an
    entry is merged is the same cell afterwards. *)
Lemma merge_property_keeps_valid_cell (ss : css_style_declaration_t) (c : Z)
    (p : css_style_property_t) (k : nat) (c0 : css_style_value_t) :
  ss_length ss ≤ List.length (sheet ss) → key p ≠ ss_length ss →
  valid_cell ss k = Some c0 →
  ∃ ss1 c1, merge_property (ss, c) p = Some (ss1, c1) ∧ valid_cell ss1 k = Some c0.
Proof.
  intros Ha Hne Hv.
  destruct (merge_property_spec ss c p Ha Hne) as (ss1 & c1 & Hrun & _ & _ & Hcells).
  exists ss1, c1. split; [done|]. by rewrite Hcells, Hv.
Qed.

(** C1, as the code has it.  Provided no entry of the query's rules is
    merged while its key equals the declaration's length:
    a cache entry under the selector's hash is returned unchanged;
    on a miss the call returns a declaration in which every valid cell
    is the copy of the value of the first rule, in query order, that has
    a valid entry for the key, every key some rule sets has its cell
    below the length (which has grown past any key beyond it), and the
    declaration is stored in the cache under the hash. *)
Theorem computed_style_cascade (st : css_module_t) (s : css_selector_t) :
  rules_clear_of_boundary (css_get_property_count st) (css_query_selector st s).1 = true →
  cascade_result st s.
Proof.
  intros Hclear. unfold cascade_result.
  unfold css_get_computed_style_with_cache.
  destruct (cache st !! sel_hash s) as [cached|]; [reflexivity|].
  set (rules := (css_query_selector st s).1) in *.
  set (ss0 := css_style_declaration_create (css_get_property_count st)).
  assert (Ha0 : ss_length ss0 ≤ List.length (sheet ss0)).
  { subst ss0. unfold css_style_declaration_create; simpl.
    rewrite length_replicate. lia. }
  destruct (merge_rules_spec rules ss0 Ha0
              (created_declaration_tail_unset _) Hclear)
    as (ss & -> & Hlen & Ha & Ht & Hcells).
  assert (Hcells' : ∀ k, valid_cell ss k = stored <$> cascaded_value k rules).
  { intros k. rewrite Hcells. subst ss0.
    by rewrite created_declaration_no_valid_cell. }
  exists ss. split_and!; [reflexivity | exact Hlen | exact Ha | |].
  - intros k cell Hcell Hv.
    assert (Hk : k < ss_length ss).
    { destruct (decide (k < ss_length ss)); [done|].
      rewrite (Ht k cell) in Hv by (done || lia). done. }
    assert (Hvc : valid_cell ss k = Some cell) by (by apply valid_cell_Some).
    rewrite Hcells' in Hvc.
    destruct (cascaded_value k rules) as [v|]; [|done].
    exists v. split; [done|]. simpl in Hvc. congruence.
  - intros k v Hv. specialize (Hcells' k). rewrite Hv in Hcells'. simpl in Hcells'.
    apply valid_cell_Some in Hcells'. tauto.
Qed.

Lemma computed_style_cascade_witness :
  rules_clear_of_boundary (css_get_property_count descendant_store)
    (css_query_selector descendant_store
       (created (css_selector_create 2 (Some "section article p")))).1 = true ∧
  cascade_result descendant_store
    (created (css_selector_create 2 (Some "section article p"))).
Proof.
  split; [vm_compute; reflexivity|].
  apply (computed_style_cascade descendant_store
           (created (css_selector_create 2 (Some "section article p")))).
  vm_compute; reflexivity.
Defined.

(** The cache is keyed by the hash alone.  [ab] and [bA] hash alike, so
    once the style of [bA] is cached the query for [ab], which no rule
    matches, is answered with the declaration of [bA] and its valid
    colour cell. *)
Lemma cached_style_of_colliding_selector :
  sel_hash colliding_selector = sel_hash (created (css_selector_create 0 (Some "bA"))) ∧
  (css_query_selector collision_store colliding_selector).1 = [] ∧
  css_get_computed_style_with_cache collision_store colliding_selector
    = Some (collision_cached, collision_store) ∧
  sheet collision_cached !! css_key_color = Some green.
Proof. split_and!; vm_compute; reflexivity. Qed.

(** C1 as worded does not hold of the colliding selector: its returned
    declaration has a valid colour cell and no rule of its query sets
    the colour. *)
Lemma cascade_claim_counterexample :
  ¬ every_valid_cell_cascaded collision_store colliding_selector.
Proof.
  intros H.
  destruct cached_style_of_colliding_selector as (_ & Hq & Hrun & Hcell).
  destruct (H _ _ _ _ Hrun Hcell eq_refl) as (v & Hv & _).
  rewrite Hq in Hv. discriminate.
Qed.

(** The boundary key.  An entry whose key equals the length is written
    without the length moving, so the cell lies outside the
    declaration. *)
Example boundary_key_is_not_grown :
  ∃ ss c, css_style_declaration_merge_properties
            (css_style_declaration_create 2) [entry 2 1] = Some (ss, c) ∧
          ss_length ss = 2 ∧ sheet ss !! 2 = Some (stored (style (entry 2 1))).
Proof. eexists _, _. split_and!; reflexivity. Qed.

(** A later growth clears that cell, and a later entry then takes it. *)
Example boundary_key_is_overwritten :
  ∃ ss c, css_style_declaration_merge_properties
            (css_style_declaration_create 2) [entry 2 1; entry 3 2; entry 2 3]
            = Some (ss, c) ∧
          sheet ss !! 2 = Some (stored (style (entry 2 3))).
Proof. eexists _, _. split_and!; reflexivity. Qed.

(** After a growth the allocation ends at the length, and an entry at
    the boundary key is written past its end. *)
Example boundary_key_outside_allocation :
  css_style_declaration_merge_properties
    (css_style_declaration_create 2) [entry 3 1; entry 4 2] = None.
Proof. reflexivity. Qed.

End CascadeFacts.

Module NamesFacts.
Import Selector Collector Names.

(** ** Strings *)

Lemma str_app_nil_l (b : string) : "" +:+ b = b.
Proof. reflexivity. Qed.

Lemma str_app_cons (x : ascii) (a b : string) : String x a +:+ b = String x (a +:+ b).
Proof. reflexivity. Qed.

Lemma str_app_assoc (a b c : string) : (a +:+ b) +:+ c = a +:+ (b +:+ c).
Proof.
  induction a as [|x a IH]; [done|]. rewrite !str_app_cons. by f_equal.
Qed.

Lemma str_app_nil_r (a : string) : a +:+ "" = a.
Proof. induction a as [|x a IH]; [done|]. rewrite str_app_cons. by f_equal. Qed.

Lemma str_app_length (a b : string) :
  String.length (a +:+ b) = String.length a + String.length b.
Proof.
  induction a as [|x a IH]; [done|]. rewrite str_app_cons. simpl. by f_equal.
Qed.

Lemma str_take_app (a b : string) : str_take (String.length a) (a +:+ b) = a.
Proof.
  induction a as [|x a IH]; [by destruct b|].
  rewrite str_app_cons. simpl. by f_equal.
Qed.

Lemma str_take_take (n m : nat) (x : string) :
  str_take n (str_take (n + m) x) = str_take n x.
Proof.
  revert x. induction n as [|n IH]; intros x; [by destruct (str_take (0 + m) x)|].
  destruct x as [|a x]; [done|]. simpl. by f_equal.
Qed.

Lemma str_take_all (a : string) : str_take (String.length a) a = a.
Proof. rewrite <- (str_app_nil_r a) at 2. apply str_take_app. Qed.

Lemma str_take_app_1 (a b : string) (x : ascii) :
  str_take (String.length a + 1) (a +:+ String x "" +:+ b) = a +:+ String x "".
Proof.
  induction a as [|y a IH]; [by destruct b|].
  rewrite !str_app_cons. simpl. by f_equal.
Qed.

Lemma drop_cons_inv {A : Type} (l : list A) (i : nat) (x : A) (xs : list A) :
  drop i l = x :: xs → drop (S i) l = xs ∧ i < List.length l.
Proof.
  revert i. induction l as [|y l IH]; intros i H.
  - by rewrite drop_nil in H.
  - destruct i as [|i]; simpl in *.
    + simplify_eq. split; [by rewrite drop_0 | lia].
    + destruct (IH i H). split; [done | lia].
Qed.

(** ** The collector computes [node_names] *)

Local Ltac fields :=
  cbn [name level class_i status_i set_name set_level set_class_i set_status_i] in *.

Section Collect.
Variable node : css_selector_node_t.

Abbreviation rec fuel := (css_selector_collect_name fuel node).
Abbreviation classes := (sn_classes node).
Abbreviation status := (sn_status node).

Lemma collect_status_2_unfold (fuel : nat) (sf : css_selector_name_collector_t)
    (l : list string) :
  level sf = LEVEL_STATUS_2 →
  css_selector_collect_name (S fuel) node sf l
    = match status with
      | [] => Some (sf, l, 0%Z)
      | _ :: _ =>
          match status_2_loop (rec fuel) (String.length (name sf)) 0
                  status (sf, l, 0%Z) with
          | None => None
          | Some (sf', l', count) =>
              Some (set_name sf' (str_take (String.length (name sf)) (name sf')), l', count)
          end
      end.
Proof.
  intros H. cbn [css_selector_collect_name]. rewrite H.
  cbn [Nat.eqb LEVEL_TYPE LEVEL_ID LEVEL_CLASS LEVEL_CLASS_2 LEVEL_STATUS LEVEL_STATUS_2].
  by destruct status.
Qed.

(** The loop of [LEVEL_STATUS_2] once the index has passed [status_i]:
    every remaining state is taken. *)
Lemma status_2_loop_run
    (f : css_selector_name_collector_t → list string → option collect_state)
    (b : nat) (nm0 : string) (sts : list string) :
  status_2_ok node f b →
  ∀ (i : nat) (sf : css_selector_name_collector_t) (l : list string) (c : Z),
    drop i status = sts → level sf = LEVEL_STATUS_2 →
    str_take (String.length nm0) (name sf) = nm0 →
    status_i sf < i → b ≤ i →
    ∃ sf',
      status_2_loop f (String.length nm0) i sts (sf, l, c)
        = Some (sf', l ++ status_2_names nm0 sts, c) ∧
      level sf' = LEVEL_STATUS_2 ∧ class_i sf' = class_i sf ∧
      str_take (String.length nm0) (name sf') = nm0 ∧
      status_i sf' = (match sts with [] => status_i sf | _ => 0 end).
Proof.
  intros Hf. induction sts as [|s sts IH]; intros i sf l c Hd Hl Hn Hi Hb.
  - exists sf. simpl. by rewrite app_nil_r.
  - destruct (drop_cons_inv _ _ _ _ Hd) as [Hd' Hlen].
    cbn [status_2_loop]. rewrite decide_False by lia. cbn zeta. fields. rewrite Hn.
    set (sf1 := set_status_i (set_name sf (nm0 +:+ ":" +:+ s)) i).
    destruct (Hf sf1 (l ++ [nm0 +:+ ":" +:+ s])) as (sf1' & -> & Hl1 & Hc1 & Hn1 & Hs1);
      [done | simpl; lia | done |].
    simpl in Hs1 |- *.
    destruct (IH (S i) (set_status_i sf1' 0) (l ++ [nm0 +:+ ":" +:+ s]
                ++ status_2_names (nm0 +:+ ":" +:+ s) (drop (S i) status)) c)
      as (sf' & Hrun & Hl' & Hc' & Hn' & Hs'); [done | done | | simpl; lia | lia |].
    { simpl. rewrite Hn1. simpl. apply str_take_app. }
    exists sf'. rewrite Z.add_0_r, <- app_assoc, Hrun. split_and!; try done.
    + by rewrite Hd', <- !app_assoc.
    + by rewrite Hc'.
    + rewrite Hs'. simpl. by destruct sts.
Qed.

(** The same loop from its start: the states up to [status_i] are
    skipped. *)
Lemma status_2_loop_skip
    (f : css_selector_name_collector_t → list string → option collect_state)
    (nm0 : string) (sts : list string) :
  ∀ (i : nat) (sf : css_selector_name_collector_t) (l : list string) (c : Z),
    status_2_ok node f (S (status_i sf)) →
    drop i status = sts → level sf = LEVEL_STATUS_2 →
    str_take (String.length nm0) (name sf) = nm0 →
    i ≤ S (status_i sf) →
    ∃ sf',
      status_2_loop f (String.length nm0) i sts (sf, l, c)
        = Some (sf', l ++ status_2_names nm0 (drop (S (status_i sf) - i) sts), c) ∧
      level sf' = LEVEL_STATUS_2 ∧ class_i sf' = class_i sf ∧
      str_take (String.length nm0) (name sf') = nm0 ∧
      status_i sf' = (if decide (S (status_i sf) < i + List.length sts) then 0
                      else status_i sf).
Proof.
  induction sts as [|s sts IH]; intros i sf l c Hf Hd Hl Hn Hi.
  - exists sf. simpl. rewrite drop_nil, app_nil_r.
    split_and!; try done. by rewrite decide_False by lia.
  - destruct (decide (i = S (status_i sf))) as [->|Hne].
    + destruct (status_2_loop_run f (S (status_i sf)) nm0 (s :: sts) Hf
                  (S (status_i sf)) sf l c Hd Hl Hn ltac:(lia) ltac:(lia))
        as (sf' & Hrun & Hl' & Hc' & Hn' & Hs').
      exists sf'. rewrite Nat.sub_diag. simpl drop. split_and!; try done.
      rewrite Hs'. simpl. by rewrite decide_True by lia.
    + destruct (drop_cons_inv _ _ _ _ Hd) as [Hd' _].
      cbn [status_2_loop]. rewrite decide_True by lia.
      destruct (IH (S i) sf l c) as (sf' & Hrun & Hl' & Hc' & Hn' & Hs');
        [done | done | done | done | lia |].
      exists sf'. rewrite Hrun. split_and!; try done.
      * replace (S (status_i sf) - i) with (S (S (status_i sf) - S i)) by lia. done.
      * rewrite Hs'. simpl. by replace (i + S (List.length sts)) with (S i + List.length sts) by lia.
Qed.

Lemma collect_status_2 (fuel : nat) :
  ∀ b, List.length status ≤ fuel + b + 1 → status_2_ok node (rec (S fuel)) b.
Proof.
  induction fuel as [|fuel IH]; intros b Hb sf l Hl Hk Hlt.
  - rewrite collect_status_2_unfold by done.
    destruct (status_2_loop_skip (rec 0) (name sf) status 0 sf l 0%Z)
      as (sf' & Hrun & Hl' & Hc' & Hn' & Hs'); try done.
    { intros sf1 l1 _ H1 H2. lia. }
    { apply str_take_all. }
    { lia. }
    rewrite Nat.sub_0_r in Hrun. rewrite Hrun.
    destruct status as [|s0 sts0]; [simpl in Hlt; lia|].
    eexists. split; [reflexivity|]. simpl. split_and!; try done.
  - rewrite collect_status_2_unfold by done.
    destruct (status_2_loop_skip (rec (S fuel)) (name sf) status 0 sf l 0%Z)
      as (sf' & Hrun & Hl' & Hc' & Hn' & Hs'); try done.
    { apply IH. lia. }
    { apply str_take_all. }
    { lia. }
    rewrite Nat.sub_0_r in Hrun. rewrite Hrun.
    destruct status as [|s0 sts0]; [simpl in Hlt; lia|].
    eexists. split; [reflexivity|]. simpl. split_and!; try done.
Qed.

(** A call at [LEVEL_STATUS_2], whatever [status_i]. *)
Lemma collect_status_2_any (fuel : nat) (sf : css_selector_name_collector_t)
    (l : list string) :
  level sf = LEVEL_STATUS_2 → List.length status ≤ fuel + status_i sf + 1 →
  ∃ sf',
    rec (S fuel) sf l
      = Some (sf', l ++ status_2_names (name sf) (drop (S (status_i sf)) status), 0%Z) ∧
    level sf' = LEVEL_STATUS_2 ∧ class_i sf' = class_i sf ∧ name sf' = name sf ∧
    status_i sf' = (if decide (S (status_i sf) < List.length status) then 0
                    else status_i sf).
Proof.
  intros Hl Hfuel.
  destruct (decide (status_i sf < List.length status)) as [Hlt|Hge].
  - by apply (collect_status_2 fuel (status_i sf)).
  - rewrite collect_status_2_unfold by done.
    destruct (status_2_loop_skip (rec fuel) (name sf) status 0 sf l 0%Z)
      as (sf' & Hrun & Hl' & Hc' & Hn' & Hs'); try done.
    { intros sf1 l1 _ H1 H2. lia. }
    { apply str_take_all. }
    { lia. }
    rewrite Nat.sub_0_r in Hrun. rewrite Hrun.
    rewrite drop_ge, app_nil_r by lia.
    rewrite decide_False by lia. simpl in Hs'. rewrite decide_False in Hs' by lia.
    rewrite drop_ge, app_nil_r in Hrun by lia.
    destruct status as [|s0 sts0].
    + exists sf. split_and!; done.
    + eexists. split; [reflexivity|]. simpl. split_and!; try done.
Qed.

Lemma collect_status_unfold (fuel : nat) (sf : css_selector_name_collector_t)
    (l : list string) :
  level sf = LEVEL_STATUS →
  css_selector_collect_name (S fuel) node sf l
    = match status with
      | [] => Some (sf, l, 0%Z)
      | _ :: _ =>
          match status_loop (rec fuel) (String.length (name sf) + 1) 0 status
                  (set_level (set_name sf (name sf +:+ ":")) LEVEL_STATUS_2, l, 0%Z) with
          | None => None
          | Some (sf', l', count) =>
              Some (set_status_i
                      (set_name (set_level sf' LEVEL_STATUS)
                                (str_take (String.length (name sf)) (name sf'))) 0,
                    l', count)
          end
      end.
Proof.
  intros H. cbn [css_selector_collect_name]. rewrite H.
  cbn [Nat.eqb LEVEL_TYPE LEVEL_ID LEVEL_CLASS LEVEL_CLASS_2 LEVEL_STATUS LEVEL_STATUS_2].
  by destruct status.
Qed.

Lemma status_loop_spec
    (f : css_selector_name_collector_t → list string → option collect_state)
    (nm0 : string) (sts : list string) :
  status_2_ok node f 0 →
  ∀ (i : nat) (sf : css_selector_name_collector_t) (l : list string) (c : Z),
    drop i status = sts → level sf = LEVEL_STATUS_2 →
    str_take (String.length nm0 + 1) (name sf) = nm0 +:+ ":" →
    ∃ sf',
      status_loop f (String.length nm0 + 1) i sts (sf, l, c)
        = Some (sf', l ++ status_2_names nm0 sts, c) ∧
      level sf' = LEVEL_STATUS_2 ∧ class_i sf' = class_i sf ∧
      str_take (String.length nm0) (name sf') = nm0.
Proof.
  intros Hf. induction sts as [|s sts IH]; intros i sf l c Hd Hl Hn.
  - exists sf. simpl. rewrite app_nil_r. split_and!; try done.
    by rewrite <- (str_take_take _ 1), Hn, str_take_app.
  - destruct (drop_cons_inv _ _ _ _ Hd) as [Hd' Hlen].
    cbn [status_loop]. cbn zeta. fields. rewrite Hn, str_app_assoc.
    set (sf1 := set_name (set_status_i sf i) (nm0 +:+ ":" +:+ s)).
    destruct (Hf sf1 (l ++ [nm0 +:+ ":" +:+ s])) as (sf1' & -> & Hl1 & Hc1 & Hn1 & Hs1);
      [done | simpl; lia | done |].
    subst sf1. fields.
    destruct (IH (S i) sf1' (l ++ [nm0 +:+ ":" +:+ s]
                ++ status_2_names (nm0 +:+ ":" +:+ s) (drop (S i) status)) c)
      as (sf' & Hrun & Hl' & Hc' & Hn'); [done | done | |].
    { rewrite Hn1. apply str_take_app_1. }
    exists sf'. rewrite Z.add_0_r, <- app_assoc, Hrun. split_and!; try done.
    + by rewrite Hd', <- !app_assoc.
    + by rewrite Hc'.
Qed.

(** A call at [LEVEL_STATUS]. *)
Lemma collect_status (fuel : nat) (sf : css_selector_name_collector_t)
    (l : list string) :
  level sf = LEVEL_STATUS → List.length status ≤ fuel →
  ∃ sf',
    rec (S fuel) sf l = Some (sf', l ++ status_2_names (name sf) status, 0%Z) ∧
    level sf' = LEVEL_STATUS ∧ class_i sf' = class_i sf ∧ name sf' = name sf ∧
    status_i sf' = (match status with [] => status_i sf | _ => 0 end).
Proof.
  intros Hl Hfuel. rewrite collect_status_unfold by done.
  destruct status as [|s0 sts0] eqn:Est.
  { exists sf. simpl. rewrite app_nil_r. done. }
  rewrite <- Est in *.
  destruct fuel as [|fuel]; [rewrite Est in Hfuel; simpl in Hfuel; lia|].
  destruct (status_loop_spec (rec (S fuel)) (name sf) status
              ltac:(apply collect_status_2; lia) 0
              (set_level (set_name sf (name sf +:+ ":")) LEVEL_STATUS_2) l 0%Z)
    as (sf' & Hrun & Hl' & Hc' & Hn'); [done | done | |].
  { fields. rewrite <- (str_app_nil_r (name sf +:+ ":")) at 1.
    rewrite str_app_assoc. apply str_take_app_1. }
  rewrite Hrun. eexists. split; [reflexivity|]. fields. done.
Qed.

Lemma collect_status_ok (fuel : nat) :
  List.length status ≤ fuel → status_ok node (rec (S fuel)).
Proof.
  intros Hfuel sf l Hl Hs.
  destruct (collect_status fuel sf l Hl Hfuel) as (sf' & Hrun & Hl' & Hc' & Hn' & Hs').
  exists sf'. split_and!; try done. rewrite Hs'. by destruct status.
Qed.

Lemma collect_class_2_unfold (fuel : nat) (sf : css_selector_name_collector_t)
    (l : list string) :
  level sf = LEVEL_CLASS_2 →
  css_selector_collect_name (S fuel) node sf l
    = match classes with
      | [] => Some (sf, l, 0%Z)
      | _ :: _ =>
          match class_2_loop (rec fuel) (String.length (name sf) + 1) 0 classes
                  (set_name sf (name sf +:+ "."), l, 0%Z) with
          | None => None
          | Some (sf', l', count) =>
              Some (set_level (set_name sf' (str_take (String.length (name sf)) (name sf')))
                              LEVEL_CLASS_2, l', count)
          end
      end.
Proof.
  intros H. cbn [css_selector_collect_name]. rewrite H.
  cbn [Nat.eqb LEVEL_TYPE LEVEL_ID LEVEL_CLASS LEVEL_CLASS_2 LEVEL_STATUS LEVEL_STATUS_2].
  by destruct classes.
Qed.

Lemma class_2_loop_run
    (f : css_selector_name_collector_t → list string → option collect_state)
    (b : nat) (nm0 : string) (cls : list string) :
  class_2_ok node f b → status_ok node f →
  ∀ (i : nat) (sf : css_selector_name_collector_t) (l : list string) (c : Z),
    drop i classes = cls → level sf = LEVEL_CLASS_2 → status_i sf = 0 →
    str_take (String.length nm0 + 1) (name sf) = nm0 +:+ "." →
    class_i sf < i → b ≤ i →
    ∃ sf',
      class_2_loop f (String.length nm0 + 1) i cls (sf, l, c)
        = Some (sf', l ++ class_2_names status nm0 cls, c) ∧
      level sf' = LEVEL_CLASS_2 ∧ status_i sf' = 0 ∧
      str_take (String.length nm0 + 1) (name sf') = nm0 +:+ "." ∧
      class_i sf' = (match cls with [] => class_i sf | _ => 0 end).
Proof.
  intros Hf Hst. induction cls as [|x cls IH]; intros i sf l c Hd Hl Hs Hn Hi Hb.
  - exists sf. simpl. by rewrite app_nil_r.
  - destruct (drop_cons_inv _ _ _ _ Hd) as [Hd' Hlen].
    cbn [class_2_loop]. rewrite decide_False by lia. cbn zeta. fields.
    rewrite Hn, str_app_assoc.
    set (sf1 := set_class_i (set_name sf (nm0 +:+ "." +:+ x)) i).
    destruct (Hf sf1 (l ++ [nm0 +:+ "." +:+ x])) as (sf1' & -> & Hl1 & Hs1 & Hn1 & Hc1);
      [done | done | simpl; lia | done |].
    subst sf1. fields.
    set (sf2 := set_level (set_class_i sf1' 0) LEVEL_STATUS).
    destruct (Hst sf2 ((l ++ [nm0 +:+ "." +:+ x])
                ++ class_2_names status (nm0 +:+ "." +:+ x) (drop (S i) classes)))
      as (sf2' & -> & Hl2 & Hc2 & Hn2 & Hs2); [done | done |].
    subst sf2. fields. rewrite Hn1 in *.
    destruct (IH (S i) (set_level sf2' LEVEL_CLASS_2)
                (((l ++ [nm0 +:+ "." +:+ x])
                  ++ class_2_names status (nm0 +:+ "." +:+ x) (drop (S i) classes))
                 ++ status_2_names (nm0 +:+ "." +:+ x) status) c)
      as (sf' & Hrun & Hl' & Hs' & Hn' & Hc'); [done | done | done | | simpl; lia | lia |].
    { fields. rewrite Hn2. apply str_take_app_1. }
    exists sf'. rewrite !Z.add_0_r, Hrun. split_and!; try done.
    + by rewrite Hd', <- !app_assoc.
    + rewrite Hc'. fields. by destruct cls.
Qed.

Lemma class_2_loop_skip
    (f : css_selector_name_collector_t → list string → option collect_state)
    (nm0 : string) (cls : list string) :
  ∀ (i : nat) (sf : css_selector_name_collector_t) (l : list string) (c : Z),
    class_2_ok node f (S (class_i sf)) → status_ok node f →
    drop i classes = cls → level sf = LEVEL_CLASS_2 → status_i sf = 0 →
    str_take (String.length nm0 + 1) (name sf) = nm0 +:+ "." →
    i ≤ S (class_i sf) →
    ∃ sf',
      class_2_loop f (String.length nm0 + 1) i cls (sf, l, c)
        = Some (sf', l ++ class_2_names status nm0 (drop (S (class_i sf) - i) cls), c) ∧
      level sf' = LEVEL_CLASS_2 ∧ status_i sf' = 0 ∧
      str_take (String.length nm0 + 1) (name sf') = nm0 +:+ "." ∧
      class_i sf' = (if decide (S (class_i sf) < i + List.length cls) then 0
                     else class_i sf).
Proof.
  induction cls as [|x cls IH]; intros i sf l c Hf Hst Hd Hl Hs Hn Hi.
  - exists sf. simpl. rewrite drop_nil, app_nil_r.
    split_and!; try done. by rewrite decide_False by lia.
  - destruct (decide (i = S (class_i sf))) as [->|Hne].
    + destruct (class_2_loop_run f (S (class_i sf)) nm0 (x :: cls) Hf Hst
                  (S (class_i sf)) sf l c Hd Hl Hs Hn ltac:(lia) ltac:(lia))
        as (sf' & Hrun & Hl' & Hs' & Hn' & Hc').
      exists sf'. rewrite Nat.sub_diag. simpl drop. split_and!; try done.
      rewrite Hc'. simpl. by rewrite decide_True by lia.
    + destruct (drop_cons_inv _ _ _ _ Hd) as [Hd' _].
      cbn [class_2_loop]. rewrite decide_True by lia.
      destruct (IH (S i) sf l c) as (sf' & Hrun & Hl' & Hs' & Hn' & Hc');
        [done | done | done | done | done | done | lia |].
      exists sf'. rewrite Hrun. split_and!; try done.
      * replace (S (class_i sf) - i) with (S (S (class_i sf) - S i)) by lia. done.
      * rewrite Hc'. simpl.
        by replace (i + S (List.length cls)) with (S i + List.length cls) by lia.
Qed.

Lemma collect_class_2 (fuel : nat) :
  ∀ b, List.length classes + List.length status ≤ fuel + b →
       class_2_ok node (rec (S fuel)) b.
Proof.
  induction fuel as [|fuel IH]; intros b Hb sf l Hl Hs Hk Hlt; [lia|].
  rewrite collect_class_2_unfold by done.
  destruct (class_2_loop_skip (rec (S fuel)) (name sf) classes 0
              (set_name sf (name sf +:+ ".")) l 0%Z)
    as (sf' & Hrun & Hl' & Hs' & Hn' & Hc'); try done.
  { fields. apply IH. lia. }
  { apply collect_status_ok. lia. }
  { fields. rewrite <- (str_app_nil_r (name sf +:+ ".")) at 1.
    rewrite str_app_assoc. apply str_take_app_1. }
  { lia. }
  fields. rewrite Nat.sub_0_r in Hrun. rewrite Hrun.
  destruct classes as [|x0 cls0]; [simpl in Hlt; lia|].
  eexists. split; [reflexivity|]. fields. split_and!; try done.
  by rewrite <- (str_take_take _ 1), Hn', str_take_app.
Qed.

Lemma collect_status_2_again_ok (fuel : nat) :
  List.length status ≤ fuel + 1 → status_2_again_ok node (rec (S fuel)).
Proof.
  intros Hfuel sf l Hl Hs.
  destruct (collect_status_2_any fuel sf l Hl ltac:(lia))
    as (sf' & Hrun & Hl' & Hc' & Hn' & Hs').
  exists sf'. rewrite Hs in *. split_and!; try done.
  rewrite Hs'. by destruct (decide (1 < List.length status)).
Qed.

(** The [while] loop of [LEVEL_CLASS], entered at [LEVEL_CLASS_2]. *)
Lemma deeper_levels_spec
    (f : css_selector_name_collector_t → list string → option collect_state)
    (n : nat) (sf : css_selector_name_collector_t) (l : list string) (c : Z) :
  class_2_ok node f 0 → status_ok node f → status_2_again_ok node f →
  level sf = LEVEL_CLASS_2 → status_i sf = 0 → class_i sf < List.length classes →
  3 ≤ n →
  ∃ sf',
    deeper_levels f n (sf, l, c)
      = Some (sf', l ++ class_2_names status (name sf) (drop (S (class_i sf)) classes)
                     ++ status_2_names (name sf) status
                     ++ status_2_names (name sf) (tail status), c) ∧
    status_i sf' = 0 ∧ name sf' = name sf.
Proof.
  intros Hc2 Hst Hs2 Hl Hs Hk Hn.
  destruct n as [|[|[|n]]]; try lia.
  cbn [deeper_levels]. rewrite Hl.
  rewrite decide_True by (unfold LEVEL_CLASS_2, LEVEL_TOTAL_NUM; lia).
  destruct (Hc2 sf l) as (sf1 & -> & Hl1 & Hs1 & Hn1 & Hc1); [done | done | lia | done |].
  cbn [deeper_levels]. fields. rewrite Hl1.
  rewrite decide_True by (unfold LEVEL_CLASS_2, LEVEL_TOTAL_NUM; lia).
  destruct (Hst (set_level sf1 (LEVEL_CLASS_2 + 1))
              (l ++ class_2_names status (name sf) (drop (S (class_i sf)) classes)))
    as (sf2 & -> & Hl2 & Hc2' & Hn2 & Hs2'); [done | done |].
  fields. rewrite Hl2.
  rewrite decide_True by (unfold LEVEL_STATUS, LEVEL_TOTAL_NUM; lia).
  destruct (Hs2 (set_level sf2 (LEVEL_STATUS + 1))
              ((l ++ class_2_names status (name sf) (drop (S (class_i sf)) classes))
               ++ status_2_names (name sf1) status))
    as (sf3 & -> & Hl3 & Hc3 & Hn3 & Hs3); [done | done |].
  fields. destruct n; cbn [deeper_levels]; fields; rewrite Hl3;
    (rewrite decide_False by (unfold LEVEL_STATUS_2, LEVEL_TOTAL_NUM; lia));
    eexists;
    (split; [rewrite !Z.add_0_r, Hn2, Hn1, <- !app_assoc; reflexivity|]);
    fields; (split; [exact Hs3 | by rewrite Hn3, Hn2, Hn1]).
Qed.

Lemma collect_class_unfold (fuel : nat) (sf : css_selector_name_collector_t)
    (l : list string) :
  level sf = LEVEL_CLASS →
  css_selector_collect_name (S fuel) node sf l
    = match classes with
      | [] => Some (sf, l, 0%Z)
      | _ :: _ =>
          match class_loop (rec fuel) fuel (String.length (name sf) + 1) 0 classes
                  (set_name sf (name sf +:+ "."), l, 0%Z) with
          | None => None
          | Some (sf', l', count) =>
              Some (set_class_i
                      (set_name (set_level sf' LEVEL_CLASS)
                                (str_take (String.length (name sf)) (name sf'))) 0,
                    l', count)
          end
      end.
Proof.
  intros H. cbn [css_selector_collect_name]. rewrite H.
  cbn [Nat.eqb LEVEL_TYPE LEVEL_ID LEVEL_CLASS LEVEL_CLASS_2 LEVEL_STATUS LEVEL_STATUS_2].
  by destruct classes.
Qed.

Lemma class_loop_spec
    (f : css_selector_name_collector_t → list string → option collect_state)
    (n : nat) (nm0 : string) (cls : list string) :
  class_2_ok node f 0 → status_ok node f → status_2_again_ok node f → 3 ≤ n →
  ∀ (i : nat) (sf : css_selector_name_collector_t) (l : list string) (c : Z),
    drop i classes = cls → level sf = LEVEL_CLASS → status_i sf = 0 →
    str_take (String.length nm0 + 1) (name sf) = nm0 +:+ "." →
    ∃ sf',
      class_loop f n (String.length nm0 + 1) i cls (sf, l, c)
        = Some (sf', l ++ class_names status nm0 cls, c) ∧
      status_i sf' = 0 ∧
      str_take (String.length nm0 + 1) (name sf') = nm0 +:+ ".".
Proof.
  intros Hc2 Hst Hs2 Hn. induction cls as [|x cls IH]; intros i sf l c Hd Hl Hs Hnm.
  - exists sf. simpl. by rewrite app_nil_r.
  - destruct (drop_cons_inv _ _ _ _ Hd) as [Hd' Hlen].
    cbn [class_loop]. cbn zeta. fields. rewrite Hnm, str_app_assoc, Hl.
    set (sf1 := set_name (set_class_i (set_level sf (LEVEL_CLASS + 1)) i)
                         (nm0 +:+ "." +:+ x)).
    destruct (deeper_levels_spec f n sf1 (l ++ [nm0 +:+ "." +:+ x]) c)
      as (sf1' & -> & Hs1 & Hn1); try done.
    subst sf1. fields.
    destruct (IH (S i) (set_level sf1' LEVEL_CLASS)
                (l ++ [nm0 +:+ "." +:+ x]
                 ++ class_2_names status (nm0 +:+ "." +:+ x) (drop (S i) classes)
                 ++ status_2_names (nm0 +:+ "." +:+ x) status
                 ++ status_2_names (nm0 +:+ "." +:+ x) (tail status)) c)
      as (sf' & Hrun & Hs' & Hn'); [done | done | done | |].
    { fields. rewrite Hn1. apply str_take_app_1. }
    exists sf'. rewrite <- app_assoc, Hrun. split_and!; try done.
    by rewrite Hd', <- !app_assoc.
Qed.

(** A call at [LEVEL_CLASS]. *)
Lemma collect_class (fuel : nat) (sf : css_selector_name_collector_t)
    (l : list string) :
  level sf = LEVEL_CLASS → status_i sf = 0 → class_i sf = 0 →
  List.length classes + List.length status + 2 ≤ fuel →
  ∃ sf',
    rec (S fuel) sf l = Some (sf', l ++ class_names status (name sf) classes, 0%Z) ∧
    level sf' = LEVEL_CLASS ∧ status_i sf' = 0 ∧ class_i sf' = 0 ∧
    name sf' = name sf.
Proof.
  intros Hl Hs Hc Hfuel. rewrite collect_class_unfold by done.
  destruct classes as [|x0 cls0] eqn:Ecl.
  { exists sf. simpl. rewrite app_nil_r. done. }
  rewrite <- Ecl in *.
  assert (Hpos : 1 ≤ List.length classes) by (rewrite Ecl; simpl; lia).
  destruct fuel as [|fuel]; [lia|].
  destruct (class_loop_spec (rec (S fuel)) (S fuel) (name sf) classes
              ltac:(apply collect_class_2; lia)
              ltac:(apply collect_status_ok; lia)
              ltac:(apply collect_status_2_again_ok; lia)
              ltac:(lia) 0
              (set_name sf (name sf +:+ ".")) l 0%Z)
    as (sf' & Hrun & Hs' & Hn'); [done | done | done | |].
  { fields. rewrite <- (str_app_nil_r (name sf +:+ ".")) at 1.
    rewrite str_app_assoc. apply str_take_app_1. }
  rewrite Hrun. eexists. split; [reflexivity|]. fields. split_and!; try done.
  by rewrite <- (str_take_take _ 1), Hn', str_take_app.
Qed.

(** The closing loop from [LEVEL_ID]: the class level and the state
    level. *)
Lemma next_levels_class_status
    (f : css_selector_name_collector_t → list string → option collect_state)
    (sf : css_selector_name_collector_t) (l : list string) (c : Z) :
  class_ok node f → status_ok node f → status_i sf = 0 → class_i sf = 0 →
  ∃ sf',
    next_levels f [3; 4; 5; 6] (sf, l, c)
      = Some (sf', l ++ class_names status (name sf) classes
                     ++ status_2_names (name sf) status, c) ∧
    status_i sf' = 0 ∧ class_i sf' = 0 ∧ name sf' = name sf.
Proof.
  intros Hcl Hst Hs Hc.
  cbn [next_levels Nat.eqb orb LEVEL_STATUS_2 LEVEL_CLASS_2].
  destruct (Hcl (set_level sf 3) l) as (sf1 & -> & Hl1 & Hs1 & Hc1 & Hn1); [done..|].
  destruct (Hst (set_level sf1 5) (l ++ class_names status (name (set_level sf 3)) classes))
    as (sf2 & -> & Hl2 & Hc2 & Hn2 & Hs2); [done..|].
  fields. exists sf2. rewrite !Z.add_0_r, Hn1, <- app_assoc.
  split_and!; try done; congruence.
Qed.

Lemma collect_id_unfold (fuel : nat) (sf : css_selector_name_collector_t)
    (l : list string) :
  level sf = LEVEL_ID →
  css_selector_collect_name (S fuel) node sf l
    = match sn_id node with
      | None => Some (sf, l, 0%Z)
      | Some i =>
          match next_levels (rec fuel) [3; 4; 5; 6]
                  (set_name sf (name sf +:+ "#" +:+ i),
                   l ++ [name sf +:+ "#" +:+ i], 0%Z) with
          | None => None
          | Some (sf', l', count) =>
              Some (set_level (set_name sf' (str_take (String.length (name sf)) (name sf')))
                              LEVEL_ID, l', count)
          end
      end.
Proof.
  intros H. cbn [css_selector_collect_name]. rewrite H.
  cbn [Nat.eqb LEVEL_TYPE LEVEL_ID LEVEL_CLASS LEVEL_CLASS_2 LEVEL_STATUS LEVEL_STATUS_2].
  destruct (sn_id node); [|done]. fields. rewrite H. reflexivity.
Qed.

(** A call at [LEVEL_ID]. *)
Lemma collect_id (fuel : nat) :
  List.length classes + List.length status + 3 ≤ fuel → id_ok node (rec (S fuel)).
Proof.
  intros Hfuel sf l Hl Hs Hc. rewrite collect_id_unfold by done.
  unfold id_names. destruct (sn_id node) as [i|].
  2:{ exists sf. by rewrite app_nil_r. }
  destruct fuel as [|fuel]; [lia|].
  destruct (next_levels_class_status (rec (S fuel))
              (set_name sf (name sf +:+ "#" +:+ i)) (l ++ [name sf +:+ "#" +:+ i]) 0%Z)
    as (sf' & -> & Hs' & Hc' & Hn'); try done.
  { intros sf0 l0 H1 H2 H3. by apply collect_class; [..|lia]. }
  { apply collect_status_ok. lia. }
  fields. eexists. split; [by rewrite <- app_assoc|]. fields.
  split_and!; try done. rewrite Hn'. apply str_take_app.
Qed.

Lemma next_levels_from_type
    (f : css_selector_name_collector_t → list string → option collect_state)
    (sf : css_selector_name_collector_t) (l : list string) (c : Z) :
  id_ok node f → class_ok node f → status_ok node f → status_i sf = 0 → class_i sf = 0 →
  ∃ sf',
    next_levels f [2; 3; 4; 5; 6] (sf, l, c)
      = Some (sf', l ++ id_names node (name sf)
                     ++ class_names status (name sf) classes
                     ++ status_2_names (name sf) status, c) ∧
    status_i sf' = 0 ∧ class_i sf' = 0 ∧ name sf' = name sf.
Proof.
  intros Hid Hcl Hst Hs Hc.
  cbn [next_levels Nat.eqb orb LEVEL_STATUS_2 LEVEL_CLASS_2].
  destruct (Hid (set_level sf 2) l) as (sf1 & -> & Hl1 & Hs1 & Hc1 & Hn1); [done..|].
  destruct (next_levels_class_status f sf1 (l ++ id_names node (name (set_level sf 2)))
              (c + 0)%Z Hcl Hst Hs1 Hc1) as (sf2 & Hrun & Hs2 & Hc2 & Hn2).
  cbn [next_levels Nat.eqb orb LEVEL_STATUS_2 LEVEL_CLASS_2] in Hrun.
  rewrite Hrun. fields. exists sf2. rewrite !Z.add_0_r, Hn1, <- app_assoc.
  split_and!; try done; congruence.
Qed.

Lemma collect_type_unfold (fuel : nat) (sf : css_selector_name_collector_t)
    (l : list string) :
  level sf = LEVEL_TYPE →
  css_selector_collect_name (S fuel) node sf l
    = match sn_type node with
      | None => Some (sf, l, 0%Z)
      | Some t =>
          match next_levels (rec fuel) [2; 3; 4; 5; 6]
                  (set_name sf t, l ++ [t], 0%Z) with
          | None => None
          | Some (sf', l', count) =>
              Some (set_level (set_name sf' (str_take (String.length (name sf)) (name sf')))
                              LEVEL_TYPE, l', count)
          end
      end.
Proof.
  intros H. cbn [css_selector_collect_name]. rewrite H.
  cbn [Nat.eqb LEVEL_TYPE LEVEL_ID LEVEL_CLASS LEVEL_CLASS_2 LEVEL_STATUS LEVEL_STATUS_2].
  destruct (sn_type node); [|done]. fields. rewrite H. reflexivity.
Qed.

(** A call at [LEVEL_TYPE]. *)
Lemma collect_type (fuel : nat) :
  List.length classes + List.length status + 4 ≤ fuel → type_ok node (rec (S fuel)).
Proof.
  intros Hfuel sf l Hl Hs Hc Hn. rewrite collect_type_unfold by done.
  unfold type_names. destruct (sn_type node) as [t|].
  2:{ exists sf. by rewrite app_nil_r. }
  destruct fuel as [|fuel]; [lia|].
  destruct (next_levels_from_type (rec (S fuel)) (set_name sf t) (l ++ [t]) 0%Z)
    as (sf' & -> & Hs' & Hc' & Hn'); try done.
  { apply collect_id. lia. }
  { intros sf0 l0 H1 H2 H3. by apply collect_class; [..|lia]. }
  { apply collect_status_ok. lia. }
  fields. eexists. split; [by rewrite <- app_assoc|]. fields.
  split_and!; try done. by rewrite Hn.
Qed.

Lemma collect_none_unfold (fuel : nat) (sf : css_selector_name_collector_t)
    (l : list string) :
  level sf = LEVEL_NONE →
  css_selector_collect_name (S fuel) node sf l
    = match next_levels (rec fuel) [1; 2; 3; 4; 5; 6] (sf, l, 0%Z) with
      | None => None
      | Some (sf', l', count) =>
          Some (set_level (set_name sf' (str_take (String.length (name sf)) (name sf')))
                          LEVEL_NONE, l', count)
      end.
Proof.
  intros H. cbn [css_selector_collect_name]. rewrite H.
  cbn [Nat.eqb LEVEL_NONE LEVEL_TYPE LEVEL_ID LEVEL_CLASS LEVEL_CLASS_2 LEVEL_STATUS
       LEVEL_STATUS_2].
  reflexivity.
Qed.

(** The collector started at [LEVEL_NONE] on an empty name. *)
Lemma collect_none (fuel : nat) (l : list string) :
  List.length classes + List.length status + 5 ≤ fuel →
  ∃ sf',
    rec (S fuel) css_selector_init_name_collector l = Some (sf', l ++ node_names node, 0%Z).
Proof.
  intros Hfuel. destruct fuel as [|fuel]; [lia|].
  rewrite collect_none_unfold by done.
  set (sf0 := css_selector_init_name_collector).
  cbn [next_levels Nat.eqb orb LEVEL_STATUS_2 LEVEL_CLASS_2].
  destruct (collect_type fuel ltac:(lia) (set_level sf0 1) l)
    as (sf1 & -> & Hl1 & Hs1 & Hc1 & Hn1); [done..|].
  destruct (next_levels_from_type (rec (S fuel)) sf1 (l ++ type_names node) (0 + 0)%Z)
    as (sf2 & Hrun & Hs2 & Hc2 & Hn2); try done.
  { apply collect_id. lia. }
  { intros sf3 l3 H1 H2 H3. by apply collect_class; [..|lia]. }
  { apply collect_status_ok. lia. }
  cbn [next_levels Nat.eqb orb LEVEL_STATUS_2 LEVEL_CLASS_2] in Hrun.
  rewrite Hrun. eexists. rewrite Hn1. unfold node_names. by rewrite <- app_assoc.
Qed.

End Collect.

(** The expansion is defined for every node, and it is [node_names]. *)
Lemma get_name_list_opt_names (sn : css_selector_node_t) (names : list string) :
  css_selector_node_get_name_list_opt sn names = Some (names ++ node_names sn, 0%Z).
Proof.
  unfold css_selector_node_get_name_list_opt, collect_fuel.
  replace (List.length (sn_classes sn) + List.length (sn_status sn) + 8)
    with (S (List.length (sn_classes sn) + List.length (sn_status sn) + 7)) by lia.
  destruct (collect_none sn (List.length (sn_classes sn) + List.length (sn_status sn) + 7)
              names ltac:(lia)) as (sf' & ->).
  reflexivity.
Qed.

Lemma get_name_list_defined (sn : css_selector_node_t) (names : list string) :
  css_selector_node_get_name_list sn names = (names ++ node_names sn, 0%Z).
Proof.
  unfold css_selector_node_get_name_list. by rewrite get_name_list_opt_names.
Qed.


(** ** What the expansion contains *)

Lemma cat_prefixed_cons (sep x : string) (l : list string) :
  cat_prefixed sep (x :: l) = sep +:+ x +:+ cat_prefixed sep l.
Proof. reflexivity. Qed.

Lemma str_app_3 (a b c d : string) : a +:+ b +:+ c +:+ d = (a +:+ b +:+ c) +:+ d.
Proof. by rewrite !str_app_assoc. Qed.

Lemma str_app_4 (a b c d e : string) :
  a +:+ (b +:+ c +:+ d) +:+ e = (a +:+ b +:+ c) +:+ d +:+ e.
Proof. by rewrite !str_app_assoc. Qed.

Lemma str_app_5 (a b c d e : string) :
  a +:+ b +:+ c +:+ d +:+ e = (a +:+ b +:+ c) +:+ d +:+ e.
Proof. by rewrite !str_app_assoc. Qed.

Lemma status_2_names_sublist (sts ss : list string) :
  sublist ss sts → ∀ nm, ss ≠ [] →
  nm +:+ cat_prefixed ":" ss ∈ status_2_names nm sts.
Proof.
  induction 1 as [|x ss sts Hsub IH|x ss sts Hsub IH]; intros nm Hne; [done| |].
  - rewrite cat_prefixed_cons. cbn [status_2_names].
    destruct ss as [|y ss'].
    + cbn [cat_prefixed fold_right]. rewrite str_app_nil_r. by left.
    + right. apply elem_of_app. left. rewrite str_app_3. by apply IH.
  - cbn [status_2_names]. right. apply elem_of_app. right. by apply IH.
Qed.

Lemma class_2_names_sublist (status cls cs ss : list string) :
  sublist cs cls → sublist ss status → ∀ nm, cs ≠ [] →
  nm +:+ cat_prefixed "." cs +:+ cat_prefixed ":" ss ∈ class_2_names status nm cls.
Proof.
  intros Hcs Hss.
  induction Hcs as [|x cs cls Hsub IH|x cs cls Hsub IH]; intros nm Hne; [done| |].
  - rewrite cat_prefixed_cons, str_app_4. cbn [class_2_names].
    destruct cs as [|y cs'].
    + cbn [cat_prefixed fold_right]. rewrite str_app_nil_l.
      destruct ss as [|s ss'].
      * cbn [cat_prefixed fold_right]. rewrite str_app_nil_r. by left.
      * right. apply elem_of_app. right. apply elem_of_app. left.
        by apply status_2_names_sublist.
    + right. apply elem_of_app. left. by apply IH.
  - cbn [class_2_names]. right. apply elem_of_app. right.
    apply elem_of_app. right. by apply IH.
Qed.

Lemma class_names_sublist (status cls cs ss : list string) :
  sublist cs cls → sublist ss status → ∀ nm, cs ≠ [] →
  nm +:+ cat_prefixed "." cs +:+ cat_prefixed ":" ss ∈ class_names status nm cls.
Proof.
  intros Hcs Hss.
  induction Hcs as [|x cs cls Hsub IH|x cs cls Hsub IH]; intros nm Hne; [done| |].
  - rewrite cat_prefixed_cons, str_app_4. cbn [class_names].
    destruct cs as [|y cs'].
    + cbn [cat_prefixed fold_right]. rewrite str_app_nil_l.
      destruct ss as [|s ss'].
      * cbn [cat_prefixed fold_right]. rewrite str_app_nil_r. by left.
      * right. apply elem_of_app. right. apply elem_of_app. left.
        by apply status_2_names_sublist.
    + right. apply elem_of_app. left. by apply class_2_names_sublist.
  - cbn [class_names]. right. do 3 (apply elem_of_app; right). by apply IH.
Qed.

(** Behind the type and the id, every sublist of the classes followed by
    every sublist of the states is generated. *)
Lemma node_names_type_id (sn : css_selector_node_t) (t i : string)
    (cs ss : list string) :
  sn_type sn = Some t → sn_id sn = Some i →
  sublist cs (sn_classes sn) → sublist ss (sn_status sn) →
  t ∈ node_names sn ∧
  t +:+ "#" +:+ i +:+ cat_prefixed "." cs +:+ cat_prefixed ":" ss ∈ node_names sn.
Proof.
  intros Ht Hi Hcs Hss. unfold node_names, type_names. rewrite Ht.
  split; [apply elem_of_app; left; by left|].
  apply elem_of_app. left. right. apply elem_of_app. left.
  unfold id_names. rewrite Hi, str_app_5.
  destruct cs as [|c cs'].
  - cbn [cat_prefixed fold_right]. rewrite str_app_nil_l.
    destruct ss as [|s ss'].
    + cbn [cat_prefixed fold_right]. rewrite str_app_nil_r. by left.
    + right. apply elem_of_app. right. by apply status_2_names_sublist.
  - right. apply elem_of_app. left. by apply class_names_sublist.
Qed.

Lemma has_separator_prefix (p n : string) : has_separator n → has_separator (p +:+ n).
Proof.
  intros (q & r & sep & -> & Hsep). exists (p +:+ q), r, sep.
  by rewrite str_app_assoc.
Qed.

Lemma status_2_names_separator (sts : list string) :
  ∀ nm n, n ∈ status_2_names nm sts → has_separator n.
Proof.
  induction sts as [|s sts IH]; intros nm n Hn; cbn [status_2_names] in Hn.
  - by apply elem_of_nil in Hn.
  - apply elem_of_cons in Hn as [->|Hn].
    + exists nm, s, ":"%char. split; [reflexivity | tauto].
    + apply elem_of_app in Hn as [Hn|Hn]; by eapply IH.
Qed.

Lemma class_2_names_separator (status cls : list string) :
  ∀ nm n, n ∈ class_2_names status nm cls → has_separator n.
Proof.
  induction cls as [|c cls IH]; intros nm n Hn; cbn [class_2_names] in Hn.
  - by apply elem_of_nil in Hn.
  - apply elem_of_cons in Hn as [->|Hn].
    + exists nm, c, "."%char. split; [reflexivity | tauto].
    + apply elem_of_app in Hn as [Hn|Hn]; [by eapply IH|].
      apply elem_of_app in Hn as [Hn|Hn]; [by eapply status_2_names_separator|].
      by eapply IH.
Qed.

Lemma class_names_separator (status cls : list string) :
  ∀ nm n, n ∈ class_names status nm cls → has_separator n.
Proof.
  induction cls as [|c cls IH]; intros nm n Hn; cbn [class_names] in Hn.
  - by apply elem_of_nil in Hn.
  - apply elem_of_cons in Hn as [->|Hn].
    + exists nm, c, "."%char. split; [reflexivity | tauto].
    + apply elem_of_app in Hn as [Hn|Hn]; [by eapply class_2_names_separator|].
      apply elem_of_app in Hn as [Hn|Hn]; [by eapply status_2_names_separator|].
      apply elem_of_app in Hn as [Hn|Hn]; [by eapply status_2_names_separator|].
      by eapply IH.
Qed.

Lemma id_names_separator (sn : css_selector_node_t) (nm n : string) :
  n ∈ id_names sn nm → has_separator n.
Proof.
  unfold id_names. destruct (sn_id sn) as [i|]; intros Hn.
  - apply elem_of_cons in Hn as [->|Hn].
    + exists nm, i, "#"%char. split; [reflexivity | tauto].
    + apply elem_of_app in Hn as [Hn|Hn];
        [by eapply class_names_separator | by eapply status_2_names_separator].
  - by apply elem_of_nil in Hn.
Qed.

Lemma node_names_shape (sn : css_selector_node_t) (n : string) :
  n ∈ node_names sn → sn_type sn = Some n ∨ has_separator n.
Proof.
  unfold node_names, type_names. intros Hn.
  apply elem_of_app in Hn as [Hn|Hn].
  - destruct (sn_type sn) as [t|]; [|by apply elem_of_nil in Hn].
    apply elem_of_cons in Hn as [->|Hn]; [by left|]. right.
    apply elem_of_app in Hn as [Hn|Hn]; [by eapply id_names_separator|].
    apply elem_of_app in Hn as [Hn|Hn];
      [by eapply class_names_separator | by eapply status_2_names_separator].
  - right. apply elem_of_app in Hn as [Hn|Hn]; [by eapply id_names_separator|].
    apply elem_of_app in Hn as [Hn|Hn];
      [by eapply class_names_separator | by eapply status_2_names_separator].
Qed.

Lemma wildcard_has_no_separator : ¬ has_separator "*".
Proof.
  intros (p & r & sep & Heq & Hsep).
  destruct p as [|a p].
  - rewrite str_app_nil_l in Heq. injection Heq as Hs _.
    destruct Hsep as [->|[->| ->]]; discriminate.
  - rewrite str_app_cons in Heq. injection Heq as _ Hrest.
    destruct p; discriminate.
Qed.

(** ** The names stay inside the buffer *)

Lemma status_2_names_length (sts : list string) :
  ∀ nm n, n ∈ status_2_names nm sts →
    String.length n ≤ String.length nm + String.length (cat_prefixed ":" sts).
Proof.
  induction sts as [|s sts IH]; intros nm n Hn; cbn [status_2_names] in Hn.
  - by apply elem_of_nil in Hn.
  - rewrite cat_prefixed_cons, !str_app_length.
    apply elem_of_cons in Hn as [->|Hn]; [|apply elem_of_app in Hn as [Hn|Hn]].
    + rewrite !str_app_length. lia.
    + apply IH in Hn. rewrite !str_app_length in Hn. lia.
    + apply IH in Hn. lia.
Qed.

Lemma class_2_names_length (status cls : list string) :
  ∀ nm n, n ∈ class_2_names status nm cls →
    String.length n
    ≤ String.length nm + String.length (cat_prefixed "." cls)
      + String.length (cat_prefixed ":" status).
Proof.
  induction cls as [|c cls IH]; intros nm n Hn; cbn [class_2_names] in Hn.
  - by apply elem_of_nil in Hn.
  - rewrite cat_prefixed_cons, !str_app_length.
    apply elem_of_cons in Hn as [->|Hn];
      [|apply elem_of_app in Hn as [Hn|Hn]; [|apply elem_of_app in Hn as [Hn|Hn]]].
    + rewrite !str_app_length. lia.
    + apply IH in Hn. rewrite !str_app_length in Hn. lia.
    + apply status_2_names_length in Hn. rewrite !str_app_length in Hn. lia.
    + apply IH in Hn. lia.
Qed.

Lemma cat_prefixed_tail_length (sep : string) (l : list string) :
  String.length (cat_prefixed sep (tail l)) ≤ String.length (cat_prefixed sep l).
Proof.
  destruct l as [|x l]; [done|]. cbn [tail].
  rewrite cat_prefixed_cons, !str_app_length. lia.
Qed.

Lemma class_names_length (status cls : list string) :
  ∀ nm n, n ∈ class_names status nm cls →
    String.length n
    ≤ String.length nm + String.length (cat_prefixed "." cls)
      + String.length (cat_prefixed ":" status).
Proof.
  induction cls as [|c cls IH]; intros nm n Hn; cbn [class_names] in Hn.
  - by apply elem_of_nil in Hn.
  - rewrite cat_prefixed_cons, !str_app_length.
    apply elem_of_cons in Hn as [->|Hn];
      [|apply elem_of_app in Hn as [Hn|Hn];
        [|apply elem_of_app in Hn as [Hn|Hn];
          [|apply elem_of_app in Hn as [Hn|Hn]]]].
    + rewrite !str_app_length. lia.
    + apply class_2_names_length in Hn. rewrite !str_app_length in Hn. lia.
    + apply status_2_names_length in Hn. rewrite !str_app_length in Hn. lia.
    + apply status_2_names_length in Hn. rewrite !str_app_length in Hn.
      pose proof (cat_prefixed_tail_length ":" status). lia.
    + apply IH in Hn. lia.
Qed.

Lemma id_names_length (sn : css_selector_node_t) (nm n : string) :
  n ∈ id_names sn nm →
  String.length n
  ≤ String.length nm
    + String.length (match sn_id sn with Some i => "#" +:+ i | None => "" end)
    + String.length (cat_prefixed "." (sn_classes sn))
    + String.length (cat_prefixed ":" (sn_status sn)).
Proof.
  unfold id_names. destruct (sn_id sn) as [i|]; intros Hn;
    [|by apply elem_of_nil in Hn].
  rewrite !str_app_length.
  apply elem_of_cons in Hn as [->|Hn]; [|apply elem_of_app in Hn as [Hn|Hn]].
  - rewrite !str_app_length. lia.
  - apply class_names_length in Hn. rewrite !str_app_length in Hn. lia.
  - apply status_2_names_length in Hn. rewrite !str_app_length in Hn. lia.
Qed.

(** No generated name is longer than the name made of all the parts. *)
Lemma node_names_length (sn : css_selector_node_t) (n : string) :
  n ∈ node_names sn →
  String.length n
  ≤ String.length (node_fullname (sn_type sn) (sn_id sn) (sn_classes sn) (sn_status sn)).
Proof.
  unfold node_names, type_names, node_fullname. rewrite !str_app_length. intros Hn.
  apply elem_of_app in Hn as [Hn|Hn].
  - destruct (sn_type sn) as [t|]; [|by apply elem_of_nil in Hn].
    apply elem_of_cons in Hn as [->|Hn];
      [|apply elem_of_app in Hn as [Hn|Hn]; [|apply elem_of_app in Hn as [Hn|Hn]]].
    + lia.
    + apply id_names_length in Hn. lia.
    + apply class_names_length in Hn. lia.
    + apply status_2_names_length in Hn. lia.
  - apply elem_of_app in Hn as [Hn|Hn]; [|apply elem_of_app in Hn as [Hn|Hn]].
    + apply id_names_length in Hn. cbn [String.length] in Hn. lia.
    + apply class_names_length in Hn. cbn [String.length] in Hn. lia.
    + apply status_2_names_length in Hn. cbn [String.length] in Hn. lia.
Qed.

(** For a node that fits, every name the collector writes is shorter
    than the buffer. *)
Lemma node_names_fit (sn : css_selector_node_t) :
  fits_name_buffer sn →
  Forall (fun n => String.length n < MAX_NAME_LEN) (node_names sn).
Proof.
  intros Hfit. apply Forall_forall. intros n Hn.
  apply node_names_length in Hn. unfold fits_name_buffer in Hfit. lia.
Qed.

(** C4, as the code has it.  For a node with a type and an id whose
    longest name fits the collector's buffer, the expansion
    [css_selector_node_get_name_list] contains the bare type and, behind
    type and id, every sublist of the classes (in their stored order)
    followed by every sublist of the states: in particular type+id
    alone, type+id with every non-empty set of classes, and each of
    these with every non-empty set of states.  The name ["*"] is in the
    expansion only if it is the node's type, and every name of the
    expansion is shorter than [MAX_NAME_LEN], so no write leaves the
    buffer. *)
Theorem name_expansion (sn : css_selector_node_t) (t i : string)
    (cs ss : list string) :
  fits_name_buffer sn →
  sn_type sn = Some t → sn_id sn = Some i →
  sublist cs (sn_classes sn) → sublist ss (sn_status sn) →
  t ∈ (css_selector_node_get_name_list sn []).1 ∧
  t +:+ "#" +:+ i +:+ cat_prefixed "." cs +:+ cat_prefixed ":" ss
    ∈ (css_selector_node_get_name_list sn []).1 ∧
  ("*" ∈ (css_selector_node_get_name_list sn []).1 → t = "*") ∧
  Forall (fun n => String.length n < MAX_NAME_LEN)
         (css_selector_node_get_name_list sn []).1.
Proof.
  intros Hfit Ht Hi Hcs Hss. rewrite get_name_list_defined. cbn [fst app].
  destruct (node_names_type_id sn t i cs ss Ht Hi Hcs Hss) as [H1 H2].
  split_and!; [done | done | | by apply node_names_fit].
  intros Hw. apply node_names_shape in Hw as [Hw|Hw].
  - congruence.
  - by apply wildcard_has_no_separator in Hw.
Qed.

Lemma name_expansion_witness :
  fits_name_buffer example_node ∧
  "tv" ∈ (css_selector_node_get_name_list example_node []).1 ∧
  "tv#m.a.b:h" ∈ (css_selector_node_get_name_list example_node []).1 ∧
  ("*" ∈ (css_selector_node_get_name_list example_node []).1 → "tv" = "*") ∧
  Forall (fun n => String.length n < MAX_NAME_LEN)
         (css_selector_node_get_name_list example_node []).1.
Proof.
  assert (Hfit : fits_name_buffer example_node) by (vm_compute; lia).
  split; [exact Hfit|].
  apply (name_expansion example_node "tv" "m" ["a"; "b"] ["h"]);
    [exact Hfit | reflexivity | reflexivity | reflexivity | reflexivity].
Defined.

(** The expansion of the example node, in full. *)
Example example_node_names :
  (css_selector_node_get_name_list example_node []).1
    = [ "tv"; "tv#m"; "tv#m.a"; "tv#m.a.b"; "tv#m.a.b:h"; "tv#m.a:h"; "tv#m.b";
        "tv#m.b:h"; "tv#m:h"; "tv.a"; "tv.a.b"; "tv.a.b:h"; "tv.a:h"; "tv.b";
        "tv.b:h"; "tv:h"; "#m"; "#m.a"; "#m.a.b"; "#m.a.b:h"; "#m.a:h"; "#m.b";
        "#m.b:h"; "#m:h"; ".a"; ".a.b"; ".a.b:h"; ".a:h"; ".b"; ".b:h"; ":h" ].
Proof. vm_compute. reflexivity. Qed.

(** C4 as worded does not hold of the specification's own node: its
    expansion does not hold the wildcard. *)
Lemma example_node_without_wildcard :
  "*" ∉ (css_selector_node_get_name_list example_node []).1.
Proof.
  rewrite example_node_names. intros H.
  repeat (apply elem_of_cons in H as [H|H]; [discriminate H|]).
  by apply elem_of_nil in H.
Qed.

End NamesFacts.
(* ===================================================================== *)
(** * Declarations: merge, replace, clear and the property lists *)
(* ===================================================================== *)

Module DeclarationFacts.
Import Decl Selector Library Cascade Declarations.

Lemma stored_stored (v : css_style_value_t) : stored (stored v) = stored v.
Proof. reflexivity. Qed.

Lemma stored_valid (v : css_style_value_t) : is_valid (stored v) = true.
Proof. reflexivity. Qed.

Lemma valid_cell_lookup (ss : css_style_declaration_t) (k : nat) :
  valid_cell ss k
  = match sheet ss !! k with
    | Some c => if decide (k < ss_length ss) then
                  if is_valid c then Some c else None
                else None
    | None => None
    end.
Proof.
  unfold valid_cell. destruct (sheet ss !! k); [|done].
  destruct (decide (k < ss_length ss)).
  - rewrite bool_decide_eq_true_2 by done. done.
  - rewrite bool_decide_eq_false_2 by done. done.
Qed.

(** The prologue shared by merge and replace: the length becomes the
    larger one, the allocation covers it, no valid cell appears or
    disappears. *)
Lemma grow_to_spec (dest : css_style_declaration_t) (n : nat) :
  decl_wf dest →
  ss_length (grow_to dest n) = ss_length dest `max` n ∧
  decl_wf (grow_to dest n) ∧
  ∀ k, valid_cell (grow_to dest n) k = valid_cell dest k.
Proof.
  intros Hwf. unfold grow_to, decl_wf in *.
  destruct (decide (ss_length dest < n)) as [Hlt|Hge]; cbn.
  - split; [lia|]. split; [rewrite length_imap, length_resize; lia|].
    intros k. rewrite !valid_cell_lookup. cbn.
    rewrite list_lookup_imap.
    destruct (decide (k < n)) as [Hk|Hk].
    + destruct (decide (k < List.length (sheet dest))) as [Hl|Hl].
      * rewrite lookup_resize by lia.
        destruct (sheet dest !! k) as [c|]; [|done]. cbn.
        destruct (decide (ss_length dest ≤ k)).
        -- rewrite decide_False by lia. reflexivity.
        -- by rewrite decide_True by lia.
      * rewrite lookup_resize_new by lia. cbn.
        rewrite lookup_ge_None_2 by lia.
        by rewrite decide_True by lia.
    + rewrite lookup_resize_old by lia. cbn.
      destruct (sheet dest !! k); [|done]. by rewrite decide_False by lia.
  - split; [lia|]. done.
Qed.

(** X1.  [css_style_declaration_merge] is first-writer-wins between two
    declarations: the length becomes the larger of the two, a cell that
    was valid in [dest] is kept, and an invalid one receives the copy of
    the source's valid cell. *)
Theorem declaration_merge_keeps_first (dest src : css_style_declaration_t) :
  decl_wf dest → decl_wf src →
  ss_length (css_style_declaration_merge dest src)
    = ss_length dest `max` ss_length src ∧
  decl_wf (css_style_declaration_merge dest src) ∧
  ∀ k, valid_cell (css_style_declaration_merge dest src) k
       = or_else (valid_cell dest k) (stored <$> valid_cell src k).
Proof.
  intros Hd Hs.
  destruct (grow_to_spec dest (ss_length src) Hd) as (Hlen & Hwf & Hcells).
  unfold css_style_declaration_merge. cbn.
  split; [done|]. split; [unfold decl_wf in *; cbn; by rewrite length_imap|].
  intros k. rewrite <- Hcells. rewrite !valid_cell_lookup. cbn.
  rewrite list_lookup_imap.
  destruct (sheet (grow_to dest (ss_length src)) !! k) as [d|] eqn:Ed; cbn.
  - rewrite lookup_take.
    destruct (decide (k < ss_length src)) as [Hk|Hk].
    + repeat case_decide; try lia.
      destruct (sheet src !! k) as [s|] eqn:Es; cbn.
      * destruct (is_valid s) eqn:Evs, (is_valid d) eqn:Evd; cbn; rewrite ?Evd; done.
      * by destruct (is_valid d).
    + repeat case_decide; try lia.
      * destruct (sheet src !! k); cbn; by destruct (is_valid d).
      * by destruct (sheet src !! k).
  - (* no cell of the destination: the index is past both lengths *)
    apply lookup_ge_None_1 in Ed. unfold decl_wf in Hwf.
    destruct (sheet src !! k); [|done]. cbn. by rewrite decide_False by lia.
Qed.

Lemma declaration_merge_keeps_first_witness :
  ss_length (css_style_declaration_merge sample_declaration other_declaration)
    = ss_length sample_declaration `max` ss_length other_declaration ∧
  decl_wf (css_style_declaration_merge sample_declaration other_declaration) ∧
  ∀ k, valid_cell (css_style_declaration_merge sample_declaration other_declaration) k
       = or_else (valid_cell sample_declaration k)
                 (stored <$> valid_cell other_declaration k).
Proof.
  apply (declaration_merge_keeps_first sample_declaration other_declaration);
    unfold decl_wf; vm_compute; lia.
Defined.

Lemma replace_cells (dest src : css_style_declaration_t) :
  decl_wf dest → decl_wf src →
  decl_wf (css_style_declaration_replace dest src).1 ∧
  ∀ k, valid_cell (css_style_declaration_replace dest src).1 k
       = or_else (stored <$> valid_cell src k) (valid_cell dest k).
Proof.
  intros Hd Hs.
  destruct (grow_to_spec dest (ss_length src) Hd) as (Hlen & Hwf & Hcells).
  unfold css_style_declaration_replace. cbn.
  split; [unfold decl_wf in *; cbn; by rewrite length_imap|].
  intros k. rewrite <- Hcells. rewrite !valid_cell_lookup. cbn.
  rewrite list_lookup_imap.
  destruct (sheet (grow_to dest (ss_length src)) !! k) as [d|] eqn:Ed; cbn.
  - rewrite lookup_take.
    destruct (decide (k < ss_length src)) as [Hk|Hk].
    + repeat case_decide; try lia.
      destruct (sheet src !! k) as [s|] eqn:Es; cbn.
      * destruct (is_valid s) eqn:Evs; cbn; done.
      * done.
    + repeat case_decide; destruct (sheet src !! k); done.
  - apply lookup_ge_None_1 in Ed. unfold decl_wf in Hwf.
    destruct (sheet src !! k); [|done]. cbn. by rewrite decide_False by lia.
Qed.

Lemma replace_length (dest src : css_style_declaration_t) :
  decl_wf dest →
  ss_length (css_style_declaration_replace dest src).1
    = ss_length dest `max` ss_length src.
Proof.
  intros Hd. destruct (grow_to_spec dest (ss_length src) Hd) as (Hlen & _ & _).
  exact Hlen.
Qed.

(** X2.  [css_style_declaration_replace] lets the source win: a cell valid
    in [src] is copied over whatever [dest] held, every other cell of
    [dest] is left as it was, and the value returned is the number of
    valid cells of [src]. *)
Theorem declaration_replace_source_wins (dest src : css_style_declaration_t) :
  decl_wf dest → decl_wf src →
  let r := css_style_declaration_replace dest src in
  ss_length r.1 = ss_length dest `max` ss_length src ∧
  decl_wf r.1 ∧
  (∀ k, valid_cell r.1 k = or_else (stored <$> valid_cell src k) (valid_cell dest k)) ∧
  r.2 = Z.of_nat (valid_count src).
Proof.
  intros Hd Hs r. subst r.
  destruct (replace_cells dest src Hd Hs) as [Hwf Hcells].
  split; [by apply replace_length|].
  split; [exact Hwf|]. split; [exact Hcells|].
  unfold css_style_declaration_replace, valid_count. reflexivity.
Qed.

Lemma declaration_replace_source_wins_witness :
  let r := css_style_declaration_replace sample_declaration other_declaration in
  ss_length r.1 = ss_length sample_declaration `max` ss_length other_declaration ∧
  decl_wf r.1 ∧
  (∀ k, valid_cell r.1 k
        = or_else (stored <$> valid_cell other_declaration k)
                  (valid_cell sample_declaration k)) ∧
  r.2 = Z.of_nat (valid_count other_declaration).
Proof.
  apply (declaration_replace_source_wins sample_declaration other_declaration);
    unfold decl_wf; vm_compute; lia.
Defined.

(** [css_style_declaration_clear] leaves no valid cell and moves
    neither the length nor the allocation. *)
Lemma declaration_clear_spec (ss : css_style_declaration_t) :
  ss_length (css_style_declaration_clear ss) = ss_length ss ∧
  List.length (sheet (css_style_declaration_clear ss)) = List.length (sheet ss) ∧
  ∀ k, valid_cell (css_style_declaration_clear ss) k = None.
Proof.
  unfold css_style_declaration_clear. cbn. split; [done|].
  split; [by rewrite length_imap|].
  intros k. rewrite valid_cell_lookup. cbn. rewrite list_lookup_imap.
  destruct (sheet ss !! k) as [c|]; [|done]. cbn.
  by repeat case_decide.
Qed.

(** X3.  [css_get_computed_style] hands out a copy of the computed
    declaration: whatever the output declaration held before, its valid
    cells afterwards are exactly the copies of the valid cells of the
    declaration the cache routine returns. *)
Theorem computed_style_is_copied (st st' : css_module_t) (s : css_selector_t)
    (ss out_ss : css_style_declaration_t) :
  css_get_computed_style_with_cache st s = Some (ss, st') →
  decl_wf ss → decl_wf out_ss →
  ∃ out,
    css_get_computed_style st s out_ss = Some (out, st') ∧
    ss_length out = ss_length out_ss `max` ss_length ss ∧
    decl_wf out ∧
    ∀ k, valid_cell out k = stored <$> valid_cell ss k.
Proof.
  intros Hrun Hss Hout. unfold css_get_computed_style. rewrite Hrun.
  destruct (declaration_clear_spec out_ss) as (Hlen & Halloc & Hnone).
  assert (Hwf : decl_wf (css_style_declaration_clear out_ss)).
  { unfold decl_wf in *. by rewrite Hlen, Halloc. }
  destruct (replace_cells (css_style_declaration_clear out_ss) ss Hwf Hss)
    as (Hw & Hcells).
  eexists. split; [reflexivity|].
  split; [by rewrite replace_length, Hlen|].
  split; [done|].
  intros k. rewrite Hcells, Hnone. by destruct (valid_cell ss k).
Qed.

Lemma computed_style_is_copied_witness :
  ∃ out,
    css_get_computed_style Scenario.descendant_store paragraph sample_declaration
      = Some (out, paragraph_style.2) ∧
    ss_length out = ss_length sample_declaration `max` ss_length paragraph_style.1 ∧
    decl_wf out ∧
    ∀ k, valid_cell out k = stored <$> valid_cell paragraph_style.1 k.
Proof.
  apply (computed_style_is_copied Scenario.descendant_store paragraph_style.2
           paragraph paragraph_style.1 sample_declaration).
  - vm_compute. reflexivity.
  - unfold decl_wf. vm_compute. lia.
  - unfold decl_wf. vm_compute. lia.
Defined.

(** ** Property lists: round trip and idempotence *)

(** [css_style_properties_merge] appends [entries_from] and counts them. *)
Lemma properties_merge_from_entries (cells : list css_style_value_t) :
  ∀ (i len : nat) (l : css_style_properties_t) (c : Z),
    css_style_properties_merge_from i cells len l c
      = (l ++ entries_from i cells len,
         (c + Z.of_nat (List.length (entries_from i cells len)))%Z).
Proof.
  induction cells as [|x cells IH]; intros i len l c; cbn.
  - rewrite app_nil_r. f_equal. lia.
  - destruct (decide (i < len)); [|cbn; rewrite app_nil_r; f_equal; lia].
    destruct (is_valid x); rewrite IH; cbn.
    + rewrite <- app_assoc. cbn. f_equal. lia.
    + done.
Qed.

(** One entry written into an invalid cell below the length. *)
Lemma merge_property_write (ss : css_style_declaration_t) (c : Z)
    (p : css_style_property_t) (cell : css_style_value_t) :
  key p < ss_length ss → sheet ss !! key p = Some cell →
  is_valid cell = false → is_valid (style p) = true →
  merge_property (ss, c) p
    = Some ({| sheet := <[key p := stored (style p)]> (sheet ss);
               ss_length := ss_length ss |}, (c + 1)%Z).
Proof.
  intros Hk Hc Hv Hs. unfold merge_property.
  rewrite decide_False by lia. rewrite Hc, Hv, Hs. reflexivity.
Qed.

(** One entry that finds its cell valid, or is itself invalid, below the
    length: nothing changes. *)
Lemma merge_property_skip (ss : css_style_declaration_t) (c : Z)
    (p : css_style_property_t) (cell : css_style_value_t) :
  key p < ss_length ss → sheet ss !! key p = Some cell →
  (is_valid (style p) = true → is_valid cell = true) →
  merge_property (ss, c) p = Some (ss, c).
Proof.
  intros Hk Hc Hv. unfold merge_property.
  rewrite decide_False by lia. rewrite Hc.
  destruct (is_valid (style p)).
  - by rewrite Hv.
  - by rewrite andb_false_r.
Qed.

Local Arguments merge_property : simpl never.

(** Merging the entries of the cells [cells] (indices from [i] on) into
    a declaration whose cells from [i] on are still invalid writes each
    of them. *)
Lemma merge_entries_from (cells : list css_style_value_t) :
  ∀ (i len : nat) (ss : css_style_declaration_t) (c : Z),
    decl_wf ss → len ≤ ss_length ss →
    (∀ k, i ≤ k → valid_cell ss k = None) →
    ∃ ss',
      merge_properties_loop (ss, c) (entries_from i cells len)
        = Some (ss', (c + Z.of_nat (List.length (entries_from i cells len)))%Z) ∧
      ss_length ss' = ss_length ss ∧ decl_wf ss' ∧
      ∀ k, valid_cell ss' k
           = if decide (i ≤ k ∧ k < len) then
               match cells !! (k - i) with
               | Some x => if is_valid x then Some (stored x) else None
               | None => None
               end
             else valid_cell ss k.
Proof.
  induction cells as [|x cells IH]; intros i len ss c Hwf Hlen Hnone; cbn.
  - exists ss. split; [f_equal; f_equal; lia|]. split; [done|]. split; [done|].
    intros k. case_decide as Hk; [|done]. rewrite Hnone by lia. done.
  - destruct (decide (i < len)) as [Hi|Hi]; cbn.
    2:{ exists ss. split; [f_equal; f_equal; lia|]. split; [done|]. split; [done|].
        intros k. by rewrite decide_False by lia. }
    destruct (is_valid x) eqn:Ex; cbn.
    + (* the cell is valid: its entry is written *)
      destruct (lookup_lt_is_Some_2 (sheet ss) i) as [cell Hcell];
        [unfold decl_wf in Hwf; lia|].
      assert (Hinv : is_valid cell = false).
      { eapply (CascadeFacts.valid_cell_None ss i); [apply Hnone; lia | lia | done]. }
      rewrite (merge_property_write ss c {| key := i; style := stored x |} cell)
        by (cbn; (lia || done)).
      cbn.
      set (ss1 := {| sheet := <[i := stored (stored x)]> (sheet ss);
                     ss_length := ss_length ss |}).
      assert (Hcell1 : ∀ k, valid_cell ss1 k
                            = if decide (k = i) then Some (stored x) else valid_cell ss k).
      { intros k. rewrite !valid_cell_lookup. subst ss1; cbn.
        destruct (decide (k = i)) as [->|Hne].
        - rewrite list_lookup_insert_eq by (unfold decl_wf in Hwf; lia).
          by rewrite decide_True by lia.
        - by rewrite list_lookup_insert_ne by done. }
      destruct (IH (S i) len ss1 (c + 1)%Z) as (ss' & Hrun & Hl & Hwf' & Hcells).
      { unfold decl_wf in *. subst ss1; cbn. by rewrite length_insert. }
      { done. }
      { intros k Hk. rewrite Hcell1. rewrite decide_False by lia. apply Hnone. lia. }
      exists ss'. split; [rewrite Hrun; f_equal; f_equal; lia|].
      split; [done|]. split; [done|].
      intros k. rewrite Hcells.
      destruct (decide (S i ≤ k ∧ k < len)) as [Hk|Hk].
      * rewrite decide_True by lia.
        replace (k - i) with (S (k - S i)) by lia. done.
      * rewrite Hcell1. destruct (decide (k = i)) as [->|Hne].
        -- rewrite decide_True by lia. rewrite Nat.sub_diag. cbn. by rewrite Ex.
        -- by rewrite decide_False by lia.
    + (* the cell is not valid: no entry *)
      destruct (IH (S i) len ss c Hwf Hlen) as (ss' & Hrun & Hl & Hwf' & Hcells).
      { intros k Hk. apply Hnone. lia. }
      exists ss'. split; [done|]. split; [done|]. split; [done|].
      intros k. rewrite Hcells.
      destruct (decide (S i ≤ k ∧ k < len)) as [Hk|Hk].
      * rewrite decide_True by lia.
        replace (k - i) with (S (k - S i)) by lia. done.
      * destruct (decide (k = i)) as [->|Hne].
        -- rewrite decide_True by lia. rewrite Nat.sub_diag. cbn. rewrite Ex.
           apply Hnone. lia.
        -- by rewrite decide_False by lia.
Qed.

Lemma entries_from_length (cells : list css_style_value_t) :
  ∀ i len,
    List.length (entries_from i cells len)
    = List.length (filter (fun c => is_valid c = true) (take (len - i) cells)).
Proof.
  induction cells as [|x cells IH]; intros i len; cbn.
  - by rewrite take_nil.
  - destruct (decide (i < len)) as [Hi|Hi].
    + replace (len - i) with (S (len - S i)) by lia. cbn.
      rewrite length_app, IH.
      destruct (is_valid x) eqn:Ex.
      * by rewrite decide_True by done.
      * by rewrite decide_False by done.
    + by replace (len - i) with 0 by lia.
Qed.

(** X4.  The round trip of a rule body.  The property list
    [css_style_properties_merge] makes of a declaration, merged into a
    fresh declaration that is long enough, gives back the valid cells of
    the declaration (as copies) and nothing else; both calls return the
    number of valid cells. *)
Theorem declaration_round_trip (ss : css_style_declaration_t) (n : nat) :
  decl_wf ss → ss_length ss ≤ n →
  (css_style_properties_merge css_style_properties_create ss).2
    = Z.of_nat (valid_count ss) ∧
  ∃ r,
    css_style_declaration_merge_properties (css_style_declaration_create n)
      (css_style_properties_merge css_style_properties_create ss).1
      = Some (r, Z.of_nat (valid_count ss)) ∧
    ss_length r = n ∧
    ∀ k, valid_cell r k = stored <$> valid_cell ss k.
Proof.
  intros Hwf Hn.
  unfold css_style_properties_merge, css_style_properties_create.
  rewrite properties_merge_from_entries. cbn [fst snd app].
  assert (Hcount : List.length (entries_from 0 (sheet ss) (ss_length ss))
                   = valid_count ss).
  { rewrite entries_from_length, Nat.sub_0_r. reflexivity. }
  split; [by rewrite Hcount|].
  unfold css_style_declaration_merge_properties.
  destruct (merge_entries_from (sheet ss) 0 (ss_length ss)
              (css_style_declaration_create n) 0%Z) as (r & Hrun & Hl & Hwf' & Hcells).
  { unfold decl_wf, css_style_declaration_create; cbn. rewrite length_replicate. lia. }
  { cbn. lia. }
  { intros k _. apply CascadeFacts.created_declaration_no_valid_cell. }
  exists r. rewrite Hcount in Hrun. split; [exact Hrun|]. split; [exact Hl|].
  intros k. rewrite Hcells, Nat.sub_0_r.
  rewrite (valid_cell_lookup ss).
  destruct (decide (0 ≤ k ∧ k < ss_length ss)) as [Hk|Hk].
  - destruct (sheet ss !! k) as [x|]; [|done].
    rewrite decide_True by lia. by destruct (is_valid x).
  - rewrite CascadeFacts.created_declaration_no_valid_cell.
    destruct (sheet ss !! k); [|done]. by rewrite decide_False by lia.
Qed.

Lemma declaration_round_trip_witness :
  (css_style_properties_merge css_style_properties_create sample_declaration).2
    = Z.of_nat (valid_count sample_declaration) ∧
  ∃ r,
    css_style_declaration_merge_properties (css_style_declaration_create 4)
      (css_style_properties_merge css_style_properties_create sample_declaration).1
      = Some (r, Z.of_nat (valid_count sample_declaration)) ∧
    ss_length r = 4 ∧
    ∀ k, valid_cell r k = stored <$> valid_cell sample_declaration k.
Proof.
  apply (declaration_round_trip sample_declaration 4);
    unfold decl_wf; vm_compute; lia.
Defined.

(** A pass over a list none of whose entries can change anything. *)
Lemma merge_loop_noop (l : css_style_properties_t) (ss : css_style_declaration_t)
    (c : Z) :
  decl_wf ss →
  Forall (fun p => key p < ss_length ss ∧
                   (is_valid (style p) = true → is_Some (valid_cell ss (key p)))) l →
  merge_properties_loop (ss, c) l = Some (ss, c).
Proof.
  intros Hwf. induction 1 as [|p l [Hk Hv] _ IH]; [done|].
  cbn [merge_properties_loop].
  destruct (lookup_lt_is_Some_2 (sheet ss) (key p)) as [cell Hcell];
    [unfold decl_wf in Hwf; lia|].
  rewrite (merge_property_skip ss c p cell); [exact IH | done | done |].
  intros Hs. destruct (Hv Hs) as [v Hvc].
  apply CascadeFacts.valid_cell_Some in Hvc as (Hc & _ & Hvalid). congruence.
Qed.

(** What a pass away from the boundary leaves behind: every key is
    below the length and every valid entry finds a valid cell. *)
Lemma merge_loop_settles (l : css_style_properties_t) :
  ∀ (ss ss1 : css_style_declaration_t) (c c1 : Z),
    decl_wf ss → clear_of_boundary (ss_length ss) l = true →
    merge_properties_loop (ss, c) l = Some (ss1, c1) →
    decl_wf ss1 ∧ ss_length ss ≤ ss_length ss1 ∧
    (∀ k, is_Some (valid_cell ss k) → is_Some (valid_cell ss1 k)) ∧
    Forall (fun p => key p < ss_length ss1 ∧
                     (is_valid (style p) = true → is_Some (valid_cell ss1 (key p)))) l.
Proof.
  induction l as [|p l IH]; intros ss ss1 c c1 Hwf Hclear Hrun.
  - cbn in Hrun. simplify_eq. done.
  - cbn [clear_of_boundary] in Hclear. apply andb_true_iff in Hclear as [Hp Hl].
    apply negb_true_iff, Nat.eqb_neq in Hp.
    destruct (CascadeFacts.merge_property_spec ss c p Hwf Hp)
      as (ss' & c' & Hstep & Hlen & Hwf' & Hcells).
    cbn [merge_properties_loop] in Hrun. rewrite Hstep in Hrun.
    rewrite <- Hlen in Hl.
    destruct (IH ss' ss1 c' c1 Hwf' Hl Hrun) as (Hwf1 & Hle & Hkeep & Hall).
    assert (Hlt : key p < ss_length ss') by (rewrite Hlen; case_decide; lia).
    split; [done|]. split; [rewrite Hlen in Hle; case_decide; lia|].
    split.
    + intros k [v Hv]. apply Hkeep. rewrite Hcells, Hv. by eexists.
    + constructor; [|done]. split; [lia|].
      intros Hs. apply Hkeep. rewrite Hcells.
      rewrite bool_decide_eq_true_2 by done. rewrite Hs. cbn.
      destruct (valid_cell ss (key p)); by eexists.
Qed.

(** X5.  Merging a property list is idempotent.  After a merge that
    stays away from the boundary key, merging the same list again
    changes nothing and returns [0]. *)
Theorem merge_properties_idempotent (ss ss1 : css_style_declaration_t)
    (l : css_style_properties_t) (c1 : Z) :
  decl_wf ss → clear_of_boundary (ss_length ss) l = true →
  css_style_declaration_merge_properties ss l = Some (ss1, c1) →
  css_style_declaration_merge_properties ss1 l = Some (ss1, 0%Z).
Proof.
  intros Hwf Hclear Hrun. unfold css_style_declaration_merge_properties in *.
  destruct (merge_loop_settles l ss ss1 0%Z c1 Hwf Hclear Hrun)
    as (Hwf1 & _ & _ & Hall).
  by apply merge_loop_noop.
Qed.

Lemma merge_properties_idempotent_witness :
  css_style_declaration_merge_properties merged_sample sample_entries
    = Some (merged_sample, 0%Z).
Proof.
  apply (merge_properties_idempotent (css_style_declaration_create 2)
           merged_sample sample_entries 2%Z).
  - unfold decl_wf. vm_compute. lia.
  - reflexivity.
  - reflexivity.
Defined.

(** ** Searching and unlinking entries *)

Lemma properties_find_app (l1 l2 : css_style_properties_t) (k : nat) :
  css_style_properties_find (l1 ++ l2) k
  = match css_style_properties_find l1 k with
    | Some p => Some p
    | None => css_style_properties_find l2 k
    end.
Proof.
  induction l1 as [|p l1 IH]; cbn; [done|].
  by destruct (Nat.eqb (key p) k).
Qed.

(** X6.  [css_style_properties_add] appends without looking for the key.
    A lookup of a key already present keeps answering with the older
    entry, a lookup of a new key finds the fresh entry, which is not
    valid, and lookups of other keys are unaffected. *)
Theorem properties_add_then_find (l : css_style_properties_t) (k k' : nat) :
  css_style_properties_find (css_style_properties_add l k) k'
  = match css_style_properties_find l k' with
    | Some p => Some p
    | None => if decide (k = k') then Some {| key := k; style := zero_value |}
              else None
    end.
Proof.
  unfold css_style_properties_add. rewrite properties_find_app.
  destruct (css_style_properties_find l k') as [p|]; [done|].
  cbn. destruct (Nat.eqb_spec k k') as [->|Hne].
  - by rewrite decide_True.
  - by rewrite decide_False.
Qed.

(** X7.  [css_style_properties_remove] unlinks the entry
    [css_style_properties_find] returns, and only that one: with no
    entry for the key the list is returned as it was and the result is
    [-1]; otherwise the result is [0], the first entry with the key is
    gone, and every other entry is in place, a later entry with the same
    key included. *)
Theorem properties_remove_first (l : css_style_properties_t) (k : nat) :
  match css_style_properties_find l k with
  | None => css_style_properties_remove l k = (l, (-1)%Z)
  | Some p =>
      ∃ l1 l2,
        l = l1 ++ p :: l2 ∧ key p = k ∧
        css_style_properties_find l1 k = None ∧
        css_style_properties_remove l k = (l1 ++ l2, 0%Z) ∧
        css_style_properties_find (l1 ++ l2) k = css_style_properties_find l2 k
  end.
Proof.
  induction l as [|q l IH]; cbn; [done|].
  destruct (Nat.eqb_spec (key q) k) as [Hq|Hq].
  - exists [], l. done.
  - destruct (css_style_properties_find l k) as [p|].
    + destruct IH as (l1 & l2 & -> & Hk & Hnone & Hrem & Hfind).
      exists (q :: l1), l2. rewrite Hrem. cbn.
      apply Nat.eqb_neq in Hq. rewrite Hq. done.
    + by rewrite IH.
Qed.

End DeclarationFacts.
(* ===================================================================== *)
(** * Selectors: matching, hashing, the parser's invariants *)
(* ===================================================================== *)

Module SelectorFacts.
Import Decl Selector Library Registry Scenario Matching.

(** ** [css_selector_node_match] *)

Lemma match_inner_spec (x : string) (l1 : list string) (i : nat) (js : list string) :
  js ≠ [] →
  match_inner x l1 i js
  = match l1 !! i with
    | None => Fault
    | Some y => Ret (String.eqb x y)
    end.
Proof.
  induction js as [|j js IH]; [done|]. intros _. cbn.
  destruct (l1 !! i) as [y|] eqn:E; [|done].
  destruct (String.eqb x y) eqn:Exy; [done|].
  destruct js as [|j' js]; [done|].
  by rewrite IH.
Qed.

(** The loop accepts exactly the lists that agree with [sn1]'s from
    index [i] on, entry by entry. *)
Lemma match_list_true (l1 l2 : list string) :
  ∀ i, match_list l1 i l2 = Ret true ↔ l2 `prefix_of` drop i l1.
Proof.
  induction l2 as [|x l2 IH]; intros i; cbn.
  - split; [intros _; apply prefix_nil | done].
  - destruct l1 as [|a l1].
    { cbn. rewrite drop_nil. split; [done|]. intros H. by apply prefix_nil_inv in H. }
    rewrite match_inner_spec by done.
    destruct ((a :: l1) !! i) as [y|] eqn:E.
    + rewrite (drop_S _ _ _ E).
      destruct (String.eqb_spec x y) as [->|Hne].
      * rewrite IH. split; [apply prefix_cons | apply prefix_cons_inv_2].
      * split; [done|]. intros H. by apply prefix_cons_inv_1 in H.
    + rewrite drop_ge by (by apply lookup_ge_None_1).
      split; [done|]. intros H. by apply prefix_nil_inv in H.
Qed.

(** X8.  [css_selector_node_match] compares classes and states position
    by position.  It answers TRUE exactly when the id and type tests
    pass and the classes (and the states) of [sn2] are an initial
    segment of those of [sn1]; containment alone is not enough. *)
Theorem node_match_is_prefix_test (sn1 sn2 : css_selector_node_t) :
  css_selector_node_match sn1 sn2 = Ret true ↔
  id_matches sn1 sn2 = true ∧ type_matches sn1 sn2 = true ∧
  sn_classes sn2 `prefix_of` sn_classes sn1 ∧
  sn_status sn2 `prefix_of` sn_status sn1.
Proof.
  unfold css_selector_node_match.
  destruct (id_matches sn1 sn2); cbn; [|split; [done | by intros (? & _)]].
  destruct (type_matches sn1 sn2); cbn; [|split; [done | by intros (_ & ? & _)]].
  pose proof (match_list_true (sn_classes sn1) (sn_classes sn2) 0) as Hc.
  pose proof (match_list_true (sn_status sn1) (sn_status sn2) 0) as Hs.
  rewrite drop_0 in Hc, Hs.
  destruct (match_list (sn_classes sn1) 0 (sn_classes sn2)) as [[|]| |] eqn:Ec.
  - rewrite Hs. split; [intros H; split_and!; try done; by apply Hc | tauto].
  - split; [done|]. intros (_ & _ & H & _). apply Hc in H. done.
  - split; [done|]. intros (_ & _ & H & _). apply Hc in H. done.
  - split; [done|]. intros (_ & _ & H & _). apply Hc in H. done.
Qed.

Example node_match_misses_contained_class :
  css_selector_node_match
    {| sn_id := None; sn_type := None; sn_classes := ["a"; "b"]; sn_status := [];
       sn_fullname := Some ".a.b"; sn_rank := 20 |}
    {| sn_id := None; sn_type := None; sn_classes := ["b"]; sn_status := [];
       sn_fullname := Some ".b"; sn_rank := 10 |} = Ret false.
Proof. reflexivity. Qed.

Lemma match_list_fault (l2 : list string) (x : string) (rest : list string) :
  ∀ pre, pre ++ l2 ≠ [] →
         match_list (pre ++ l2) (List.length pre) (l2 ++ x :: rest) = Fault.
Proof.
  induction l2 as [|y l2 IH]; intros pre Hne; cbn.
  - rewrite app_nil_r in *.
    rewrite match_inner_spec by done.
    by rewrite lookup_ge_None_2 by done.
  - rewrite match_inner_spec by done.
    rewrite list_lookup_middle by done. rewrite String.eqb_refl.
    specialize (IH (pre ++ [y])). rewrite length_app, <- app_assoc in IH. cbn in IH.
    replace (S (List.length pre)) with (List.length pre + 1) by lia.
    apply IH. by destruct pre.
Qed.

(** X9.  When the id and type tests pass and [sn1] has classes that are
    a proper initial segment of those of [sn2], the comparison reaches
    the terminating NULL of [sn1->classes] and hands it to [strcmp]. *)
Theorem node_match_reads_past_classes (sn1 sn2 : css_selector_node_t)
    (x : string) (rest : list string) :
  id_matches sn1 sn2 = true → type_matches sn1 sn2 = true →
  sn_classes sn1 ≠ [] → sn_classes sn2 = sn_classes sn1 ++ x :: rest →
  css_selector_node_match sn1 sn2 = Fault.
Proof.
  intros Hid Hty Hne Hcl. unfold css_selector_node_match.
  rewrite Hid, Hty. cbn. rewrite Hcl.
  pose proof (match_list_fault (sn_classes sn1) x rest [] Hne) as Hf.
  cbn in Hf. by rewrite Hf.
Qed.

Lemma node_match_reads_past_classes_witness :
  css_selector_node_match
    {| sn_id := None; sn_type := Some "p"; sn_classes := ["a"]; sn_status := [];
       sn_fullname := Some "p.a"; sn_rank := 11 |}
    {| sn_id := None; sn_type := Some "*"; sn_classes := ["a"; "b"]; sn_status := [];
       sn_fullname := Some "*.a.b"; sn_rank := 21 |} = Fault.
Proof.
  apply (node_match_reads_past_classes _ _ "b" []); [reflexivity | reflexivity | done | reflexivity].
Defined.

(** ** The hash *)

Lemma list_ascii_of_string_app (a b : string) :
  list_ascii_of_string (a +:+ b) = list_ascii_of_string a ++ list_ascii_of_string b.
Proof.
  induction a as [|x a IH]; [done|].
  rewrite NamesFacts.str_app_cons. cbn. by f_equal.
Qed.

Lemma hash_string_app (h : Z) (a b : string) :
  hash_string h (a +:+ b) = hash_string (hash_string h a) b.
Proof. unfold hash_string. by rewrite list_ascii_of_string_app, foldl_app. Qed.

Lemma hash_nodes_concat (l : list css_selector_node_t) :
  ∀ h, foldl (fun h n => hash_string h (name_of n)) h l
       = hash_string h (foldr (fun n acc => name_of n +:+ acc) "" l).
Proof.
  induction l as [|n l IH]; intros h; cbn [foldl foldr]; [done|].
  by rewrite IH, hash_string_app.
Qed.

Lemma selector_update_hash (s : css_selector_t) :
  sel_hash (css_selector_update s) = hash_string 5381 (names_concat s).
Proof. unfold css_selector_update, names_concat. cbn. apply hash_nodes_concat. Qed.

(** X10.  The hash [css_selector_update] computes runs over the full
    names of the nodes one after the other, with nothing between them:
    two selectors whose full names concatenate to the same string have
    the same hash, however the string is cut into nodes. *)
Theorem selector_hash_ignores_node_boundaries (s1 s2 : css_selector_t) :
  names_concat s1 = names_concat s2 →
  sel_hash (css_selector_update s1) = sel_hash (css_selector_update s2).
Proof. intros H. rewrite !selector_update_hash. by rewrite H. Qed.

Lemma selector_hash_ignores_node_boundaries_witness :
  sel_hash (css_selector_update two_nodes) = sel_hash (css_selector_update one_node).
Proof.
  apply (selector_hash_ignores_node_boundaries two_nodes one_node). reflexivity.
Defined.

(** The descendant selector [a b] and the type selector [ab] share a
    hash, hence a cache entry. *)
Example descendant_and_type_collide :
  sel_length two_nodes = 2 ∧ sel_length one_node = 1 ∧
  sel_hash two_nodes = sel_hash one_node.
Proof. split_and!; vm_compute; reflexivity. Qed.

Lemma hash_char_range (h : Z) (c : ascii) : (0 ≤ hash_char h c < 2 ^ 32)%Z.
Proof. unfold hash_char. apply Z.mod_pos_bound. lia. Qed.

Lemma hash_string_range (s : string) (h : Z) :
  (0 ≤ h < 2 ^ 32)%Z → (0 ≤ hash_string h s < 2 ^ 32)%Z.
Proof.
  unfold hash_string. generalize (list_ascii_of_string s) as cs.
  intros cs. revert h. induction cs as [|c cs IH]; intros h Hh; cbn; [done|].
  apply IH, hash_char_range.
Qed.

(** X11.  [css_selector_append] keeps the hash in step with the node
    list.  On a selector with room left whose hash is the one
    [css_selector_update] computes, the call returns [0], puts the node
    last, and the new hash is again the one [css_selector_update]
    computes; the selector's rank is not touched. *)
Theorem selector_append_keeps_hash (s : css_selector_t) (n : css_selector_node_t) :
  sel_length s = List.length (sel_nodes s) →
  sel_length s < CSS_SELECTOR_MAX_DEPTH →
  sel_hash s = sel_hash (css_selector_update s) →
  is_Some (sn_fullname n) →
  (css_selector_append s n).2 = 0%Z ∧
  sel_nodes (css_selector_append s n).1 = sel_nodes s ++ [n] ∧
  sel_length (css_selector_append s n).1 = sel_length s + 1 ∧
  sel_hash (css_selector_append s n).1
    = sel_hash (css_selector_update (css_selector_append s n).1) ∧
  sel_rank (css_selector_append s n).1 = sel_rank s.
Proof.
  intros Hlen Hroom Hhash _. unfold css_selector_append.
  rewrite decide_False by lia. cbn [fst snd sel_nodes sel_length sel_hash sel_rank].
  rewrite Hlen, firstn_all. split_and!; try done.
  rewrite selector_update_hash. unfold names_concat. cbn [sel_nodes sel_length].
  replace (List.length (sel_nodes s) + 1) with (List.length (sel_nodes s ++ [n]))
    by (rewrite length_app; cbn; lia).
  rewrite firstn_all, foldr_app. cbn [foldr].
  rewrite Hhash, selector_update_hash. unfold names_concat.
  rewrite Hlen, firstn_all.
  rewrite NamesFacts.str_app_nil_r.
  generalize (sel_nodes s) as l. generalize 5381%Z as h.
  intros h l. revert h. induction l as [|m l IH]; intros h; cbn [foldr].
  - done.
  - by rewrite !hash_string_app, IH.
Qed.

Lemma selector_append_keeps_hash_witness :
  (css_selector_append two_nodes (css_selector_node_update
     {| sn_id := None; sn_type := Some "c"; sn_classes := []; sn_status := [];
        sn_fullname := None; sn_rank := 0 |})).2 = 0%Z ∧
  sel_nodes (css_selector_append two_nodes (css_selector_node_update
     {| sn_id := None; sn_type := Some "c"; sn_classes := []; sn_status := [];
        sn_fullname := None; sn_rank := 0 |})).1
    = sel_nodes two_nodes ++ [css_selector_node_update
     {| sn_id := None; sn_type := Some "c"; sn_classes := []; sn_status := [];
        sn_fullname := None; sn_rank := 0 |}] ∧
  sel_length (css_selector_append two_nodes (css_selector_node_update
     {| sn_id := None; sn_type := Some "c"; sn_classes := []; sn_status := [];
        sn_fullname := None; sn_rank := 0 |})).1 = sel_length two_nodes + 1 ∧
  sel_hash (css_selector_append two_nodes (css_selector_node_update
     {| sn_id := None; sn_type := Some "c"; sn_classes := []; sn_status := [];
        sn_fullname := None; sn_rank := 0 |})).1
    = sel_hash (css_selector_update (css_selector_append two_nodes
        (css_selector_node_update
     {| sn_id := None; sn_type := Some "c"; sn_classes := []; sn_status := [];
        sn_fullname := None; sn_rank := 0 |})).1) ∧
  sel_rank (css_selector_append two_nodes (css_selector_node_update
     {| sn_id := None; sn_type := Some "c"; sn_classes := []; sn_status := [];
        sn_fullname := None; sn_rank := 0 |})).1 = sel_rank two_nodes.
Proof.
  apply (selector_append_keeps_hash two_nodes).
  - reflexivity.
  - vm_compute. lia.
  - reflexivity.
  - by eexists.
Defined.

(** ** The parser's invariants *)

Lemma strlist_insert_length (s : string) (l l' : list string) :
  strlist_insert s l = Some l' → List.length l' = S (List.length l).
Proof.
  revert l'. induction l as [|x l IH]; intros l'; cbn.
  - by intros [= <-].
  - destruct (String.compare s x); [done | by intros [= <-] |].
    destruct (strlist_insert s l) as [r|]; [|done].
    intros [= <-]. cbn. by rewrite (IH r).
Qed.

(** What a successful save adds to a node: the part, and its
    specificity. *)
Lemma save_adds_rank (node node' : css_selector_node_t) (name : string)
    (len : nat) (type : ascii) (r : Z) :
  SelectorNode_Save node name len type = (node', r) →
  (0 ≤ r)%Z ∧
  ((0 < r)%Z →
   node_rank (sn_type node') (sn_id node') (sn_classes node') (sn_status node')
   = (node_rank (sn_type node) (sn_id node) (sn_classes node) (sn_status node) + r)%Z ∧
   has_part node').
Proof.
  unfold SelectorNode_Save, has_part, node_rank, strlist_sorted_add.
  destruct (decide (len < 1)); [intros [= <- <-]; split; [done | lia]|].
  destruct (Ascii.eqb type Ascii.zero).
  { destruct (sn_type node) eqn:Et; intros [= <- <-]; (split; [done|]); [lia|].
    intros _. cbn. rewrite ?Et. split; [destruct (sn_id node); lia | left; by eexists]. }
  destruct (Ascii.eqb type ":").
  { destruct (strlist_insert name (sn_status node)) as [l|] eqn:El; cbn;
      intros [= <- <-]; (split; [done|]); [|lia].
    intros _. cbn. rewrite (strlist_insert_length _ _ _ El).
    split; [unfold PCLASS_RANK; lia|]. right; right; right.
    apply strlist_insert_length in El. by destruct l. }
  destruct (Ascii.eqb type ".").
  { destruct (strlist_insert name (sn_classes node)) as [l|] eqn:El; cbn;
      intros [= <- <-]; (split; [done|]); [|lia].
    intros _. cbn. rewrite (strlist_insert_length _ _ _ El).
    split; [unfold CLASS_RANK; lia|]. right; right; left.
    apply strlist_insert_length in El. by destruct l. }
  destruct (Ascii.eqb type "#").
  { destruct (sn_id node) eqn:Ei; intros [= <- <-]; (split; [done|]); [lia|].
    intros _. cbn. rewrite ?Ei. split; [destruct (sn_type node); lia | right; left; by eexists]. }
  intros [= <- <-]. split; [done | lia].
Qed.

Lemma has_part_name_len (n : css_selector_node_t) :
  has_part n →
  0 < node_name_len (sn_type n) (sn_id n) (sn_classes n) (sn_status n).
Proof.
  unfold has_part, node_name_len.
  intros [[t Ht]|[[i Hi]|[Hc|Hs]]].
  - rewrite Ht. lia.
  - rewrite Hi. lia.
  - destruct (sn_classes n); [done|]. cbn. lia.
  - destruct (sn_status n); [done|]. cbn. lia.
Qed.

Lemma update_up_to_date (n : css_selector_node_t) :
  has_part n →
  up_to_date (css_selector_node_update n) ∧ has_part (css_selector_node_update n).
Proof.
  intros Hp. unfold up_to_date, css_selector_node_update. cbn.
  rewrite decide_True by (by apply has_part_name_len). done.
Qed.

Lemma ranks_app (l : list css_selector_node_t) (n : css_selector_node_t) :
  ranks (l ++ [n]) = (ranks l + sn_rank n)%Z.
Proof. unfold ranks. induction l as [|m l IH]; cbn; [lia|]. rewrite IH. lia. Qed.

Lemma node_rank_nonneg (t i : option string) (cs ss : list string) :
  (0 ≤ node_rank t i cs ss)%Z.
Proof. unfold node_rank, ID_RANK, TYPE_RANK, CLASS_RANK, PCLASS_RANK. destruct t, i; lia. Qed.

Lemma pending_rank_nonneg (st : parser_t) : (0 ≤ pending_rank st)%Z.
Proof. unfold pending_rank. destruct (p_node st); [apply node_rank_nonneg | done]. Qed.

(** The allocation at the head of the loop body. *)
Lemma enter_node_inv (st st1 : parser_t) :
  parser_inv st → enter_node st = Some st1 →
  parser_inv st1 ∧ p_nodes st1 = p_nodes st ∧ p_rank st1 = p_rank st ∧
  p_name st1 = p_name st ∧ p_type st1 = p_type st ∧
  p_is_saving st1 = p_is_saving st ∧
  (p_is_saving st1 = true → is_Some (p_node st1)).
Proof.
  intros Hinv. pose proof Hinv as (Hn & Hr & Hl & Hroom). unfold enter_node.
  destruct (p_node st) as [node|] eqn:En.
  - intros [= <-]. rewrite ?En. split_and!; try done; try (intros _; by eexists).
  - destruct (p_is_saving st) eqn:Es.
    + case_decide as Hfull; [done|]. intros [= <-]. cbn.
      split_and!; try done; try (intros _; by eexists).
      unfold parser_inv, pending_rank in *. cbn [p_nodes p_node p_rank]. rewrite En in Hr.
      split_and!; try done. intros _. unfold si in Hfull. lia.
    + intros [= <-]. rewrite ?Es. split_and!; try done.
Qed.

(** The node under construction is closed after a successful save. *)
Lemma close_node_inv (st : parser_t) (node node' : css_selector_node_t) (r : Z)
    (name : string) (type : ascii) (saving : bool) :
  parser_inv st → p_node st = Some node →
  SelectorNode_Save node (p_name st) (ni st) (p_type st) = (node', r) →
  (0 < r)%Z →
  parser_inv {| p_name := name; p_type := type; p_is_saving := saving;
                p_node := None; p_rank := (p_rank st + r)%Z;
                p_nodes := p_nodes st ++ [css_selector_node_update node'] |}.
Proof.
  intros (Hn & Hr & Hl & Hroom) En Hsave Hpos.
  destruct (save_adds_rank _ _ _ _ _ _ Hsave) as [_ Hadd].
  destruct (Hadd Hpos) as [Hrank Hpart].
  unfold parser_inv, pending_rank in *. cbn [p_nodes p_node p_rank]. rewrite En in Hr.
  split_and!.
  - apply Forall_app. split; [done|]. constructor; [|done].
    by apply update_up_to_date.
  - rewrite ranks_app. cbn. lia.
  - rewrite length_app. cbn. specialize (Hroom ltac:(by eexists)). lia.
  - by intros [? ?].
Qed.

(** The node under construction takes one more part. *)
Lemma extend_node_inv (st : parser_t) (node node' : css_selector_node_t) (r : Z)
    (name : string) (type : ascii) (saving : bool) :
  parser_inv st → p_node st = Some node →
  SelectorNode_Save node (p_name st) (ni st) (p_type st) = (node', r) →
  (0 < r)%Z →
  parser_inv {| p_name := name; p_type := type; p_is_saving := saving;
                p_node := Some node'; p_rank := (p_rank st + r)%Z;
                p_nodes := p_nodes st |}.
Proof.
  intros (Hn & Hr & Hl & Hroom) En Hsave Hpos.
  destruct (save_adds_rank _ _ _ _ _ _ Hsave) as [_ Hadd].
  destruct (Hadd Hpos) as [Hrank Hpart].
  unfold parser_inv, pending_rank in *. cbn [p_nodes p_node p_rank]. rewrite En in Hr.
  split_and!; try done; [lia|].
  intros _. apply Hroom. by eexists.
Qed.

(** The node under construction is dropped, or there was none. *)
Lemma drop_node_inv (st : parser_t) (name : string) (type : ascii) (saving : bool) :
  parser_inv st →
  parser_inv {| p_name := name; p_type := type; p_is_saving := saving;
                p_node := None; p_rank := p_rank st; p_nodes := p_nodes st |}.
Proof.
  intros (Hn & Hr & Hl & Hroom).
  pose proof (pending_rank_nonneg st).
  unfold parser_inv, pending_rank in *. cbn [p_nodes p_node p_rank].
  split_and!; try done; try lia; try (by intros [? ?]).
Qed.

(** Nothing but the scratch name or the flags changes. *)
Lemma keep_node_inv (st : parser_t) (name : string) (type : ascii) (saving : bool) :
  parser_inv st →
  parser_inv {| p_name := name; p_type := type; p_is_saving := saving;
                p_node := p_node st; p_rank := p_rank st; p_nodes := p_nodes st |}.
Proof. intros H. exact H. Qed.

Lemma parse_char_inv (c : ascii) (st st' : parser_t) :
  parser_inv st → parse_char c st = inl st' → parser_inv st'.
Proof.
  intros Hinv. unfold parse_char.
  destruct (enter_node st) as [st1|] eqn:Ee; [|done].
  destruct (enter_node_inv st st1 Hinv Ee) as (Hinv1 & _ & _ & _ & _ & _ & Hnode).
  destruct (Ascii.eqb c ":" || Ascii.eqb c "." || Ascii.eqb c "#")%bool.
  { destruct (p_is_saving st1) eqn:Es; cbn.
    - destruct (Hnode eq_refl) as [node En]. rewrite En.
      destruct (SelectorNode_Save node (p_name st1) (ni st1) (p_type st1))
        as [node' r] eqn:Hsave.
      destruct (Z.ltb_spec 0 r); intros [= <-].
      + by eapply extend_node_inv.
      + by apply drop_node_inv.
    - intros [= <-]. by apply keep_node_inv. }
  destruct (is_white_space c).
  { destruct (p_is_saving st1) eqn:Es; cbn.
    - destruct (Hnode eq_refl) as [node En]. rewrite En.
      destruct (SelectorNode_Save node (p_name st1) (ni st1) (p_type st1))
        as [node' r] eqn:Hsave.
      destruct (Z.ltb_spec 0 r); intros [= <-].
      + by eapply close_node_inv.
      + by apply drop_node_inv.
    - intros [= <-]. by apply drop_node_inv. }
  destruct (is_name_char c); [|done].
  case_decide; [done|]. intros [= <-]. by apply keep_node_inv.
Qed.

Lemma parse_chars_inv (cs : list ascii) :
  ∀ st st', parser_inv st → parse_chars cs st = inl st' → parser_inv st'.
Proof.
  induction cs as [|c cs IH]; intros st st' Hinv; cbn.
  - by intros [= <-].
  - destruct (parse_char c st) as [st1|] eqn:Ec; [|done].
    apply IH. by eapply parse_char_inv.
Qed.

(** The scanning loop leaves early only with NULL or on the overrun of
    the name buffer. *)
Lemma parse_char_early (c : ascii) (st : parser_t) (r : create_result) :
  parse_char c st = inr r → r = Rejected ∨ r = Undefined.
Proof.
  unfold parse_char.
  destruct (enter_node st) as [st1|]; [|intros [= <-]; by left].
  destruct (Ascii.eqb c ":" || Ascii.eqb c "." || Ascii.eqb c "#")%bool.
  { destruct (negb (p_is_saving st1)); [done|].
    destruct (p_node st1) as [node|]; [|intros [= <-]; by right].
    destruct (SelectorNode_Save node (p_name st1) (ni st1) (p_type st1)) as [node' k].
    by destruct (0 <? k)%Z. }
  destruct (is_white_space c).
  { destruct (negb (p_is_saving st1)); [done|].
    destruct (p_node st1) as [node|]; [|intros [= <-]; by right].
    destruct (SelectorNode_Save node (p_name st1) (ni st1) (p_type st1)) as [node' k].
    by destruct (0 <? k)%Z. }
  destruct (is_name_char c); [|intros [= <-]; by left].
  case_decide; [intros [= <-]; by right | done].
Qed.

Lemma parse_chars_early (cs : list ascii) :
  ∀ st r, parse_chars cs st = inr r → r = Rejected ∨ r = Undefined.
Proof.
  induction cs as [|c cs IH]; intros st r; cbn; [done|].
  destruct (parse_char c st) as [st1|r1] eqn:Ec.
  - apply IH.
  - intros [= <-]. by eapply parse_char_early.
Qed.

Lemma initial_parser_inv :
  parser_inv {| p_name := ""; p_type := Ascii.zero; p_is_saving := false;
                p_node := None; p_rank := 0; p_nodes := [] |}.
Proof.
  unfold parser_inv, pending_rank, CSS_SELECTOR_MAX_DEPTH. cbn.
  split_and!; [constructor | done | lia | by intros [? ?]].
Qed.

(** What [css_selector_create] returns for a text it accepts: the
    finished nodes and the running rank of a state that satisfies the
    invariant, closed by [css_selector_update]. *)
Lemma selector_create_inv (b b' : Z) (text : string) (s : css_selector_t) :
  css_selector_create b (Some text) = (Created s, b') →
  b' = int_incr b ∧
  ∃ nodes rank,
    s = css_selector_update
          {| sel_rank := rank; sel_batch_num := int_incr b;
             sel_length := List.length nodes; sel_hash := 0%Z; sel_nodes := nodes |} ∧
    Forall (fun n => up_to_date n ∧ has_part n) nodes ∧
    (ranks nodes ≤ rank)%Z ∧
    List.length nodes ≤ CSS_SELECTOR_MAX_DEPTH.
Proof.
  unfold css_selector_create.
  destruct (parse_chars (list_ascii_of_string text) _) as [st|r] eqn:Ep.
  2:{ intros [= -> <-]. by destruct (parse_chars_early _ _ _ Ep). }
  pose proof (parse_chars_inv _ _ _ initial_parser_inv Ep) as Hinv.
  intros [= Hfin <-]. split; [done|].
  unfold parse_finish in Hfin.
  destruct (p_is_saving st) eqn:Es.
  - destruct (enter_node st) as [st1|] eqn:Ee; [|done].
    destruct (enter_node_inv st st1 Hinv Ee) as (Hinv1 & _ & _ & _ & _ & Hs1 & Hnode).
    rewrite Hs1 in Hnode. destruct (Hnode Es) as [node En]. rewrite En in Hfin.
    destruct (SelectorNode_Save node (p_name st1) (ni st1) (p_type st1))
      as [node' r] eqn:Hsave.
    destruct (Z.ltb_spec 0 r) as [Hpos|Hle].
    + injection Hfin as <-.
      pose proof (close_node_inv st1 node node' r "" Ascii.zero false Hinv1 En Hsave Hpos)
        as (Hn & Hr & Hl & _).
      unfold pending_rank in Hr. cbn [p_nodes p_node p_rank] in Hn, Hr, Hl.
      eexists _, _. split; [reflexivity|]. split_and!; [done | lia | done].
    + injection Hfin as <-.
      destruct Hinv1 as (Hn & Hr & Hl & _).
      pose proof (pending_rank_nonneg st1).
      eexists _, _. split; [reflexivity|]. split_and!; [done | lia | done].
  - injection Hfin as <-.
    destruct Hinv as (Hn & Hr & Hl & _).
    pose proof (pending_rank_nonneg st).
    eexists _, _. split; [reflexivity|]. split_and!; [done | lia | done].
Qed.

(** X12.  Every node of a selector [css_selector_create] returns is up to
    date and not empty: its rank is [100] for an id, [1] for a type and
    [10] for each class and each state, and its full name is present and
    is the concatenation of its parts. *)
Theorem parsed_nodes_up_to_date (b b' : Z) (text : string) (s : css_selector_t) :
  css_selector_create b (Some text) = (Created s, b') →
  Forall (fun n =>
            sn_rank n = ((match sn_id n with Some _ => 100 | None => 0 end)
                         + (match sn_type n with Some _ => 1 | None => 0 end)
                         + 10 * Z.of_nat (List.length (sn_classes n))
                         + 10 * Z.of_nat (List.length (sn_status n)))%Z ∧
            sn_fullname n = Some (node_fullname (sn_type n) (sn_id n)
                                                (sn_classes n) (sn_status n)) ∧
            has_part n)
         (sel_nodes s).
Proof.
  intros Hrun.
  destruct (selector_create_inv b b' text s Hrun) as (_ & nodes & rank & -> & Hn & _ & _).
  cbn. eapply Forall_impl; [exact Hn|].
  intros n [[Hr Hf] Hp]. split_and!; [|done|done].
  rewrite Hr. unfold node_rank, ID_RANK, TYPE_RANK, CLASS_RANK, PCLASS_RANK.
  by destruct (sn_id n), (sn_type n).
Qed.

Lemma parsed_nodes_up_to_date_witness :
  Forall (fun n =>
            sn_rank n = ((match sn_id n with Some _ => 100 | None => 0 end)
                         + (match sn_type n with Some _ => 1 | None => 0 end)
                         + 10 * Z.of_nat (List.length (sn_classes n))
                         + 10 * Z.of_nat (List.length (sn_status n)))%Z ∧
            sn_fullname n = Some (node_fullname (sn_type n) (sn_id n)
                                                (sn_classes n) (sn_status n)) ∧
            has_part n)
         (sel_nodes long_selector).
Proof.
  apply (parsed_nodes_up_to_date 0 1 "section.main article#top  p.a.b:hover:focus").
  vm_compute. reflexivity.
Defined.

(** The counter stays an [int]; below [INT_MAX] it is the successor,
    and at [INT_MAX] it starts again from [INT_MIN]. *)
Lemma int_incr_range (n : Z) : (- 2 ^ 31 ≤ int_incr n < 2 ^ 31)%Z.
Proof.
  unfold int_incr. pose proof (Z.mod_pos_bound (n + 1 + 2 ^ 31) (2 ^ 32)). lia.
Qed.

Lemma int_incr_next (n : Z) :
  (- 2 ^ 31 ≤ n < 2 ^ 31 - 1)%Z → int_incr n = (n + 1)%Z.
Proof. intros Hn. unfold int_incr. rewrite Z.mod_small; lia. Qed.

Lemma int_incr_wraps : int_incr (2 ^ 31 - 1) = (- 2 ^ 31)%Z.
Proof. reflexivity. Qed.

(** X13.  The record [css_selector_create] returns is consistent:
    [length] is the number of nodes and at most [CSS_SELECTOR_MAX_DEPTH],
    the batch number is the static counter after [++batch_num] on an
    [int], which is also the counter's new value, and the hash is the
    32-bit rolling hash of the concatenated full names, started at
    [5381]. *)
Theorem parsed_selector_shape (b b' : Z) (text : string) (s : css_selector_t) :
  css_selector_create b (Some text) = (Created s, b') →
  sel_length s = List.length (sel_nodes s) ∧
  sel_length s ≤ CSS_SELECTOR_MAX_DEPTH ∧
  sel_batch_num s = int_incr b ∧ b' = int_incr b ∧
  (- 2 ^ 31 ≤ sel_batch_num s < 2 ^ 31)%Z ∧
  sel_hash s = hash_string 5381 (names_concat s) ∧
  (0 ≤ sel_hash s < 2 ^ 32)%Z.
Proof.
  intros Hrun.
  destruct (selector_create_inv b b' text s Hrun) as (-> & nodes & rank & -> & _ & _ & Hl).
  assert (Hh : sel_hash (css_selector_update
                 {| sel_rank := rank; sel_batch_num := int_incr b;
                    sel_length := List.length nodes; sel_hash := 0%Z;
                    sel_nodes := nodes |})
               = hash_string 5381 (names_concat
                   (css_selector_update
                      {| sel_rank := rank; sel_batch_num := int_incr b;
                         sel_length := List.length nodes; sel_hash := 0%Z;
                         sel_nodes := nodes |}))).
  { rewrite selector_update_hash. reflexivity. }
  pose proof (int_incr_range b).
  split_and!; try done; try (cbn; lia).
  - rewrite Hh. apply hash_string_range. lia.
  - rewrite Hh. apply hash_string_range. lia.
Qed.

Lemma parsed_selector_shape_witness :
  sel_length long_selector = List.length (sel_nodes long_selector) ∧
  sel_length long_selector ≤ CSS_SELECTOR_MAX_DEPTH ∧
  sel_batch_num long_selector = int_incr 0 ∧ 1%Z = int_incr 0 ∧
  (- 2 ^ 31 ≤ sel_batch_num long_selector < 2 ^ 31)%Z ∧
  sel_hash long_selector = hash_string 5381 (names_concat long_selector) ∧
  (0 ≤ sel_hash long_selector < 2 ^ 32)%Z.
Proof.
  apply (parsed_selector_shape 0 1 "section.main article#top  p.a.b:hover:focus").
  vm_compute. reflexivity.
Defined.



(** ** Characters the parser has no meaning for *)

Lemma enter_node_saving (st st1 : parser_t) :
  enter_node st = Some st1 →
  ni st1 = ni st ∧ (p_is_saving st1 = true → is_Some (p_node st1)).
Proof.
  unfold enter_node.
  destruct (p_node st) as [node|] eqn:En.
  - intros [= <-]. rewrite En. split; [done | by eexists].
  - destruct (p_is_saving st) eqn:Es.
    + case_decide; [done|]. intros [= <-]. split; [done | by eexists].
    + intros [= <-]. by rewrite Es.
Qed.

(** One round on a short name: the only early exit is NULL, it is taken
    on a character outside the parser's alphabet, and the scratch name
    grows by one character at most. *)
Lemma parse_char_short (c : ascii) (st : parser_t) :
  ni st + 1 < MAX_NAME_LEN →
  match parse_char c st with
  | inl st' => is_selector_char c = true ∧ ni st' ≤ ni st + 1
  | inr r => r = Rejected
  end.
Proof.
  intros Hni. unfold parse_char, is_selector_char.
  destruct (enter_node st) as [st1|] eqn:Ee; [|done].
  destruct (enter_node_saving st st1 Ee) as [Hn Hnode].
  destruct (Ascii.eqb c ":" || Ascii.eqb c "." || Ascii.eqb c "#")%bool eqn:Ep.
  { destruct (p_is_saving st1) eqn:Es; cbn [negb].
    - destruct (Hnode eq_refl) as [node En]. rewrite En.
      destruct (SelectorNode_Save node (p_name st1) (ni st1) (p_type st1)) as [node' k].
      destruct (0 <? k)%Z; (split; [done | unfold ni; cbn; lia]).
    - split; [done | unfold ni in *; cbn; lia]. }
  destruct (is_white_space c) eqn:Ew.
  { destruct (p_is_saving st1) eqn:Es; cbn [negb].
    - destruct (Hnode eq_refl) as [node En]. rewrite En.
      destruct (SelectorNode_Save node (p_name st1) (ni st1) (p_type st1)) as [node' k].
      destruct (0 <? k)%Z; (split; [by rewrite orb_true_r | unfold ni; cbn; lia]).
    - split; [by rewrite orb_true_r | unfold ni; cbn; lia]. }
  destruct (is_name_char c) eqn:En; [|done].
  rewrite decide_False by (unfold ni in *; lia).
  split; [done|]. unfold ni in *. cbn [p_name].
  rewrite NamesFacts.str_app_length. cbn. lia.
Qed.

Lemma parse_chars_rejects (cs : list ascii) :
  ∀ st, ni st + List.length cs < MAX_NAME_LEN →
        Exists (fun c => is_selector_char c = false) cs →
        parse_chars cs st = inr Rejected.
Proof.
  induction cs as [|c cs IH]; intros st Hlen Hbad; [by apply Exists_nil in Hbad|].
  cbn [parse_chars]. cbn [List.length] in Hlen.
  pose proof (parse_char_short c st ltac:(lia)) as Hstep.
  destruct (parse_char c st) as [st'|r].
  - destruct Hstep as [Hc Hni]. apply Exists_cons in Hbad as [Hbad|Hbad]; [congruence|].
    apply IH; [lia | done].
  - by rewrite Hstep.
Qed.

Lemma list_ascii_length (s : string) :
  List.length (list_ascii_of_string s) = String.length s.
Proof. induction s as [|c s IH]; [done|]. cbn. by rewrite IH. Qed.

(** X15.  [css_selector_create] has no combinators, lists or attribute
    tests.  A text of fewer than 256 characters that holds a character
    other than a name character, white space, [:], [.] or [#] is
    answered with NULL; the static [int] counter has been advanced by
    [++batch_num] all the same. *)
Theorem selector_create_rejects (b : Z) (text : string) :
  String.length text < MAX_NAME_LEN →
  Exists (fun c => is_selector_char c = false) (list_ascii_of_string text) →
  css_selector_create b (Some text) = (Rejected, int_incr b).
Proof.
  intros Hlen Hbad. unfold css_selector_create.
  rewrite parse_chars_rejects; [done | | done].
  rewrite list_ascii_length. unfold ni. cbn. lia.
Qed.

Lemma selector_create_rejects_witness :
  css_selector_create (2 ^ 31 - 1) (Some "ul > li") = (Rejected, (- 2 ^ 31)%Z).
Proof.
  apply (selector_create_rejects (2 ^ 31 - 1) "ul > li").
  - vm_compute. lia.
  - apply Exists_cons_tl, Exists_cons_tl, Exists_cons_tl, Exists_cons_hd. reflexivity.
Defined.

(** ** [css_selector_duplicate] *)

Lemma copy_name (n : css_selector_node_t) :
  name_of (css_selector_node_copy n) = name_of n.
Proof. reflexivity. Qed.

(** X16.  [css_selector_duplicate] copies the selector's rank, batch
    number, length and hash and, node by node, the id, the type and the
    full name, so the copied hash is still the hash of the copy's names;
    the nodes' own ranks are not copied and read [0]; and the call
    advances the static [int] counter of [css_selector_create] although
    the copy keeps the original's batch number. *)
Theorem selector_duplicate_spec (b : Z) (s : css_selector_t) :
  sel_length s = List.length (sel_nodes s) →
  sel_hash s = sel_hash (css_selector_update s) →
  ∃ d,
    css_selector_duplicate b s = (Some d, int_incr b) ∧
    sel_rank d = sel_rank s ∧ sel_batch_num d = sel_batch_num s ∧
    sel_length d = sel_length s ∧ sel_length d = List.length (sel_nodes d) ∧
    sel_hash d = sel_hash s ∧ sel_hash d = sel_hash (css_selector_update d) ∧
    map sn_id (sel_nodes d) = map sn_id (sel_nodes s) ∧
    map sn_type (sel_nodes d) = map sn_type (sel_nodes s) ∧
    map sn_fullname (sel_nodes d) = map sn_fullname (sel_nodes s) ∧
    Forall (fun n => sn_rank n = 0%Z) (sel_nodes d).
Proof.
  intros Hlen Hhash. unfold css_selector_duplicate.
  rewrite decide_True by lia. eexists. split; [reflexivity|].
  cbn [sel_rank sel_batch_num sel_length sel_hash sel_nodes].
  rewrite Hlen, firstn_all.
  split_and!; try done.
  - by rewrite length_map.
  - rewrite Hhash, !selector_update_hash. unfold names_concat.
    cbn [sel_nodes sel_length]. rewrite Hlen.
    rewrite <- (length_map css_selector_node_copy) at 2. rewrite !firstn_all.
    f_equal. clear. induction (sel_nodes s) as [|n l IH]; [done|].
    cbn [map foldr]. by rewrite copy_name, IH.
  - rewrite <- list_fmap_compose. done.
  - rewrite <- list_fmap_compose. done.
  - rewrite <- list_fmap_compose. done.
  - apply Forall_fmap, Forall_true. done.
Qed.

Lemma selector_duplicate_spec_witness :
  ∃ d,
    css_selector_duplicate 1 long_selector = (Some d, 2%Z) ∧
    sel_rank d = sel_rank long_selector ∧
    sel_batch_num d = sel_batch_num long_selector ∧
    sel_length d = sel_length long_selector ∧
    sel_length d = List.length (sel_nodes d) ∧
    sel_hash d = sel_hash long_selector ∧
    sel_hash d = sel_hash (css_selector_update d) ∧
    map sn_id (sel_nodes d) = map sn_id (sel_nodes long_selector) ∧
    map sn_type (sel_nodes d) = map sn_type (sel_nodes long_selector) ∧
    map sn_fullname (sel_nodes d) = map sn_fullname (sel_nodes long_selector) ∧
    Forall (fun n => sn_rank n = 0%Z) (sel_nodes d).
Proof.
  apply (selector_duplicate_spec 1 long_selector); vm_compute; reflexivity.
Defined.

End SelectorFacts.
(* ===================================================================== *)
(** * The name expansion as a set, its duplicates, its return value *)
(* ===================================================================== *)

Module ExpansionFacts.
Import Selector Collector Names Selections.

Local Ltac in_app H :=
  repeat (apply elem_of_app in H as [H|H]).

(** The conjuncts of [selection] in the cases below. *)
Local Ltac sel_parts :=
  split_and!;
  first [ done | apply sublist_nil_l | by left | by right
        | left; by eexists | right; left; by eexists
        | right; right; by left | right; right; by right
        | right; right; tauto ].

(** ** Every generated name is a selection of the node's parts *)

Lemma status_2_names_inv (sts : list string) :
  ∀ nm n, n ∈ status_2_names nm sts →
          ∃ ss, sublist ss sts ∧ ss ≠ [] ∧ n = nm +:+ cat_prefixed ":" ss.
Proof.
  induction sts as [|s sts IH]; intros nm n Hn; cbn [status_2_names] in Hn.
  - by apply elem_of_nil in Hn.
  - apply elem_of_cons in Hn as [->|Hn]; [|apply elem_of_app in Hn as [Hn|Hn]].
    + exists [s]. split; [apply sublist_skip, sublist_nil_l|]. split; [done|].
      rewrite NamesFacts.cat_prefixed_cons. cbn [cat_prefixed fold_right].
      by rewrite NamesFacts.str_app_nil_r.
    + destruct (IH _ _ Hn) as (ss & Hsub & Hne & ->).
      exists (s :: ss). split; [by apply sublist_skip|]. split; [done|].
      by rewrite NamesFacts.cat_prefixed_cons, NamesFacts.str_app_3.
    + destruct (IH _ _ Hn) as (ss & Hsub & Hne & ->).
      exists ss. split; [by apply sublist_cons|]. done.
Qed.

Lemma class_2_names_inv (status cls : list string) :
  ∀ nm n, n ∈ class_2_names status nm cls →
          ∃ cs ss, sublist cs cls ∧ cs ≠ [] ∧ sublist ss status ∧
                   n = nm +:+ cat_prefixed "." cs +:+ cat_prefixed ":" ss.
Proof.
  induction cls as [|c cls IH]; intros nm n Hn; cbn [class_2_names] in Hn.
  - by apply elem_of_nil in Hn.
  - apply elem_of_cons in Hn as [->|Hn]; [|in_app Hn].
    + exists [c], []. split; [apply sublist_skip, sublist_nil_l|]. split; [done|].
      split; [apply sublist_nil_l|].
      rewrite NamesFacts.cat_prefixed_cons. cbn [cat_prefixed fold_right].
      by rewrite !NamesFacts.str_app_nil_r.
    + destruct (IH _ _ Hn) as (cs & ss & Hsub & Hne & Hss & ->).
      exists (c :: cs), ss. split; [by apply sublist_skip|]. split; [done|].
      split; [done|]. by rewrite NamesFacts.cat_prefixed_cons, NamesFacts.str_app_4.
    + destruct (status_2_names_inv _ _ _ Hn) as (ss & Hss & Hne & ->).
      exists [c], ss. split; [apply sublist_skip, sublist_nil_l|]. split; [done|].
      split; [done|].
      rewrite NamesFacts.cat_prefixed_cons, NamesFacts.str_app_4.
      cbn [cat_prefixed fold_right]. by rewrite NamesFacts.str_app_nil_l.
    + destruct (IH _ _ Hn) as (cs & ss & Hsub & Hne & Hss & ->).
      exists cs, ss. split; [by apply sublist_cons|]. done.
Qed.

Lemma sublist_tail (l : list string) : sublist (tail l) l.
Proof. destruct l; [done|]. by apply sublist_cons. Qed.

Lemma class_names_inv (status cls : list string) :
  ∀ nm n, n ∈ class_names status nm cls →
          ∃ cs ss, sublist cs cls ∧ cs ≠ [] ∧ sublist ss status ∧
                   n = nm +:+ cat_prefixed "." cs +:+ cat_prefixed ":" ss.
Proof.
  induction cls as [|c cls IH]; intros nm n Hn; cbn [class_names] in Hn.
  - by apply elem_of_nil in Hn.
  - apply elem_of_cons in Hn as [->|Hn]; [|in_app Hn].
    + exists [c], []. split; [apply sublist_skip, sublist_nil_l|]. split; [done|].
      split; [apply sublist_nil_l|].
      rewrite NamesFacts.cat_prefixed_cons. cbn [cat_prefixed fold_right].
      by rewrite !NamesFacts.str_app_nil_r.
    + destruct (class_2_names_inv _ _ _ _ Hn) as (cs & ss & Hsub & Hne & Hss & ->).
      exists (c :: cs), ss. split; [by apply sublist_skip|]. split; [done|].
      split; [done|]. by rewrite NamesFacts.cat_prefixed_cons, NamesFacts.str_app_4.
    + destruct (status_2_names_inv _ _ _ Hn) as (ss & Hss & Hne & ->).
      exists [c], ss. split; [apply sublist_skip, sublist_nil_l|]. split; [done|].
      split; [done|].
      rewrite NamesFacts.cat_prefixed_cons, NamesFacts.str_app_4.
      cbn [cat_prefixed fold_right]. by rewrite NamesFacts.str_app_nil_l.
    + destruct (status_2_names_inv _ _ _ Hn) as (ss & Hss & Hne & ->).
      exists [c], ss. split; [apply sublist_skip, sublist_nil_l|]. split; [done|].
      split; [etrans; [exact Hss | apply sublist_tail]|].
      rewrite NamesFacts.cat_prefixed_cons, NamesFacts.str_app_4.
      cbn [cat_prefixed fold_right]. by rewrite NamesFacts.str_app_nil_l.
    + destruct (IH _ _ Hn) as (cs & ss & Hsub & Hne & Hss & ->).
      exists cs, ss. split; [by apply sublist_cons|]. done.
Qed.

(** The names behind a prefix [nm]: classes and states only. *)
Lemma tail_names_inv (sn : css_selector_node_t) (nm n : string) :
  n ∈ class_names (sn_status sn) nm (sn_classes sn) ++ status_2_names nm (sn_status sn) →
  ∃ cs ss, sublist cs (sn_classes sn) ∧ sublist ss (sn_status sn) ∧
           (cs ≠ [] ∨ ss ≠ []) ∧
           n = nm +:+ cat_prefixed "." cs +:+ cat_prefixed ":" ss.
Proof.
  intros Hn. apply elem_of_app in Hn as [Hn|Hn].
  - destruct (class_names_inv _ _ _ _ Hn) as (cs & ss & Hcs & Hne & Hss & ->).
    exists cs, ss. split_and!; try done. by left.
  - destruct (status_2_names_inv _ _ _ Hn) as (ss & Hss & Hne & ->).
    exists [], ss. split_and!; try done; [apply sublist_nil_l | by right].
Qed.

Lemma tail_names_sel (sn : css_selector_node_t) (nm : string) (cs ss : list string) :
  sublist cs (sn_classes sn) → sublist ss (sn_status sn) → cs ≠ [] ∨ ss ≠ [] →
  nm +:+ cat_prefixed "." cs +:+ cat_prefixed ":" ss
    ∈ class_names (sn_status sn) nm (sn_classes sn) ++ status_2_names nm (sn_status sn).
Proof.
  intros Hcs Hss Hne. apply elem_of_app.
  destruct cs as [|c cs].
  - right. cbn [cat_prefixed fold_right]. rewrite NamesFacts.str_app_nil_l.
    apply NamesFacts.status_2_names_sublist; [done|]. by destruct Hne.
  - left. by apply NamesFacts.class_names_sublist.
Qed.

Lemma id_names_inv (sn : css_selector_node_t) (nm n : string) :
  n ∈ id_names sn nm →
  ∃ i cs ss, sn_id sn = Some i ∧ sublist cs (sn_classes sn) ∧
             sublist ss (sn_status sn) ∧
             n = nm +:+ "#" +:+ i +:+ cat_prefixed "." cs +:+ cat_prefixed ":" ss.
Proof.
  unfold id_names. destruct (sn_id sn) as [i|]; intros Hn;
    [|by apply elem_of_nil in Hn].
  apply elem_of_cons in Hn as [->|Hn].
  - exists i, [], []. split_and!; try done; try apply sublist_nil_l.
    cbn [cat_prefixed fold_right]. by rewrite !NamesFacts.str_app_nil_r.
  - destruct (tail_names_inv sn _ _ Hn) as (cs & ss & Hcs & Hss & _ & ->).
    exists i, cs, ss. split_and!; try done. by rewrite NamesFacts.str_app_5.
Qed.

Lemma id_names_sel (sn : css_selector_node_t) (nm i : string) (cs ss : list string) :
  sn_id sn = Some i → sublist cs (sn_classes sn) → sublist ss (sn_status sn) →
  nm +:+ "#" +:+ i +:+ cat_prefixed "." cs +:+ cat_prefixed ":" ss ∈ id_names sn nm.
Proof.
  intros Hi Hcs Hss. unfold id_names. rewrite Hi, NamesFacts.str_app_5.
  destruct (decide (cs = [] ∧ ss = [])) as [[-> ->]|Hne].
  - cbn [cat_prefixed fold_right]. rewrite !NamesFacts.str_app_nil_r. by left.
  - right. apply tail_names_sel; [done..|].
    destruct cs; [right; destruct ss; [by destruct Hne | done] | by left].
Qed.

(** Every selection of the node's parts is generated. *)
Lemma selection_generated (sn : css_selector_node_t) (ot oi : option string)
    (cs ss : list string) :
  selection sn ot oi cs ss →
  node_fullname ot oi cs ss ∈ (css_selector_node_get_name_list sn []).1.
Proof.
  rewrite NamesFacts.get_name_list_defined. cbn [fst app].
  unfold node_names, type_names, selection, node_fullname.
  intros (Hot & Hoi & Hcs & Hss & Hne).
  destruct ot as [t|], oi as [i|].
  + destruct Hot as [|Hot]; [done|]. destruct Hoi as [|Hoi]; [done|].
    rewrite <- Hot. apply elem_of_app. left. right. apply elem_of_app. left.
    rewrite !NamesFacts.str_app_assoc.
    by apply id_names_sel.
  + destruct Hot as [|Hot]; [done|]. rewrite <- Hot.
    apply elem_of_app. left. rewrite NamesFacts.str_app_nil_l.
    destruct (decide (cs = [] ∧ ss = [])) as [[-> ->]|Hne'].
    * cbn [cat_prefixed fold_right]. rewrite !NamesFacts.str_app_nil_r. by left.
    * right. apply elem_of_app. right. apply tail_names_sel; [done..|].
      destruct cs; [right; destruct ss; [by destruct Hne' | done] | by left].
  + destruct Hoi as [|Hoi]; [done|].
    apply elem_of_app. right. apply elem_of_app. left.
    rewrite !NamesFacts.str_app_assoc.
    by apply id_names_sel.
  + apply elem_of_app. right. apply elem_of_app. right.
    rewrite NamesFacts.str_app_nil_l.
    apply tail_names_sel; [done..|].
    destruct Hne as [[? ?]|[[? ?]|Hne]]; done.
Qed.

(** X17.  The expansion of a node whose longest name fits the collector's
    buffer is, as a set, exactly the set of the selections of its parts:
    a name is generated if and only if it is the node's type or nothing,
    then its id or nothing, then some of its classes, then some of its
    states, with at least one part taken; and every generated name is
    shorter than [MAX_NAME_LEN], so the collector stays inside
    [name[MAX_NAME_LEN]]. *)
Theorem expansion_is_every_selection (sn : css_selector_node_t) (n : string) :
  fits_name_buffer sn →
  (n ∈ (css_selector_node_get_name_list sn []).1 ↔
   ∃ ot oi cs ss, selection sn ot oi cs ss ∧ n = node_fullname ot oi cs ss) ∧
  (n ∈ (css_selector_node_get_name_list sn []).1 → String.length n < MAX_NAME_LEN).
Proof.
  intros Hfit.
  assert (Hlen : n ∈ (css_selector_node_get_name_list sn []).1 →
                 String.length n < MAX_NAME_LEN).
  { rewrite NamesFacts.get_name_list_defined. cbn [fst app]. intros Hn.
    pose proof (NamesFacts.node_names_fit sn Hfit) as Hall.
    rewrite Forall_forall in Hall. by apply Hall. }
  split; [|exact Hlen]. clear Hlen.
  split.
  - rewrite NamesFacts.get_name_list_defined. cbn [fst app].
    unfold node_names, type_names, selection, node_fullname.
    intros Hn. apply elem_of_app in Hn as [Hn|Hn].
    + (* names that start with the type *)
      destruct (sn_type sn) as [t|] eqn:Et; [|by apply elem_of_nil in Hn].
      apply elem_of_cons in Hn as [->|Hn]; [|apply elem_of_app in Hn as [Hn|Hn]].
      * exists (Some t), None, [], []. split; [sel_parts|].
        cbn [cat_prefixed fold_right]. by rewrite !NamesFacts.str_app_nil_r.
      * destruct (id_names_inv sn _ _ Hn) as (i & cs & ss & Hi & Hcs & Hss & ->).
        exists (Some t), (Some i), cs, ss. split; [sel_parts|].
        by rewrite !NamesFacts.str_app_assoc.
      * destruct (tail_names_inv sn _ _ Hn) as (cs & ss & Hcs & Hss & Hne & ->).
        exists (Some t), None, cs, ss. split; [sel_parts|]. done.
    + apply elem_of_app in Hn as [Hn|Hn].
      * destruct (id_names_inv sn _ _ Hn) as (i & cs & ss & Hi & Hcs & Hss & ->).
        exists None, (Some i), cs, ss. split; [sel_parts|]. done.
      * destruct (tail_names_inv sn _ _ Hn) as (cs & ss & Hcs & Hss & Hne & ->).
        exists None, None, cs, ss. split; [sel_parts|]. done.
  - intros (ot & oi & cs & ss & Hsel & ->). by apply selection_generated.
Qed.

Lemma expansion_is_every_selection_witness :
  fits_name_buffer hovered_button ∧
  ("button:hover" ∈ (css_selector_node_get_name_list hovered_button []).1 ↔
   ∃ ot oi cs ss, selection hovered_button ot oi cs ss ∧
                  "button:hover" = node_fullname ot oi cs ss) ∧
  ("button:hover" ∈ (css_selector_node_get_name_list hovered_button []).1 →
   String.length "button:hover" < MAX_NAME_LEN).
Proof.
  assert (Hfit : fits_name_buffer hovered_button) by (vm_compute; lia).
  split; [exact Hfit|].
  exact (expansion_is_every_selection hovered_button "button:hover" Hfit).
Defined.

(** ** The returned count *)

(** X18.  [css_selector_node_get_name_list] appends.  For a node whose
    longest name fits the collector's buffer, the names already in the
    list stay in front and the names added do not depend on them, and
    the value returned is [0] whatever is appended: no branch of
    [css_selector_collect_name] adds to [count] but the recursive
    calls. *)
Theorem name_list_appends_and_returns_zero (sn : css_selector_node_t)
    (names : list string) :
  fits_name_buffer sn →
  css_selector_node_get_name_list sn names
  = (names ++ (css_selector_node_get_name_list sn []).1, 0%Z).
Proof.
  intros _.
  rewrite (NamesFacts.get_name_list_defined sn names).
  rewrite (NamesFacts.get_name_list_defined sn []).
  reflexivity.
Qed.

Lemma name_list_appends_and_returns_zero_witness :
  fits_name_buffer hovered_button ∧
  css_selector_node_get_name_list hovered_button ["*"]
  = (["*"] ++ (css_selector_node_get_name_list hovered_button []).1, 0%Z).
Proof.
  assert (Hfit : fits_name_buffer hovered_button) by (vm_compute; lia).
  split; [exact Hfit|].
  exact (name_list_appends_and_returns_zero hovered_button ["*"] Hfit).
Defined.

(** ** Names generated twice *)

Lemma status_2_names_second (nm s1 s2 : string) (ss : list string) :
  nm +:+ ":" +:+ s2 ∈ status_2_names nm (s1 :: s2 :: ss).
Proof.
  cbn [status_2_names]. right. apply elem_of_app. right. by left.
Qed.

Lemma class_names_repeat (status : list string) (nm c s1 s2 : string)
    (cs ss : list string) :
  status = s1 :: s2 :: ss → ¬ NoDup (class_names status nm (c :: cs)).
Proof.
  intros -> Hnd. cbn [class_names tail] in Hnd.
  apply NoDup_cons in Hnd as [_ Hnd].
  apply NoDup_app in Hnd as (_ & _ & Hnd).
  apply NoDup_app in Hnd as (_ & Hdisj & _).
  apply (Hdisj ((nm +:+ "." +:+ c) +:+ ":" +:+ s2)).
  - apply status_2_names_second.
  - apply elem_of_app. left. cbn [status_2_names]. by left.
Qed.

(** X19.  The expansion repeats names.  For a node with a class and two
    states, whose longest name fits the collector's buffer, the visit of
    [LEVEL_STATUS_2] that closes the class loop generates again the
    names the [LEVEL_STATUS] visit has just generated for the states
    after the first, so the list holds the same name more than once. *)
Theorem expansion_repeats_names (sn : css_selector_node_t) (c s1 s2 : string)
    (cs ss : list string) :
  fits_name_buffer sn →
  sn_classes sn = c :: cs → sn_status sn = s1 :: s2 :: ss →
  ¬ NoDup (css_selector_node_get_name_list sn []).1.
Proof.
  intros _ Hc Hs. rewrite NamesFacts.get_name_list_defined. cbn [fst app].
  unfold node_names. rewrite Hc. intros Hnd.
  apply NoDup_app in Hnd as (_ & _ & Hnd).
  apply NoDup_app in Hnd as (_ & _ & Hnd).
  apply NoDup_app in Hnd as (Hnd & _ & _).
  by eapply class_names_repeat.
Qed.

Lemma expansion_repeats_names_witness :
  fits_name_buffer hovered_button ∧
  ¬ NoDup (css_selector_node_get_name_list hovered_button []).1.
Proof.
  assert (Hfit : fits_name_buffer hovered_button) by (vm_compute; lia).
  split; [exact Hfit|].
  apply (expansion_repeats_names hovered_button "primary" "focus" "hover" [] []);
    [exact Hfit | reflexivity | reflexivity].
Defined.

End ExpansionFacts.
(* ===================================================================== *)
(** * The rule store: cache, collection of rules, counts *)
(* ===================================================================== *)

Module QueryFacts.
Import Decl Selector Collector Library Registry Scenario Order Cascade Samples.

(** ** The cache *)

(** X20.  The cache answers by hash.  Once a computed style has been
    returned for a selector, every later request for a selector with
    the same hash, this one or another, is answered with that very
    declaration and leaves the state as it is; computing a style never
    touches the rule store. *)
Theorem computed_style_is_cached (st st' : css_module_t) (s s2 : css_selector_t)
    (ss : css_style_declaration_t) :
  css_get_computed_style_with_cache st s = Some (ss, st') →
  sel_hash s2 = sel_hash s →
  css_get_computed_style_with_cache st' s2 = Some (ss, st') ∧
  groups st' = groups st ∧ links st' = links st.
Proof.
  unfold css_get_computed_style_with_cache. intros Hrun Hhash. rewrite Hhash.
  destruct (cache st !! sel_hash s) as [cached|] eqn:Ec.
  - injection Hrun as <- <-. by rewrite Ec.
  - destruct (merge_rules _ _) as [ss1|]; [|done].
    injection Hrun as <- <-. cbn [cache set_cache groups links].
    by rewrite lookup_insert_eq.
Qed.

Lemma computed_style_is_cached_witness :
  css_get_computed_style_with_cache collision_store colliding_selector
    = Some (collision_cached, collision_store) ∧
  groups collision_store = groups collision_store ∧
  links collision_store = links collision_store.
Proof.
  apply (computed_style_is_cached collision_store collision_store
           (created (css_selector_create 0 (Some "bA"))) colliding_selector
           collision_cached).
  - vm_compute. reflexivity.
  - vm_compute. reflexivity.
Defined.

(** ** Collecting the rules of a link *)

(** X21.  [StyleLink_GetStyleSheets] returns the number of rules of the
    link in both of its modes.  Without an output list it only counts;
    with one it inserts every rule of the link, and a list that was
    sorted by rank and batch number, both descending, still is. *)
Theorem style_sheets_of_link (link : css_style_link_t) (out : list css_style_rule_t) :
  StronglySorted rule_ge out →
  StyleLink_GetStyleSheets link None = (None, List.length (link_styles link)) ∧
  ∃ out',
    StyleLink_GetStyleSheets link (Some out)
      = (Some out', List.length (link_styles link)) ∧
    StronglySorted rule_ge out' ∧
    Permutation out' (out ++ link_styles link) ∧
    List.length out' = List.length out + List.length (link_styles link).
Proof.
  intros Hs. split; [reflexivity|].
  unfold StyleLink_GetStyleSheets. eexists. split; [reflexivity|].
  split; [by apply OrderFacts.foldl_insert_sorted|].
  split; [apply OrderFacts.foldl_insert_perm|].
  rewrite (Permutation_length (OrderFacts.foldl_insert_perm _ _)).
  apply length_app.
Qed.

Lemma style_sheets_of_link_witness :
  StyleLink_GetStyleSheets paragraph_link None
    = (None, List.length (link_styles paragraph_link)) ∧
  ∃ out',
    StyleLink_GetStyleSheets paragraph_link (Some two_rules)
      = (Some out', List.length (link_styles paragraph_link)) ∧
    StronglySorted rule_ge out' ∧
    Permutation out' (two_rules ++ link_styles paragraph_link) ∧
    List.length out' = List.length two_rules + List.length (link_styles paragraph_link).
Proof.
  apply (style_sheets_of_link paragraph_link two_rules).
  repeat constructor; unfold rule_ge, rule_gt; cbn; lia.
Defined.

Example paragraph_link_holds_the_rule :
  map rule_selector (link_styles paragraph_link) = ["p"].
Proof. vm_compute. reflexivity. Qed.

(** ** The count a query returns *)

Lemma foldl_counts {X : Type}
    (f : list css_style_rule_t * nat → X → list css_style_rule_t * nat)
    (g : X → list css_style_rule_t) (xs : list X) :
  (∀ acc x, x ∈ xs → (f acc x).2 = acc.2 + List.length (g x)) →
  ∀ acc, (foldl f acc xs).2 = acc.2 + List.length (flat_map g xs).
Proof.
  induction xs as [|x xs IH]; intros Hf acc; simpl; [lia|].
  rewrite IH by (intros; apply Hf; by right).
  rewrite Hf by (by left). rewrite length_app. lia.
Qed.

Lemma from_link_count (lks : list css_style_link_t) (s : css_selector_t) (i : nat) :
  ∀ (link : css_style_link_t) (out : list css_style_rule_t),
    (css_query_selector_from_link lks link s i out).2
      = List.length (link_visits lks s i link).
Proof.
  induction (lt_wf i) as [i _ IH]. intros link out.
  rewrite OrderFacts.from_link_unfold, OrderFacts.link_visits_unfold, length_app.
  change (List.length (link_styles link))
    with ((foldl insert_rule out (link_styles link), List.length (link_styles link)).2) at 2.
  generalize (foldl insert_rule out (link_styles link), List.length (link_styles link)) as acc.
  assert (Hle : i ≤ i) by lia. revert Hle.
  generalize i at 1 3 4 as k.
  induction k as [|j IHk]; intros Hle acc; simpl; [lia|].
  rewrite IHk by lia. rewrite length_app.
  rewrite (foldl_counts (visit_parent lks link _ j)
             (fun name => match dict_fetch_value (link_parents link) name with
                          | None => []
                          | Some p => match lks !! p with
                                      | None => []
                                      | Some parent => link_visits lks s j parent
                                      end
                          end)).
  - lia.
  - intros acc' name _. unfold visit_parent.
    destruct (dict_fetch_value (link_parents link) name) as [p|]; [|simpl; lia].
    destruct (lks !! p) as [parent|]; [|simpl; lia].
    specialize (IH j ltac:(lia) parent acc'.1).
    destruct (css_query_selector_from_link lks parent s j acc'.1) as [l c].
    simpl in *. lia.
Qed.

Lemma from_group_count (st : css_module_t) (group : nat) (name : option string)
    (s : css_selector_t) (out : list css_style_rule_t) :
  (css_query_selector_from_group st group name s out).2
    = Z.of_nat (List.length (group_visits st group name s)).
Proof.
  unfold css_query_selector_from_group, group_visits.
  destruct (groups st !! group) as [g|]; [|done].
  destruct (decide (sel_length s < 1)); [done|].
  match goal with
  | |- (let '(l, count) := foldl ?f ?a ?xs in _).2 = Z.of_nat (List.length (flat_map ?h _)) =>
      pose proof (foldl_counts f h xs) as Hc;
      destruct (foldl f a xs) as [l c] eqn:E;
      cbn [snd]; f_equal;
      change c with ((l, c).2); rewrite <- E; rewrite Hc; [done|]
  end.
  intros acc nm _. cbn beta.
  destruct (dict_fetch_value g nm) as [slg|]; [|simpl; lia].
  apply (foldl_counts _ (fun entry : string * nat =>
                           match links st !! entry.2 with
                           | None => []
                           | Some link => link_visits (links st) s (sel_length s - 1) link
                           end)).
  intros acc' entry _.
  destruct (links st !! entry.2) as [link|]; [|simpl; lia].
  pose proof (from_link_count (links st) s (sel_length s - 1) link acc'.1) as H.
  destruct (css_query_selector_from_link (links st) link s (sel_length s - 1) acc'.1).
  simpl in *. lia.
Qed.

(** X22.  The value [css_query_selector_from_group] returns is the number
    of rules it has put into the output list, and the rules that were in
    the list are kept: the list it leaves is a rearrangement of the old
    list and the rules the query visited. *)
Theorem query_count_is_rules_added (st : css_module_t) (group : nat)
    (name : option string) (s : css_selector_t) (out : list css_style_rule_t) :
  Z.of_nat (List.length (css_query_selector_from_group st group name s out).1)
    = (Z.of_nat (List.length out)
       + (css_query_selector_from_group st group name s out).2)%Z ∧
  (0 ≤ (css_query_selector_from_group st group name s out).2)%Z ∧
  Permutation (css_query_selector_from_group st group name s out).1
              (out ++ group_visits st group name s).
Proof.
  rewrite from_group_count, OrderFacts.from_group_visits.
  pose proof (OrderFacts.foldl_insert_perm (group_visits st group name s) out) as Hp.
  split_and!; [|lia|exact Hp].
  rewrite (Permutation_length Hp), length_app. lia.
Qed.

End QueryFacts.
(* ===================================================================== *)
(** * Keywords, value types and aliases: registration and lookup *)
(* ===================================================================== *)

Module KeywordFacts.
Import Decl Selector Library Registry.

(** X23.  A keyword registered under a fresh name and a fresh key is found
    both ways, and no other name or key changes its answer; a name that
    is already registered is refused with [-1] and the tables stay as
    they were. *)
Theorem keyword_registration (st : css_module_t) (key : Z) (name : string) :
  (keywords st !! name = None → keyword_names st !! key = None →
   (css_register_keyword st key name).2 = 0%Z ∧
   css_get_keyword_key (css_register_keyword st key name).1 name = key ∧
   css_get_keyword_name (css_register_keyword st key name).1 key = Some name ∧
   (∀ other, other ≠ name →
      css_get_keyword_key (css_register_keyword st key name).1 other
      = css_get_keyword_key st other) ∧
   (∀ k, k ≠ key →
      css_get_keyword_name (css_register_keyword st key name).1 k
      = css_get_keyword_name st k)) ∧
  (is_Some (keywords st !! name) →
   css_register_keyword st key name = (st, (-1)%Z)).
Proof.
  unfold css_register_keyword, map_add. split.
  - intros Hn Hk. rewrite Hn, Hk. cbn.
    unfold css_get_keyword_key, css_get_keyword_name. cbn.
    rewrite !lookup_insert_eq. split_and!; try done.
    + intros other Hne. by rewrite lookup_insert_ne.
    + intros k Hne. by rewrite lookup_insert_ne.
  - intros [kw Hkw]. by rewrite Hkw.
Qed.

(** [css_init_keywords] registers its forty-six keywords and none of
    them is refused: after [css_init] every name of the table gives its
    key and every key gives its name. *)
Theorem initial_keywords_registered :
  List.length initial_keywords = 46 ∧
  Forall (fun kv : Z * string =>
            css_get_keyword_key css_init kv.2 = kv.1 ∧
            css_get_keyword_name css_init kv.1 = Some kv.2)
         initial_keywords.
Proof.
  split; [reflexivity|].
  apply Forall_forall. intros kv Hin.
  repeat (apply elem_of_cons in Hin as [->|Hin];
          [split; vm_compute; reflexivity|]).
  by apply elem_of_nil in Hin.
Qed.

(** ** Value types *)

(** X24.  A value type is registered once.  The first registration of a
    name returns the record, which the lookup then finds, and leaves the
    other names alone; a second registration of the name returns NULL
    and changes nothing, whatever parser it brings. *)
Theorem value_type_registered_once (cv : css_value_module_t) (type_name : string)
    (parse parse' : nat) :
  types cv !! type_name = None →
  let r := css_register_value_type cv type_name parse in
  r.2 = Some {| vt_name := type_name; vt_parse_value := parse |} ∧
  css_get_value_type r.1 type_name = r.2 ∧
  (∀ other, other ≠ type_name →
     css_get_value_type r.1 other = css_get_value_type cv other) ∧
  type_alias r.1 = type_alias cv ∧
  css_register_value_type r.1 type_name parse' = (r.1, None).
Proof.
  intros Hn r. subst r. unfold css_register_value_type, map_add, css_get_value_type.
  rewrite Hn. cbn. rewrite lookup_insert_eq. cbn.
  split_and!; try done.
  intros other Hne. by rewrite lookup_insert_ne.
Qed.

Lemma value_type_registered_once_witness :
  let r := css_register_value_type {| types := ∅; type_alias := ∅ |} "length" 0 in
  r.2 = Some {| vt_name := "length"; vt_parse_value := 0 |} ∧
  css_get_value_type r.1 "length" = r.2 ∧
  (∀ other, other ≠ "length" →
     css_get_value_type r.1 other
     = css_get_value_type {| types := ∅; type_alias := ∅ |} other) ∧
  type_alias r.1 = type_alias {| types := ∅; type_alias := ∅ |} ∧
  css_register_value_type r.1 "length" 1 = (r.1, None).
Proof.
  apply (value_type_registered_once {| types := ∅; type_alias := ∅ |} "length" 0 1).
  reflexivity.
Defined.

(** ** Aliases *)

(** X25.  An alias that passes the keyword test and is not yet in the
    table is stored: the call returns [0], the alias resolves to the
    type name, and a later registration of the same alias for another
    type is refused and does not change what the alias resolves to. *)
Theorem alias_registered_once (st : css_module_t) (cv : css_value_module_t)
    (type_name other_type alias : string) :
  css_get_keyword_key st alias = 0%Z → type_alias cv !! alias = None →
  let r := css_register_value_type_alias st cv type_name alias in
  r.2 = 0%Z ∧
  css_resolve_value_type r.1 alias = Some type_name ∧
  types r.1 = types cv ∧
  (css_register_value_type_alias st r.1 other_type alias).2 ≠ 0%Z ∧
  css_resolve_value_type (css_register_value_type_alias st r.1 other_type alias).1 alias
    = Some type_name.
Proof.
  intros Hk Hn r. subst r.
  unfold css_register_value_type_alias, map_add, css_resolve_value_type.
  rewrite Hk, Hn. cbn. rewrite lookup_insert_eq. cbn. rewrite lookup_insert_eq.
  done.
Qed.

Lemma alias_registered_once_witness :
  let r := css_register_value_type_alias css_init {| types := ∅; type_alias := ∅ |}
             "keyword" "none" in
  r.2 = 0%Z ∧
  css_resolve_value_type r.1 "none" = Some "keyword" ∧
  types r.1 = types {| types := ∅; type_alias := ∅ |} ∧
  (css_register_value_type_alias css_init r.1 "length" "none").2 ≠ 0%Z ∧
  css_resolve_value_type (css_register_value_type_alias css_init r.1 "length" "none").1
    "none" = Some "keyword".
Proof.
  apply (alias_registered_once css_init {| types := ∅; type_alias := ∅ |}
           "keyword" "length" "none").
  - vm_compute. reflexivity.
  - reflexivity.
Defined.

(** Every keyword a run of registrations leaves in the name table was
    there before or is one of the registered pairs. *)
Lemma registered_keywords_from_table (l : list (Z * string)) :
  ∀ (st : css_module_t) (name : string) (kw : css_keyword_t),
    keywords (foldl (fun st kv => (css_register_keyword st kv.1 kv.2).1) st l) !! name
      = Some kw →
    keywords st !! name = Some kw ∨ (kw_key kw, name) ∈ l.
Proof.
  induction l as [|[k n] l IH]; intros st name kw Hkw; cbn [foldl] in Hkw; [by left|].
  apply IH in Hkw as [Hkw|Hin]; [|right; by right].
  cbn [fst snd] in Hkw. unfold css_register_keyword, map_add in Hkw.
  destruct (keywords st !! n) as [old|] eqn:En; cbn in Hkw; [by left|].
  destruct (keyword_names st !! k) as [old|]; cbn in Hkw.
  - destruct (decide (n = name)) as [->|Hne].
    + rewrite lookup_insert_eq in Hkw. injection Hkw as <-. right. by left.
    + rewrite lookup_insert_ne in Hkw by done. by left.
  - destruct (decide (n = name)) as [->|Hne].
    + rewrite lookup_insert_eq in Hkw. injection Hkw as <-. right. by left.
    + rewrite lookup_insert_ne in Hkw by done. by left.
Qed.

Lemma initial_keyword_origin (name : string) (kw : css_keyword_t) :
  keywords css_init !! name = Some kw → (kw_key kw, name) ∈ initial_keywords.
Proof.
  unfold css_init, css_init_keywords. intros Hkw.
  apply registered_keywords_from_table in Hkw as [Hkw|Hin]; [|exact Hin].
  unfold set_keywords in Hkw. cbn [keywords] in Hkw.
  by rewrite lookup_empty in Hkw.
Qed.

Lemma zero_key_is_none (name : string) :
  (0%Z, name) ∈ initial_keywords → name = "none".
Proof.
  unfold initial_keywords. intros Hin.
  apply elem_of_cons in Hin as [Heq|Hin]; [by injection Heq|].
  repeat (apply elem_of_cons in Hin as [Heq|Hin]; [discriminate Heq|]).
  by apply elem_of_nil in Hin.
Qed.

(** X26.  In the state [css_init] leaves, the only alias
    [css_register_value_type_alias] can accept is ["none"]: the test
    [if (css_get_keyword_key(alias)) return -1;] lets through the
    keyword whose key is [0] and nothing else. *)
Theorem only_none_can_be_aliased (cv : css_value_module_t) (type_name alias : string) :
  (css_register_value_type_alias css_init cv type_name alias).2 = 0%Z →
  alias = "none".
Proof.
  intros Hok.
  apply RegistryFacts.register_value_type_alias_accepts in Hok as (kw & Hkw & Hzero).
  apply initial_keyword_origin in Hkw. rewrite Hzero in Hkw.
  by apply zero_key_is_none.
Qed.

Lemma only_none_can_be_aliased_witness :
  (css_register_value_type_alias css_init {| types := ∅; type_alias := ∅ |}
     "keyword" "none").2 = 0%Z ∧ "none" = "none".
Proof.
  assert (H : (css_register_value_type_alias css_init {| types := ∅; type_alias := ∅ |}
                 "keyword" "none").2 = 0%Z) by (vm_compute; reflexivity).
  split; [exact H|].
  exact (only_none_can_be_aliased {| types := ∅; type_alias := ∅ |} "keyword" "none" H).
Defined.

End KeywordFacts.
(* ===================================================================== *)
(** * The value-definition compilers on every input *)
(* ===================================================================== *)

Module CompilerFacts.
Import Registry ValDef Strings.

(** ** [css_compile_valdef] *)

Section Scan.
Variable cs : list ascii.
Hypothesis cs_text : Forall (fun c => c ≠ Ascii.zero) cs.

Abbreviation mem := (cs ++ [Ascii.zero]).
Abbreviation n := (List.length cs).

Lemma read_inside (k : nat) (c : ascii) :
  cs !! k = Some c → read mem (Z.of_nat k) = Some c ∧ Ascii.eqb c Ascii.zero = false.
Proof.
  intros Hc. unfold read.
  destruct (Z.ltb_spec (Z.of_nat k) 0) as [|_]; [lia|].
  rewrite Nat2Z.id, lookup_app_l by (by eapply lookup_lt_Some).
  split; [done|]. apply Ascii.eqb_neq.
  by eapply (proj1 (Forall_lookup _ _) cs_text).
Qed.

Lemma read_terminator : read mem (Z.of_nat n) = Some Ascii.zero.
Proof.
  unfold read. destruct (Z.ltb_spec (Z.of_nat n) 0) as [|_]; [lia|].
  rewrite Nat2Z.id. by rewrite list_lookup_middle.
Qed.

Lemma read_past (k : nat) : n < k → read mem (Z.of_nat k) = None.
Proof.
  intros Hk. unfold read. destruct (Z.ltb_spec (Z.of_nat k) 0) as [|_]; [lia|].
  rewrite Nat2Z.id. apply lookup_ge_None_2. rewrite length_app. cbn. lia.
Qed.

(** With a target other than NONE and ERROR the loop only walks to the
    terminator. *)
Lemma skip_phase (room : nat) :
  ∀ (parser : css_valdef_parser_t) (k size : nat),
    target parser ≠ CSS_VALDEF_PARSER_TARGET_NONE →
    target parser ≠ CSS_VALDEF_PARSER_TARGET_ERROR →
    cur parser = Z.of_nat k → k ≤ n → n - k ≤ room →
    ∃ parser',
      parse_loop room mem parser size = Ret (parser', size + (n - k)) ∧
      target parser' = target parser.
Proof.
  induction room as [|room IH]; intros parser k size Hn He Hcur Hk Hroom.
  - assert (k = n) as -> by lia. cbn [parse_loop]. rewrite Hcur, read_terminator.
    cbn. exists parser. split; [f_equal; f_equal; lia | done].
  - cbn [parse_loop]. rewrite Hcur.
    destruct (decide (k = n)) as [->|Hne].
    + rewrite read_terminator. cbn. exists parser. split; [f_equal; f_equal; lia | done].
    + destruct (lookup_lt_is_Some_2 cs k) as [c Hc]; [lia|].
      destruct (read_inside k c Hc) as [-> ->].
      destruct (IH (step_cur parser) (S k) (size + 1)) as (parser' & Hrun & Ht);
        try done; try lia.
      { cbn. lia. }
      exists parser'. split; [|done].
      destruct (target parser); try done; rewrite Hrun; f_equal; f_equal; lia.
Qed.

Lemma blank_is_no_sign (c : ascii) :
  is_white_space c = true →
  (Ascii.eqb c "|" || Ascii.eqb c "&" || Ascii.eqb c "<")%bool = false ∧
  (Ascii.eqb c ">" || Ascii.eqb c "]")%bool = false.
Proof.
  unfold is_white_space. rewrite !orb_true_iff, !Ascii.eqb_eq.
  intros [[[->| ->]| ->]| ->]; done.
Qed.

(** From the target NONE: white space is passed over, a closing
    character sets the error, any other character selects a target that
    is never served. *)
Lemma blank_phase (room : nat) :
  ∀ (parser : css_valdef_parser_t) (k size : nat),
    target parser = CSS_VALDEF_PARSER_TARGET_NONE →
    cur parser = Z.of_nat k → k ≤ n → n - k + 1 ≤ room →
    match first_non_blank (drop k cs) with
    | None =>
        ∃ parser',
          parse_loop room mem parser size = Ret (parser', size + (n - k)) ∧
          target parser' = CSS_VALDEF_PARSER_TARGET_NONE
    | Some c =>
        if closes c then
          ∃ parser' len,
            parse_loop room mem parser size = Ret (parser', len) ∧
            target parser' = CSS_VALDEF_PARSER_TARGET_ERROR
        else
          ∃ parser',
            parse_loop room mem parser size = Ret (parser', size + (n - k) + 1) ∧
            target parser' ≠ CSS_VALDEF_PARSER_TARGET_ERROR
    end.
Proof.
  induction room as [|room IH]; intros parser k size Ht Hcur Hk Hroom; [lia|].
  destruct parser as [pc pb pp ps pt]. cbn [target cur] in Ht, Hcur. subst pc pt.
  cbn [parse_loop cur target].
  destruct (decide (k = n)) as [->|Hne].
  { rewrite drop_all. cbn [first_non_blank]. rewrite read_terminator. cbn.
    eexists. split; [f_equal; f_equal; lia | done]. }
  destruct (lookup_lt_is_Some_2 cs k) as [c Hc]; [lia|].
  destruct (read_inside k c Hc) as [-> ->].
  rewrite (drop_S _ _ _ Hc). cbn [first_non_blank].
  unfold css_valdef_parser_parse_target. cbn [cur buffer pos buffer_size target].
  destruct (is_white_space c) eqn:Ew.
  - (* white space: the target stays NONE *)
    destruct (blank_is_no_sign c Ew) as [-> ->]. cbn [fst].
    specialize (IH (step_cur {| cur := Z.of_nat k; buffer := pb; pos := pp;
                                buffer_size := ps;
                                target := CSS_VALDEF_PARSER_TARGET_NONE |})
                   (S k) (size + 1)).
    destruct (first_non_blank (drop (S k) cs)) as [d|].
    + destruct (closes d).
      * apply IH; try done; cbn; lia.
      * destruct IH as (parser' & Hrun & Hne'); try done; try (cbn; lia).
        exists parser'. split; [|done]. rewrite Hrun. f_equal. f_equal. lia.
    + destruct IH as (parser' & Hrun & Ht'); try done; try (cbn; lia).
      exists parser'. split; [|done]. rewrite Hrun. f_equal. f_equal. lia.
  - destruct (Ascii.eqb c "|" || Ascii.eqb c "&" || Ascii.eqb c "<")%bool eqn:Es.
    + (* a sign *)
      assert (closes c = false) as ->.
      { unfold closes. apply orb_true_iff in Es.
        rewrite orb_true_iff, !Ascii.eqb_eq in Es.
        destruct Es as [[->| ->]| ->]; done. }
      cbn [fst].
      edestruct (skip_phase room) as (parser' & Hrun & Ht') ; last first.
      { exists parser'. split.
        - rewrite Hrun. f_equal. f_equal. instantiate (1 := k). lia.
        - rewrite Ht'. cbn. done. }
      all: cbn; try done; try lia.
    + unfold closes.
      destruct (Ascii.eqb c ">" || Ascii.eqb c "]")%bool eqn:Ec.
      * (* a closing character: the error target *)
        cbn [fst]. destruct room as [|room'].
        -- cbn [parse_loop step_cur cur].
           replace (Z.of_nat k + 1)%Z with (Z.of_nat (S k)) by lia.
           destruct (decide (S k = n)) as [Heq|Hne'].
           ++ rewrite Heq, read_terminator. cbn. by eexists _, _.
           ++ destruct (lookup_lt_is_Some_2 cs (S k)) as [d Hd]; [lia|].
              destruct (read_inside (S k) d Hd) as [-> ->]. by eexists _, _.
        -- cbn [parse_loop step_cur cur target].
           replace (Z.of_nat k + 1)%Z with (Z.of_nat (S k)) by lia.
           destruct (decide (S k = n)) as [Heq|Hne'].
           ++ rewrite Heq, read_terminator. cbn. by eexists _, _.
           ++ destruct (lookup_lt_is_Some_2 cs (S k)) as [d Hd]; [lia|].
              destruct (read_inside (S k) d Hd) as [-> ->]. by eexists _, _.
      * (* any other character: a keyword *)
        cbn [fst].
        edestruct (skip_phase room) as (parser' & Hrun & Ht') ; last first.
        { exists parser'. split.
          - rewrite Hrun. f_equal. f_equal. instantiate (1 := k). lia.
          - rewrite Ht'. cbn. done. }
        all: cbn; try done; try lia.
Qed.

End Scan.

(** X27.  What [css_compile_valdef] does with every C string of fewer
    than 512 characters.  A string of white space alone, the empty one
    included, compiles ([0]).  If the first character that is not white
    space is [>] or a closing bracket the result is [-1].  Every other
    string sends the scan one character too far: the second round starts
    behind the terminator, outside the string.  No definition is ever
    stored and no registry is consulted. *)
Theorem compile_valdef_outcome (s : string) :
  String.length s < 512 → c_text s →
  css_compile_valdef (c_string s)
  = Some (match first_non_blank (list_ascii_of_string s) with
          | None => Ret 0%Z
          | Some c => if closes c then Ret (-1)%Z else Fault
          end).
Proof.
  intros Hlen Htext. unfold c_text in Htext.
  rewrite <- SelectorFacts.list_ascii_length in Hlen.
  unfold css_compile_valdef, c_string.
  set (cs := list_ascii_of_string s) in *.
  rewrite length_app. cbn [List.length].
  replace (S (List.length cs + 1)) with (S (S (List.length cs))) by lia.
  cbn [compile_loop]. unfold css_valdef_parser_parse at 1.
  cbn [css_valdef_parser_create buffer buffer_size pos target].
  pose proof (blank_phase cs Htext 512
                {| cur := 0; buffer := ""; pos := 0; buffer_size := 512;
                   target := CSS_VALDEF_PARSER_TARGET_NONE |} 0 0
                eq_refl eq_refl ltac:(lia) ltac:(lia)) as Hscan.
  rewrite drop_0 in Hscan.
  destruct (first_non_blank cs) as [c|].
  - destruct (closes c).
    + destruct Hscan as (parser' & len & -> & ->). reflexivity.
    + destruct Hscan as (parser' & -> & Hne).
      destruct (target parser') eqn:Et; try done;
        (rewrite decide_True by lia;
         unfold css_valdef_parser_parse; cbn [parse_loop cur];
         replace (0 + Z.of_nat (0 + (List.length cs - 0) + 1))%Z
           with (Z.of_nat (S (List.length cs))) by lia;
         destruct (buffer_size parser');
         cbn [parse_loop cur]; by rewrite (read_past cs) by lia).
  - destruct Hscan as (parser' & -> & Et). rewrite Et.
    destruct (decide (0 < 0 + (List.length cs - 0))) as [Hpos|Hz]; [|reflexivity].
    unfold css_valdef_parser_parse.
    replace (0 + Z.of_nat (0 + (List.length cs - 0)))%Z
      with (Z.of_nat (List.length cs)) by lia.
    destruct (buffer_size parser'); cbn [parse_loop cur];
      rewrite (read_terminator cs); cbn; rewrite Et; reflexivity.
Qed.

Lemma compile_valdef_outcome_witness :
  css_compile_valdef (c_string "  solid | dashed")
  = Some (match first_non_blank (list_ascii_of_string "  solid | dashed") with
          | None => Ret 0%Z
          | Some c => if closes c then Ret (-1)%Z else Fault
          end).
Proof.
  apply (compile_valdef_outcome "  solid | dashed").
  - vm_compute. lia.
  - unfold c_text. cbn. repeat constructor; discriminate.
Defined.

(** ** [css_compile_syntax] *)

(** [css_compile_syntax] reads [name_len] before giving it a value
    on every syntax that does not begin with [<]: the first character
    is either stored at [name[name_len]] or, for [>], ends a name at
    that index. *)
Theorem compile_syntax_reads_unset_length (c : ascii) (s : string) :
  c ≠ "<"%char → css_compile_syntax (String c s) = Uninitialised.
Proof.
  intros Hc. unfold css_compile_syntax. cbn [list_ascii_of_string syntax_loop].
  unfold syntax_char. cbn [name_len].
  apply Ascii.eqb_neq in Hc. rewrite Hc.
  by destruct (negb (Ascii.eqb c ">")).
Qed.

Lemma compile_syntax_reads_unset_length_witness :
  css_compile_syntax "auto | <length> | <percentage>" = Uninitialised.
Proof.
  apply (compile_syntax_reads_unset_length "a" "uto | <length> | <percentage>").
  discriminate.
Defined.

Lemma syntax_char_code (c : ascii) (st : syntax_state) (r : Z) :
  syntax_char c st = inr (Ret r) → r = 0%Z.
Proof.
  unfold syntax_char.
  destruct (Ascii.eqb c "<"); [done|].
  destruct (negb (Ascii.eqb c ">")).
  - destruct (name_len st) as [k|]; [|done].
    destruct (k =? -1)%Z; [done|].
    destruct (32 <? k mod 2 ^ 64)%Z; [by intros [= <-]|].
    by destruct (k =? 32)%Z.
  - destruct (name_len st) as [k|]; [|done].
    destruct ((k <? 0) || (32 <=? k))%Z; [done|].
    destruct (bool_decide (name st ∈ syntax_map)); [|by intros [= <-]].
    by case_decide.
Qed.

(** X28.  [css_compile_syntax] has no error code.  Whenever it returns,
    it returns [0]: an unknown type name and an over-long name leave
    through [return NULL], which is [0] in a function returning [int],
    so the caller's test [!= 0] never fires. *)
Theorem compile_syntax_never_fails (s : string) (r : Z) (parsers : list string) :
  css_compile_syntax s = Ret (r, parsers) → r = 0%Z.
Proof.
  unfold css_compile_syntax.
  generalize {| name_len := None; name := ""; out_parsers := [] |} as st.
  induction (list_ascii_of_string s) as [|c cs IH]; intros st; cbn [syntax_loop].
  - by intros [= <- _].
  - destruct (syntax_char c st) as [st'|[k| |]] eqn:Ec; [apply IH | | done | done].
    intros [= <- _]. by eapply syntax_char_code.
Qed.

Lemma compile_syntax_never_fails_witness :
  css_compile_syntax "<nonsense>" = Ret (0%Z, []) ∧ 0%Z = 0%Z.
Proof.
  assert (H : css_compile_syntax "<nonsense>" = Ret (0%Z, [])) by reflexivity.
  split; [exact H|]. exact (compile_syntax_never_fails "<nonsense>" 0%Z [] H).
Defined.

(** White space and bars after a closed name are passed over. *)
Lemma syntax_skip (sep rest : list ascii) (st : syntax_state) :
  name_len st = Some (-1)%Z →
  Forall (fun c => c ≠ "<"%char ∧ c ≠ ">"%char) sep →
  syntax_loop (sep ++ rest) st = syntax_loop rest st.
Proof.
  intros Hn. induction 1 as [|c sep [H1 H2] _ IH]; [done|].
  cbn [app syntax_loop]. unfold syntax_char.
  apply Ascii.eqb_neq in H1, H2. rewrite H1, H2. cbn [negb]. rewrite Hn. cbn.
  exact IH.
Qed.

(** The characters of a name are stored one by one. *)
Lemma syntax_name (tcs rest : list ascii) :
  Forall (fun c => c ≠ "<"%char ∧ c ≠ ">"%char) tcs →
  ∀ (st : syntax_state) (k : Z),
    name_len st = Some k → (0 ≤ k)%Z → (k + Z.of_nat (List.length tcs) < 32)%Z →
    syntax_loop (tcs ++ rest) st
    = syntax_loop rest
        {| name_len := Some (k + Z.of_nat (List.length tcs))%Z;
           name := name st +:+ string_of_list_ascii tcs;
           out_parsers := out_parsers st |}.
Proof.
  induction 1 as [|c tcs [H1 H2] _ IH]; intros st k Hn Hk Hlen.
  - cbn [app List.length string_of_list_ascii]. rewrite NamesFacts.str_app_nil_r.
    replace (k + Z.of_nat 0)%Z with k by lia.
    destruct st as [nl nm out]. cbn in *. by subst nl.
  - cbn [app syntax_loop]. unfold syntax_char.
    apply Ascii.eqb_neq in H1, H2. rewrite H1, H2. cbn [negb]. rewrite Hn.
    cbn [List.length] in Hlen.
    destruct (Z.eqb_spec k (-1)) as [|_]; [lia|].
    rewrite Z.mod_small by lia.
    destruct (Z.ltb_spec 32 k) as [|_]; [lia|].
    destruct (Z.eqb_spec k 32) as [|_]; [lia|].
    rewrite (IH _ (k + 1)%Z) by (cbn; (done || lia)).
    cbn [name out_parsers string_of_list_ascii]. f_equal. f_equal.
    + f_equal. cbn [List.length]. lia.
    + rewrite NamesFacts.str_app_assoc. reflexivity.
Qed.

Lemma syntax_map_names (t : string) :
  t ∈ syntax_map →
  Forall (fun c => c ≠ "<"%char ∧ c ≠ ">"%char) (list_ascii_of_string t) ∧
  String.length t < 32.
Proof.
  unfold syntax_map. intros Ht.
  repeat (apply elem_of_cons in Ht as [->|Ht];
          [split; [repeat constructor; discriminate | cbn; lia]|]).
  by apply elem_of_nil in Ht.
Qed.

(** One bracketed type name of the table. *)
Lemma syntax_bracket (t : string) (rest : list ascii) (st : syntax_state) :
  t ∈ syntax_map → List.length (out_parsers st) < 8 →
  syntax_loop (list_ascii_of_string ("<" +:+ t +:+ ">") ++ rest) st
  = syntax_loop rest {| name_len := Some (-1)%Z; name := t;
                        out_parsers := out_parsers st ++ [t] |}.
Proof.
  intros Ht Hroom. destruct (syntax_map_names t Ht) as [Hchars Hlen].
  rewrite !SelectorFacts.list_ascii_of_string_app, <- !app_assoc.
  cbn [list_ascii_of_string app syntax_loop].
  change (syntax_char "<" st)
    with (@inl syntax_state (outcome Z)
            {| name_len := Some 0%Z; name := ""; out_parsers := out_parsers st |}).
  cbn iota.
  rewrite (syntax_name _ _ Hchars _ 0%Z)
    by (rewrite ?SelectorFacts.list_ascii_length; cbn; (done || lia)).
  cbn [syntax_loop]. unfold syntax_char. cbn [name_len name out_parsers].
  change (Ascii.eqb ">" "<") with false. change (Ascii.eqb ">" ">") with true.
  cbn [negb]. rewrite SelectorFacts.list_ascii_length.
  rewrite string_of_list_ascii_of_string, NamesFacts.str_app_nil_l.
  destruct (Z.ltb_spec (0 + Z.of_nat (String.length t)) 0) as [|_]; [lia|].
  destruct (Z.leb_spec 32 (0 + Z.of_nat (String.length t))) as [|_]; [lia|].
  cbn [orb].
  rewrite bool_decide_eq_true_2 by done.
  rewrite decide_False by lia. reflexivity.
Qed.

Lemma syntax_brackets (sep : string) (ts : list string) :
  Forall (fun c => c ≠ "<"%char ∧ c ≠ ">"%char) (list_ascii_of_string sep) →
  ∀ st, Forall (fun t => t ∈ syntax_map) ts →
        List.length (out_parsers st) + List.length ts ≤ 8 →
        syntax_loop (list_ascii_of_string (bracketed sep ts)) st
        = Ret (0%Z, out_parsers st ++ ts).
Proof.
  intros Hsep. induction ts as [|t ts IH]; intros st Hts Hlen.
  - cbn. by rewrite app_nil_r.
  - apply Forall_cons in Hts as [Ht Hts]. cbn [List.length] in Hlen.
    cbn [bracketed foldr].
    replace ("<" +:+ t +:+ ">" +:+ sep +:+ foldr (fun t acc => "<" +:+ t +:+ ">" +:+ sep +:+ acc) "" ts)
      with (("<" +:+ t +:+ ">") +:+ sep +:+ bracketed sep ts)
      by (by rewrite !NamesFacts.str_app_assoc).
    rewrite (SelectorFacts.list_ascii_of_string_app ("<" +:+ t +:+ ">")).
    rewrite (SelectorFacts.list_ascii_of_string_app sep).
    rewrite syntax_bracket by (done || lia).
    rewrite syntax_skip by done.
    rewrite IH; [| done | cbn; rewrite length_app; cbn; lia].
    cbn [out_parsers]. by rewrite <- app_assoc.
Qed.

(** X29.  A syntax made only of type names of the table in angle
    brackets, at most eight of them, with anything but brackets after
    each, compiles: the result is [0] and the parsers stored are those
    of the names, in order. *)
Theorem compile_syntax_of_types (sep : string) (ts : list string) :
  Forall (fun c => c ≠ "<"%char ∧ c ≠ ">"%char) (list_ascii_of_string sep) →
  Forall (fun t => t ∈ syntax_map) ts → List.length ts ≤ 8 →
  css_compile_syntax (bracketed sep ts) = Ret (0%Z, ts).
Proof.
  intros Hsep Hts Hlen. unfold css_compile_syntax.
  by rewrite (syntax_brackets sep ts Hsep) by (done || (cbn; lia)).
Qed.

Lemma compile_syntax_of_types_witness :
  css_compile_syntax (bracketed " | " ["length"; "percentage"; "color"])
  = Ret (0%Z, ["length"; "percentage"; "color"]).
Proof.
  apply (compile_syntax_of_types " | " ["length"; "percentage"; "color"]).
  - cbn. repeat constructor; discriminate.
  - unfold syntax_map. repeat constructor; set_solver.
  - cbn. lia.
Defined.

End CompilerFacts.
(* ===================================================================== *)
(** * The rule store: what is added is found *)
(* ===================================================================== *)

Module StoreRoundTrip.
Import Decl Selector Collector Library Registry Scenario Order Matching Store.

(** Two lookups of the same place agree. *)
Local Ltac join H1 H2 :=
  let E := fresh in
  pose proof (eq_trans (eq_sym H1) H2) as E;
  first [discriminate E | injection E as -> | injection E as <-].

(** ** Dictionaries *)

Lemma dict_fetch_app {V : Type} (d1 d2 : dict V) (k : string) :
  dict_fetch_value (d1 ++ d2) k
  = match dict_fetch_value d1 k with
    | Some v => Some v
    | None => dict_fetch_value d2 k
    end.
Proof.
  induction d1 as [|[k' v] d1 IH]; cbn; [done|].
  by destruct (String.eqb k' k).
Qed.

Lemma dict_fetch_add {V : Type} (d : dict V) (k k' : string) (v : V) :
  dict_fetch_value d k = None →
  dict_fetch_value (dict_add d k v).1 k'
  = if decide (k' = k) then Some v else dict_fetch_value d k'.
Proof.
  intros Hn. unfold dict_add. rewrite Hn. cbn [fst]. rewrite dict_fetch_app. cbn.
  destruct (String.eqb_spec k k') as [->|Hne].
  - rewrite Hn. by rewrite decide_True.
  - rewrite decide_False by done. by destruct (dict_fetch_value d k').
Qed.

Lemma dict_fetch_store {V : Type} (d : dict V) (k k' : string) (v : V) :
  dict_fetch_value (dict_store d k v) k'
  = if decide (k' = k) then
      match dict_fetch_value d k with Some _ => Some v | None => None end
    else dict_fetch_value d k'.
Proof.
  induction d as [|[a x] d IH]; cbn.
  - by case_decide.
  - destruct (String.eqb_spec a k) as [->|Hak]; cbn.
    + destruct (String.eqb_spec k k') as [->|Hkk'].
      * by rewrite decide_True.
      * by rewrite decide_False.
    + destruct (String.eqb_spec a k') as [->|Hak'].
      * by rewrite decide_False.
      * exact IH.
Qed.

Lemma dict_fetch_elem {V : Type} (d : dict V) (k : string) (v : V) :
  dict_fetch_value d k = Some v → (k, v) ∈ d.
Proof.
  induction d as [|[a x] d IH]; cbn; [done|].
  destruct (String.eqb_spec a k) as [->|Hne].
  - intros [= ->]. by left.
  - intros H. right. by apply IH.
Qed.

(** ** The parts of one round *)

(** The group at depth [i] is there after the first lines of the round. *)
Lemma group_made (gs : list css_style_group_t) (i : nat) :
  i ≤ List.length gs →
  let gs' := match gs !! i with Some _ => gs | None => gs ++ [[]] end in
  gs' !! i = Some (default [] (gs !! i)) ∧ S i ≤ List.length gs' ∧
  ∀ d, d ≠ i → gs' !! d = gs !! d.
Proof.
  intros Hi. cbv zeta. destruct (gs !! i) as [g|] eqn:Eg.
  - apply lookup_lt_Some in Eg as Hlt. split_and!; [done | exact Hlt | done].
  - apply lookup_ge_None_1 in Eg.
    assert (i = List.length gs) as -> by (by apply Nat.le_antisymm).
    split_and!.
    + by rewrite list_lookup_middle.
    + rewrite length_app. cbn. lia.
    + intros d Hd. destruct (decide (d < List.length gs)).
      * by rewrite lookup_app_l.
      * rewrite !lookup_ge_None_2; [done | lia | rewrite length_app; cbn; lia].
Qed.

(** Recording the link [p] as a parent: the other fields of every link
    stay, and the name [nm] is added to the parents of the link
    [parents] when it has none under that name. *)
Lemma parent_recorded (lks lks1 : list css_style_link_t) (parents : option nat)
    (nm : string) (p : nat) :
  lks1 = match parents with
         | None => lks
         | Some q =>
             match lks !! q with
             | None => lks
             | Some pl =>
                 match dict_fetch_value (link_parents pl) nm with
                 | Some _ => lks
                 | None =>
                     <[q := {| link_selector := link_selector pl;
                               link_group := link_group pl;
                               link_styles := link_styles pl;
                               link_parents := (dict_add (link_parents pl) nm p).1 |}]>
                       lks
                 end
             end
         end →
  List.length lks1 = List.length lks ∧
  ∀ q l, lks !! q = Some l →
    ∃ l', lks1 !! q = Some l' ∧ link_group l' = link_group l ∧
          link_selector l' = link_selector l ∧ link_styles l' = link_styles l ∧
          ∀ a, dict_fetch_value (link_parents l') a
               = if decide (parents = Some q ∧ a = nm ∧
                            dict_fetch_value (link_parents l) nm = None)
                 then Some p else dict_fetch_value (link_parents l) a.
Proof.
  intros ->.
  assert (Hsame : List.length lks = List.length lks ∧
    ∀ q l, lks !! q = Some l →
      ¬ (parents = Some q ∧ dict_fetch_value (link_parents l) nm = None) →
      ∃ l', lks !! q = Some l' ∧ link_group l' = link_group l ∧
            link_selector l' = link_selector l ∧ link_styles l' = link_styles l ∧
            ∀ a, dict_fetch_value (link_parents l') a
                 = if decide (parents = Some q ∧ a = nm ∧
                              dict_fetch_value (link_parents l) nm = None)
                   then Some p else dict_fetch_value (link_parents l) a).
  { split; [done|]. intros q l Hl Hno. exists l. split_and!; try done.
    intros a. rewrite decide_False; [done|]. intros (? & ? & ?). by apply Hno. }
  destruct parents as [q0|]; [|split; [done|]; intros q l Hl; apply Hsame; [done|];
                               by intros [? _]].
  destruct (lks !! q0) as [pl|] eqn:Epl;
    [|split; [done|]; intros q l Hl; apply Hsame; [done|]; intros [[= ->] _]; congruence].
  destruct (dict_fetch_value (link_parents pl) nm) as [x|] eqn:Ex;
    [split; [done|]; intros q l Hl; apply Hsame; [done|]; intros [[= ->] ?]; congruence|].
  split; [by rewrite length_insert|].
  intros q l Hl. destruct (decide (q = q0)) as [->|Hne].
  - rewrite Epl in Hl. injection Hl as <-.
    eexists. split; [apply list_lookup_insert_eq; by eapply lookup_lt_Some|].
    cbn. split_and!; try done.
    intros a. rewrite dict_fetch_add by done.
    destruct (decide (a = nm)) as [->|Ha].
    + by rewrite decide_True.
    + rewrite decide_False; [done|]. by intros (_ & ? & _).
  - exists l. rewrite list_lookup_insert_ne by done. split_and!; try done.
    intros a. rewrite decide_False; [done|]. intros ([= ->] & _). done.
Qed.

(** The entries of the groups after a round, from the lookups of the
    group and the link group the round has written; [g0] is the group
    at depth [i] before the round, empty when the round makes it. *)
Lemma entries_after (st st1 : css_module_t) (i : nat) (nm key : string) (p : nat)
    (g0 g1 : css_style_group_t) (slg1 : css_style_link_group_t) :
  groups st !! i = Some g0 ∨ (groups st !! i = None ∧ g0 = []) →
  groups st1 !! i = Some g1 →
  (∀ d, d ≠ i → groups st1 !! d = groups st !! d) →
  dict_fetch_value g1 nm = Some slg1 →
  (∀ nm', nm' ≠ nm → dict_fetch_value g1 nm' = dict_fetch_value g0 nm') →
  dict_fetch_value (slg_links slg1) key = Some p →
  (∀ k, k ≠ key →
     dict_fetch_value (slg_links slg1) k
     = match dict_fetch_value g0 nm with
       | Some slg => dict_fetch_value (slg_links slg) k
       | None => None
       end) →
  (∀ slg q, dict_fetch_value g0 nm = Some slg →
            dict_fetch_value (slg_links slg) key = Some q → q = p) →
  group_entry st1 i nm key p ∧
  (∀ d n k q, group_entry st d n k q → group_entry st1 d n k q) ∧
  (∀ d n k q, group_entry st1 d n k q →
     group_entry st d n k q ∨ (d = i ∧ n = nm ∧ k = key ∧ q = p)).
Proof.
  intros Hg0 Hg1 Hother Hslg1 Hnames Hp Hkeys Hold. split_and!.
  - by exists g1, slg1.
  - intros d n k q (grp & slg & Hgrp & Hslg & Hq).
    destruct (decide (d = i)) as [->|Hd];
      [|exists grp, slg; by rewrite Hother].
    destruct Hg0 as [Hg0|[Hg0 _]]; join Hg0 Hgrp.
    destruct (decide (n = nm)) as [->|Hn];
      [|exists g1, slg; by rewrite Hnames].
    rewrite Hslg in Hkeys. exists g1, slg1. split_and!; [done..|].
    destruct (decide (k = key)) as [->|Hk].
    + by rewrite (Hold slg q Hslg Hq).
    + by rewrite Hkeys.
  - intros d n k q (grp & slg & Hgrp & Hslg & Hq).
    destruct (decide (d = i)) as [->|Hd];
      [|left; exists grp, slg; by rewrite <- Hother].
    join Hg1 Hgrp.
    destruct (decide (n = nm)) as [->|Hn].
    + join Hslg1 Hslg.
      destruct (decide (k = key)) as [->|Hk].
      * right. split_and!; try done. congruence.
      * rewrite Hkeys in Hq by done.
        destruct (dict_fetch_value g0 nm) as [slg0|] eqn:E0; [|done].
        destruct Hg0 as [Hg0|[_ ->]]; [|done].
        left. by exists g0, slg0.
    + rewrite Hnames in Hslg by done.
      destruct Hg0 as [Hg0|[_ ->]]; [|done].
      left. by exists g0, slg.
Qed.

(** A pair chosen by a test and taken apart. *)
Lemma let_pair_if {A B C : Type} {P Q : Prop} (c : {P} + {Q}) (x y : A * B)
    (R : A → B → C) :
  (let '(a, b) := if c then x else y in R a b)
  = R (if c then x.1 else y.1) (if c then x.2 else y.2).
Proof. by destruct c, x, y. Qed.

(** ** One round of [css_select_style_properties] *)

(** The round read through lookups: [g0] is the group at depth [i]
    before the round, [g1] after it, [slg1] the link group of the node's
    name, [p] the link and [lks0] the links before the link is recorded
    as a parent. *)
Lemma select_step_cases (i : nat) (sn : css_selector_node_t) (ss : select_state) :
  i ≤ List.length (groups (sel_css ss)) →
  let st := sel_css ss in
  let ss1 := select_step i sn ss in
  let st1 := sel_css ss1 in
  let key := if decide (i = 0) then "*" else sel_buf ss in
  let new := {| link_selector := key; link_group := (i, name_of sn);
                link_styles := []; link_parents := [] |} in
  ∃ p g0 g1 slg1 lks0,
    sel_link ss1 = Some p ∧ sel_parents ss1 = Some p ∧
    sel_buf ss1 = (if decide (i = 0) then name_of sn
                   else name_of sn +:+ " " +:+ sel_buf ss) ∧
    S i ≤ List.length (groups st1) ∧
    (groups st !! i = Some g0 ∨ (groups st !! i = None ∧ g0 = [])) ∧
    groups st1 !! i = Some g1 ∧
    (∀ d, d ≠ i → groups st1 !! d = groups st !! d) ∧
    dict_fetch_value g1 (name_of sn) = Some slg1 ∧
    (∀ nm, nm ≠ name_of sn → dict_fetch_value g1 nm = dict_fetch_value g0 nm) ∧
    dict_fetch_value (slg_links slg1) key = Some p ∧
    (∀ k, k ≠ key →
       dict_fetch_value (slg_links slg1) k
       = match dict_fetch_value g0 (name_of sn) with
         | Some slg => dict_fetch_value (slg_links slg) k
         | None => None
         end) ∧
    links st1
    = match sel_parents ss with
      | None => lks0
      | Some q =>
          match lks0 !! q with
          | None => lks0
          | Some pl =>
              match dict_fetch_value (link_parents pl) (name_of sn) with
              | Some _ => lks0
              | None =>
                  <[q := {| link_selector := link_selector pl;
                            link_group := link_group pl;
                            link_styles := link_styles pl;
                            link_parents :=
                              (dict_add (link_parents pl) (name_of sn) p).1 |}]>
                    lks0
              end
          end
      end ∧
    ((lks0 = links st ∧
      ∃ slg, dict_fetch_value g0 (name_of sn) = Some slg ∧
             dict_fetch_value (slg_links slg) key = Some p) ∨
     (lks0 = links st ++ [new] ∧ p = List.length (links st) ∧
      ∀ slg, dict_fetch_value g0 (name_of sn) = Some slg →
             dict_fetch_value (slg_links slg) key = None)).
Proof.
  intros Hi. cbv zeta.
  destruct (group_made (groups (sel_css ss)) i Hi) as (Hgs & Hlen & Hother).
  unfold select_step. cbv zeta.
  set (st := sel_css ss) in *.
  set (gs := match groups st !! i with Some _ => groups st | None => groups st ++ [[]] end)
    in *.
  set (g0 := default [] (groups st !! i)) in *.
  assert (Hg0 : groups st !! i = Some g0 ∨ (groups st !! i = None ∧ g0 = [])).
  { subst g0. destruct (groups st !! i); [by left | by right]. }
  rewrite Hgs. cbn [default]. change (id g0) with g0.
  set (key := if decide (i = 0) then "*" else sel_buf ss).
  assert (Hins : ∀ g, S i ≤ List.length (<[i := g]> gs) ∧ <[i := g]> gs !! i = Some g ∧
                      ∀ d, d ≠ i → <[i := g]> gs !! d = groups st !! d).
  { intros g. rewrite length_insert. split_and!; [done| |].
    - by apply list_lookup_insert_eq.
    - intros d Hd. rewrite list_lookup_insert_ne by done. by apply Hother. }
  destruct (dict_fetch_value g0 (name_of sn)) as [slg|] eqn:Eslg; cbv beta iota.
  - destruct (dict_fetch_value (slg_links slg) key) as [p|] eqn:Elink; cbv beta iota;
      rewrite !let_pair_if; cbn [fst snd].
    + exists p, g0, (dict_store g0 (name_of sn) slg), slg, (links st).
      cbn [sel_link sel_parents sel_buf sel_css groups links set_links set_groups].
      destruct (Hins (dict_store g0 (name_of sn) slg)) as (? & ? & ?).
      split_and!; try done.
      * by rewrite dict_fetch_store, decide_True, Eslg.
      * intros nm Hnm. by rewrite dict_fetch_store, decide_False.
      * intros k Hk. by rewrite Eslg.
      * left. split; [done|]. by exists slg.
    + set (p := List.length (links st)).
      set (slg1 := {| slg_links := (dict_add (slg_links slg) key p).1;
                      slg_name := slg_name slg; slg_snode := slg_snode slg |}).
      exists p, g0, (dict_store g0 (name_of sn) slg1), slg1, 
        (links st ++ [ {| link_selector := key; link_group := (i, name_of sn);
                          link_styles := []; link_parents := [] |} ]).
      cbn [sel_link sel_parents sel_buf sel_css groups links set_links set_groups].
      destruct (Hins (dict_store g0 (name_of sn) slg1)) as (? & ? & ?).
      split_and!; try done.
      * by rewrite dict_fetch_store, decide_True, Eslg.
      * intros nm Hnm. by rewrite dict_fetch_store, decide_False.
      * cbn. by rewrite dict_fetch_add, decide_True.
      * intros k Hk. cbn. by rewrite Eslg, dict_fetch_add, decide_False.
      * right. split_and!; try done. intros slg' Hs. join Eslg Hs. done.
  - cbn [css_style_link_group_create slg_links dict_fetch_value].
    rewrite !let_pair_if; cbn [fst snd].
    set (p := List.length (links st)).
    set (slg0 := css_style_link_group_create sn).
    set (slg1 := {| slg_links := (dict_add [] key p).1;
                    slg_name := slg_name slg0; slg_snode := slg_snode slg0 |}).
    exists p, g0, (dict_store (dict_add g0 (name_of sn) slg0).1 (name_of sn) slg1), slg1, 
      (links st ++ [ {| link_selector := key; link_group := (i, name_of sn);
                        link_styles := []; link_parents := [] |} ]).
    cbn [sel_link sel_parents sel_buf sel_css groups links set_links set_groups].
    destruct (Hins (dict_store (dict_add g0 (name_of sn) slg0).1 (name_of sn) slg1))
      as (? & ? & ?).
    split_and!; try done.
    + by rewrite dict_fetch_store, decide_True, dict_fetch_add, decide_True.
    + intros nm Hnm. by rewrite dict_fetch_store, decide_False, dict_fetch_add, decide_False.
    + subst slg1. cbn [slg_links]. by rewrite dict_fetch_add, decide_True.
    + intros k Hk. subst slg1. cbn [slg_links].
      by rewrite Eslg, dict_fetch_add, decide_False.
    + right. split_and!; try done. intros slg' Hs. join Eslg Hs.
Qed.

(** The round, with the store in order when it starts: the link [p] it
    ends on, the entries of the groups and the links after it. *)
Lemma select_step_tables (i : nat) (sn : css_selector_node_t) (ss : select_state) :
  select_inv i ss →
  let st := sel_css ss in
  let ss1 := select_step i sn ss in
  let st1 := sel_css ss1 in
  let key := if decide (i = 0) then "*" else sel_buf ss in
  ∃ p,
    sel_link ss1 = Some p ∧ sel_parents ss1 = Some p ∧
    sel_buf ss1 = (if decide (i = 0) then name_of sn
                   else name_of sn +:+ " " +:+ sel_buf ss) ∧
    S i ≤ List.length (groups st1) ∧
    group_entry st1 i (name_of sn) key p ∧
    (∀ d n k q, group_entry st d n k q → group_entry st1 d n k q) ∧
    (∀ d n k q, group_entry st1 d n k q →
       group_entry st d n k q ∨ (d = i ∧ n = name_of sn ∧ k = key ∧ q = p)) ∧
    (∃ l, links st1 !! p = Some l ∧ link_group l = (i, name_of sn) ∧
          link_selector l = key) ∧
    (∀ q l, links st !! q = Some l →
       ∃ l', links st1 !! q = Some l' ∧ link_group l' = link_group l ∧
             link_selector l' = link_selector l ∧ link_styles l' = link_styles l ∧
             ∀ a, dict_fetch_value (link_parents l') a
                  = if decide (sel_parents ss = Some q ∧ a = name_of sn ∧
                               dict_fetch_value (link_parents l) (name_of sn) = None)
                    then Some p else dict_fetch_value (link_parents l) a) ∧
    (∀ q l', links st1 !! q = Some l' →
       (∃ l, links st !! q = Some l) ∨
       ∀ a, dict_fetch_value (link_parents l') a = None).
Proof.
  intros (Hok & Hi & Hpar & Hlink). cbv zeta.
  destruct (select_step_cases i sn ss Hi)
    as (p & g0 & g1 & slg1 & lks0 & Hl & Hp & Hb & Hlen & Hg0 & Hg1 & Hother &
        Hslg1 & Hnames & Hkey & Hkeys & Hlinks & Hcase).
  set (st := sel_css ss) in *. set (ss1 := select_step i sn ss) in *.
  set (key := if decide (i = 0) then "*" else sel_buf ss) in *.
  assert (Hold : ∀ slg q, dict_fetch_value g0 (name_of sn) = Some slg →
                          dict_fetch_value (slg_links slg) key = Some q → q = p).
  { intros slg q Hs Hq. destruct Hcase as [(_ & slg' & H1 & H2)|(_ & _ & Hnone)].
    - join H1 Hs. by join H2 Hq.
    - specialize (Hnone slg Hs). join Hnone Hq. }
  destruct (entries_after st (sel_css ss1) i (name_of sn) key p g0 g1 slg1)
    as (G1 & G2 & G3); try done.
  destruct (parent_recorded lks0 (links (sel_css ss1)) (sel_parents ss) (name_of sn) p
              Hlinks) as (Hlen1 & Hrec).
  assert (Hkept : ∀ q l, links st !! q = Some l → lks0 !! q = Some l).
  { intros q l Hq. destruct Hcase as [(-> & _)|(-> & _)]; [done|].
    by apply lookup_app_l_Some. }
  exists p. split_and!; try done.
  - destruct Hcase as [(-> & slg & H1 & H2)|(-> & -> & _)].
    + destruct Hok as [Hok _].
      destruct (Hok i (name_of sn) key p) as (l & Hlp & Hgrp & Hsel).
      { destruct Hg0 as [Hg0|[_ ->]]; [|done]. by exists g0, slg. }
      destruct (Hrec p l Hlp) as (l' & ? & Hg' & Hs' & _).
      exists l'. by rewrite Hg', Hs'.
    + edestruct Hrec as (l' & ? & Hg' & Hs' & _); [apply list_lookup_middle; done|].
      exists l'. by rewrite Hg', Hs'.
  - intros q l Hq. by apply Hrec, Hkept.
  - intros q l' Hq. destruct (decide (q < List.length (links st))) as [Hlt|Hge].
    { left. by apply lookup_lt_is_Some_2. }
    right. apply lookup_lt_Some in Hq as Hq1. rewrite Hlen1 in Hq1.
    destruct Hcase as [(-> & _)|(-> & _ & _)]; [done|].
    rewrite length_app in Hq1. cbn in Hq1.
    assert (q = List.length (links st)) as -> by lia.
    edestruct Hrec as (l'' & Hq2 & _ & _ & _ & Hpars); [apply list_lookup_middle; done|].
    join Hq Hq2. intros a. rewrite Hpars. rewrite decide_False; [done|].
    intros (Hsp & _). rewrite <- Hpar, Hsp in Hlink.
    destruct Hlink as (l & Hll & _). apply lookup_lt_Some in Hll. lia.
Qed.

Lemma group_entry_fun (st : css_module_t) (d : nat) (n k : string) (p q : nat) :
  group_entry st d n k p → group_entry st d n k q → p = q.
Proof.
  intros (g & slg & H1 & H2 & H3) (g' & slg' & H1' & H2' & H3').
  join H1 H1'. join H2 H2'. by join H3 H3'.
Qed.

(** The round keeps what the loop relies on, keeps every entry, and
    makes the link it ends on the one the node leads to. *)
Lemma select_step_inv (i : nat) (sn : css_selector_node_t) (ss : select_state) :
  select_inv i ss →
  let ss1 := select_step i sn ss in
  select_inv (S i) ss1 ∧
  (∀ d n k q, group_entry (sel_css ss) d n k q → group_entry (sel_css ss1) d n k q) ∧
  (∀ q a r, parent_entry (sel_css ss) q a r → parent_entry (sel_css ss1) q a r) ∧
  ∃ p, sel_link ss1 = Some p ∧ step_entry (sel_css ss1) (sel_link ss) sn p.
Proof.
  intros Hinv. cbv zeta.
  destruct (select_step_tables i sn ss Hinv)
    as (p & Hl & Hp & Hb & Hlen & G1 & G2 & G3 & (lp & Hlp & Hlpg & Hlps) & L1 & L2).
  destruct Hinv as (Hok & Hi & Hpar & Hlink).
  set (ss1 := select_step i sn ss) in *.
  split_and!.
  - split_and!.
    + split.
      * intros d n k q Hent. destruct (G3 d n k q Hent) as [Hold|(-> & -> & -> & ->)].
        -- destruct Hok as [Hok _].
           destruct (Hok d n k q Hold) as (l & Hq & Hg & Hs).
           destruct (L1 q l Hq) as (l' & Hq' & Hg' & Hs' & _).
           exists l'. by rewrite Hg', Hs'.
        -- by exists lp.
      * intros q l' a r Hq Ha.
        destruct (L2 q l' Hq) as [(l & Hql)|Hnone]; [|by rewrite Hnone in Ha].
        destruct (L1 q l Hql) as (l'' & Hq'' & Hg & Hs & _ & Hpars).
        rewrite Hq in Hq''. injection Hq'' as <-. rewrite Hpars in Ha.
        assert (Ht : link_text l' = link_text l).
        { unfold link_text. by rewrite Hg, Hs. }
        rewrite Ht, Hg.
        destruct (decide (sel_parents ss = Some q ∧ _ ∧ _)) as [Hc|Hc].
        -- destruct Hc as (Hsp & -> & Hno). injection Ha as <-.
           rewrite <- Hpar, Hsp in Hlink. destruct Hlink as (l0 & Hl0 & Hi0 & Hbuf).
           join Hql Hl0. rewrite <- Hi0, Hbuf.
           rewrite decide_False in G1 by lia. exact G1.
        -- apply G2. destruct Hok as [_ Hok]. by apply (Hok q).
    + exact Hlen.
    + by rewrite Hl, Hp.
    + rewrite Hl. exists lp. split; [done|]. rewrite Hlpg. split; [done|].
      unfold link_text. rewrite Hlpg, Hlps, Hb. cbn [fst snd].
      by destruct (decide (i = 0)).
  - exact G2.
  - intros q a r (l & Hq & Ha). destruct (L1 q l Hq) as (l' & Hq' & _ & _ & _ & Hpars).
    exists l'. split; [done|]. rewrite Hpars. rewrite decide_False; [done|].
    intros (_ & -> & Hno). congruence.
  - exists p. split; [done|]. destruct (sel_link ss) as [q|] eqn:Eq; cbn [step_entry].
    + destruct Hlink as (l0 & Hl0 & Hi0 & Hbuf).
      destruct (L1 q l0 Hl0) as (l' & Hq' & _ & _ & _ & Hpars).
      exists l'. split; [done|]. rewrite Hpars.
      destruct (decide (sel_parents ss = Some q ∧ _ ∧ _)) as [Hc|Hc]; [done|].
      destruct (dict_fetch_value (link_parents l0) (name_of sn)) as [r|] eqn:Er;
        [|by destruct Hc].
      f_equal. apply (group_entry_fun (sel_css ss1) i (name_of sn) (sel_buf ss)).
      * apply G2. destruct Hok as [_ Hok].
        specialize (Hok q l0 (name_of sn) r Hl0 Er). by rewrite <- Hi0, Hbuf in Hok.
      * rewrite decide_False in G1 by lia. exact G1.
    + subst i. exact G1.
Qed.

(** ** The loop *)

Lemma step_entry_mono (st st' : css_module_t) (prev : option nat)
    (sn : css_selector_node_t) (p : nat) :
  (∀ d n k q, group_entry st d n k q → group_entry st' d n k q) →
  (∀ q a r, parent_entry st q a r → parent_entry st' q a r) →
  step_entry st prev sn p → step_entry st' prev sn p.
Proof. intros Hg Hp. destruct prev; cbn; [apply Hp | apply Hg]. Qed.

Lemma path_mono (st st' : css_module_t) (rnodes : list css_selector_node_t)
    (prev last : option nat) :
  (∀ d n k q, group_entry st d n k q → group_entry st' d n k q) →
  (∀ q a r, parent_entry st q a r → parent_entry st' q a r) →
  path st prev rnodes last → path st' prev rnodes last.
Proof.
  intros Hg Hp. revert prev. induction rnodes as [|sn rest IH]; intros prev; cbn; [done|].
  intros (p & Hstep & Hrest). exists p. split; [|by apply IH].
  by apply (step_entry_mono st).
Qed.

(** The loop over the nodes from the right keeps the store in order and
    leaves a path along the nodes to the link it ends on. *)
Lemma select_loop_path (rnodes : list css_selector_node_t) :
  ∀ (i : nat) (ss : select_state),
    select_inv i ss →
    let ss' := select_loop i rnodes ss in
    select_inv (i + List.length rnodes) ss' ∧
    (∀ d n k q, group_entry (sel_css ss) d n k q → group_entry (sel_css ss') d n k q) ∧
    (∀ q a r, parent_entry (sel_css ss) q a r → parent_entry (sel_css ss') q a r) ∧
    path (sel_css ss') (sel_link ss) rnodes (sel_link ss').
Proof.
  induction rnodes as [|sn rest IH]; intros i ss Hinv; cbn [select_loop List.length path].
  - rewrite Nat.add_0_r. done.
  - destruct (select_step_inv i sn ss Hinv) as (Hinv1 & Hg1 & Hp1 & p & Hl1 & Hstep).
    destruct (IH (S i) (select_step i sn ss) Hinv1) as (Hinv2 & Hg2 & Hp2 & Hpath).
    rewrite Nat.add_succ_r. split_and!.
    + exact Hinv2.
    + intros d n k q H. by apply Hg2, Hg1.
    + intros q a r H. by apply Hp2, Hp1.
    + exists p. split.
      * by apply (step_entry_mono (sel_css (select_step i sn ss))).
      * by rewrite <- Hl1.
Qed.

(** ** States that differ in their rules only *)

Lemma same_shape_lookup (st st' : css_module_t) (p : nat) (l' : css_style_link_t) :
  same_shape st st' → links st' !! p = Some l' →
  ∃ l, links st !! p = Some l ∧ shape l = shape l'.
Proof.
  intros [_ Hs] Hl.
  assert (H : (shape <$> links st) !! p = Some (shape l')).
  { rewrite <- Hs, list_lookup_fmap, Hl. done. }
  rewrite list_lookup_fmap in H. apply fmap_Some in H as (l & Hl0 & Heq).
  by exists l.
Qed.

Lemma same_shape_sym (st st' : css_module_t) : same_shape st st' → same_shape st' st.
Proof. intros [H1 H2]. by split. Qed.

Lemma same_shape_group (st st' : css_module_t) (d : nat) (n k : string) (p : nat) :
  same_shape st st' → group_entry st d n k p → group_entry st' d n k p.
Proof.
  intros [Hg _] (g & slg & H1 & H2 & H3). exists g, slg. by rewrite Hg.
Qed.

Lemma same_shape_parent (st st' : css_module_t) (p : nat) (a : string) (q : nat) :
  same_shape st st' → parent_entry st p a q → parent_entry st' p a q.
Proof.
  intros Hs (l & Hl & Ha).
  destruct (same_shape_lookup st' st p l (same_shape_sym _ _ Hs) Hl) as (l' & Hl' & Heq).
  exists l'. split; [done|]. injection Heq as _ _ ->. done.
Qed.

Lemma same_shape_ok (st st' : css_module_t) :
  same_shape st st' → store_ok st → store_ok st'.
Proof.
  intros Hs [Hok1 Hok2]. split.
  - intros d n k p Hent.
    apply (same_shape_group st' st), Hok1 in Hent as (l & Hl & Hg & Hk);
      [|by apply same_shape_sym].
    destruct (same_shape_lookup st' st p l (same_shape_sym _ _ Hs) Hl) as (l' & Hl' & Heq).
    exists l'. injection Heq as Hk' Hg' _. split; [done|]. by rewrite Hk', Hg'.
  - intros p l' a q Hl' Ha.
    destruct (same_shape_lookup st st' p l' Hs Hl') as (l & Hl & Heq).
    injection Heq as Hk Hg Hp. apply (same_shape_group st); [done|].
    unfold link_text. rewrite <- Hk, <- Hg. apply (Hok2 p); [done|]. by rewrite Hp.
Qed.

(** ** The query along a path *)

Lemma full_name_generated (n : css_selector_node_t) :
  up_to_date n → has_part n →
  name_of n ∈ (css_selector_node_get_name_list n []).1.
Proof.
  intros [_ Hf] Hp. unfold name_of. rewrite Hf.
  apply ExpansionFacts.selection_generated.
  unfold Selections.selection. split_and!; [by right | by right | done | done | exact Hp].
Qed.

(** A query that stands at the link [q] with as many nodes to its left
    as the path from [q] is long reaches the rules at the end of the
    path. *)
Lemma path_link_visits (st : css_module_t) (s : css_selector_t) (last : nat)
    (lf : css_style_link_t) (r : css_style_rule_t) :
  store_ok st → links st !! last = Some lf → r ∈ link_styles lf →
  ∀ (rest : list css_selector_node_t) (q : nat) (lq : css_style_link_t)
    (suffix : list css_selector_node_t),
    Forall (fun n => up_to_date n ∧ has_part n) rest →
    sel_nodes s = rev rest ++ suffix →
    path st (Some q) rest (Some last) → links st !! q = Some lq →
    r ∈ link_visits (links st) s (List.length rest) lq.
Proof.
  intros Hok Hlast Hr. induction rest as [|sn rest IH]; intros q lq suffix Hall Hnodes Hpath Hq.
  - cbn in Hpath. injection Hpath as ->. join Hq Hlast.
    rewrite OrderFacts.link_visits_unfold. apply elem_of_app. by left.
  - destruct Hpath as (p & (l & Hl & Hp) & Hpath). join Hq Hl.
    apply Forall_cons in Hall as [[Hup Hpart] Hall].
    cbn [rev] in Hnodes. rewrite <- app_assoc in Hnodes. cbn [app] in Hnodes.
    assert (Hsn : sel_nodes s !! List.length rest = Some sn).
    { rewrite Hnodes. apply list_lookup_middle. by rewrite length_rev. }
    destruct Hok as [Hok1 Hok2].
    destruct (Hok1 _ _ _ _ (Hok2 q l (name_of sn) p Hq Hp)) as (lp & Hlp & _).
    specialize (IH p lp (sn :: suffix) Hall Hnodes Hpath Hlp).
    rewrite OrderFacts.link_visits_unfold. cbn [List.length].
    apply elem_of_app. right. apply elem_of_app. left.
    apply list_elem_of_In, in_flat_map. exists (name_of sn). split.
    + apply list_elem_of_In. unfold ancestor_names. rewrite Hsn.
      by apply full_name_generated.
    + apply list_elem_of_In. by rewrite Hp, Hlp.
Qed.

(** The same from the root: the query of a selector whose nodes, from
    the right, are a path reaches the rules at its end. *)
Lemma path_group_visits (st : css_module_t) (s : css_selector_t) (last : nat)
    (lf : css_style_link_t) (r : css_style_rule_t) :
  store_ok st → selector_ok s → 0 < sel_length s →
  path st None (rev (sel_nodes s)) (Some last) →
  links st !! last = Some lf → r ∈ link_styles lf →
  r ∈ group_visits st 0 None s.
Proof.
  intros Hok [Hlen Hall] Hpos Hpath Hlast Hr.
  destruct (rev (sel_nodes s)) as [|sn rest] eqn:Erev.
  { apply (f_equal List.length) in Erev. rewrite length_rev in Erev. cbn in Erev. lia. }
  assert (Hnodes : sel_nodes s = rev rest ++ [sn]).
  { rewrite <- (rev_involutive (sel_nodes s)), Erev. done. }
  assert (Hall' : Forall (fun n => up_to_date n ∧ has_part n) (sn :: rest)).
  { rewrite <- Erev. by apply Forall_rev. }
  apply Forall_cons in Hall' as [[Hup Hpart] Hrest].
  destruct Hpath as (p & (g & slg & Hg & Hslg & Hp) & Hpath).
  assert (Hlr : sel_length s - 1 = List.length rest).
  { rewrite Hlen, Hnodes, length_app, length_rev. cbn. lia. }
  assert (Hsn : sel_nodes s !! (sel_length s - 1) = Some sn).
  { rewrite Hlr, Hnodes. apply list_lookup_middle. by rewrite length_rev. }
  destruct Hok as [Hok1 Hok2].
  destruct (Hok1 0 (name_of sn) "*" p) as (lp & Hlp & _); [by exists g, slg|].
  unfold group_visits. rewrite Hg. rewrite decide_False by lia. cbv zeta. rewrite Hsn.
  apply list_elem_of_In, in_flat_map. exists (name_of sn). split.
  - apply list_elem_of_In, elem_of_app. left. by apply full_name_generated.
  - rewrite Hslg. apply in_flat_map. exists ("*", p). split.
    + apply list_elem_of_In. by apply dict_fetch_elem.
    + cbn [snd]. rewrite Hlp, Hlr. apply list_elem_of_In.
      by apply (path_link_visits st s last lf r) with (q := p) (suffix := [sn]).
Qed.

(** ** Adding a rule *)

(** [css_select_style_properties] on a selector with nodes: the state
    [st1] the loop leaves, the link [last] it ends on, and the empty
    rule appended to that link. *)
Lemma select_properties_spec (st : css_module_t) (s : css_selector_t)
    (space : option string) :
  store_ok st → selector_ok s → 0 < sel_length s →
  ∃ st1 last l nm,
    css_select_style_properties st s space
    = (set_links st1
         (<[last := {| link_selector := link_selector l;
                       link_group := link_group l;
                       link_styles :=
                         link_styles l ++
                         [ {| rule_rank := sel_rank s;
                              rule_batch_num := sel_batch_num s;
                              rule_space := space;
                              rule_selector := nm;
                              rule_list := css_style_properties_create |} ];
                       link_parents := link_parents l |}]> (links st1)),
       Some (last, List.length (link_styles l))) ∧
    store_ok st1 ∧ links st1 !! last = Some l ∧
    path st1 None (rev (sel_nodes s)) (Some last).
Proof.
  intros Hok [Hlen Hall] Hpos. unfold css_select_style_properties.
  rewrite take_ge by lia.
  set (ss0 := {| sel_css := st; sel_link := None; sel_parents := None;
                 sel_buf := ""; sel_fullname := "" |}).
  assert (Hinv0 : select_inv 0 ss0).
  { split_and!; [exact Hok | cbn; lia | done | done]. }
  destruct (select_loop_path (rev (sel_nodes s)) 0 ss0 Hinv0)
    as ((Hok1 & _ & _ & Hlink) & _ & _ & Hpath).
  cbv zeta. set (ss' := select_loop 0 (rev (sel_nodes s)) ss0) in *.
  destruct (sel_link ss') as [last|];
    [|rewrite length_rev in Hlink; cbn in Hlink; lia].
  destruct Hlink as (l & Hl & _). rewrite Hl.
  by exists (sel_css ss'), last, l, (sel_fullname ss').
Qed.

(** ** The scratch buffers *)

Lemma select_loop_app (l1 l2 : list css_selector_node_t) :
  ∀ (i : nat) (ss : select_state),
    select_loop i (l1 ++ l2) ss = select_loop (i + List.length l1) l2 (select_loop i l1 ss).
Proof.
  induction l1 as [|sn l1 IH]; intros i ss; cbn [app select_loop List.length].
  - by rewrite Nat.add_0_r.
  - rewrite IH. by rewrite Nat.add_succ_r.
Qed.

(** The text in [buf] once the loop has gone through the nodes, taken
    from the right. *)
Lemma select_loop_buf (nodes : list css_selector_node_t) (ss : select_state) :
  select_inv 0 ss → nodes ≠ [] →
  sel_buf (select_loop 0 (rev nodes) ss) = selector_text nodes.
Proof.
  intros Hinv. induction nodes as [|n nodes IH]; intros Hne; [done|].
  cbn [rev]. rewrite select_loop_app. cbn [select_loop Nat.add].
  destruct (select_loop_path (rev nodes) 0 ss Hinv) as ((_ & Hi & _) & _).
  cbn [Nat.add] in Hi.
  destruct (select_step_cases (List.length (rev nodes)) n
              (select_loop 0 (rev nodes) ss) Hi)
    as (p & g0 & g1 & slg1 & lks0 & _ & _ & -> & _).
  rewrite length_rev. destruct nodes as [|m nodes]; [done|].
  rewrite decide_False by (cbn; lia). by rewrite IH.
Qed.

Lemma selector_text_drop (nodes : list css_selector_node_t) (k : nat) :
  String.length (selector_text (drop k nodes)) ≤ String.length (selector_text nodes).
Proof.
  revert k. induction nodes as [|n nodes IH]; intros k; [by destruct k|].
  destruct k as [|k]; [done|]. cbn [drop]. etransitivity; [apply IH|].
  cbn [selector_text]. destruct nodes as [|m nodes]; [cbn; lia|].
  rewrite !NamesFacts.str_app_length. lia.
Qed.

(** Every text [buf] holds on the way, and with it every text copied
    into [fullname] from [buf], is shorter than the buffers when the
    text of the selector is. *)
Lemma select_loop_buf_fits (nodes : list css_selector_node_t) (ss : select_state)
    (k : nat) :
  select_inv 0 ss → sel_buf ss = "" →
  String.length (selector_text nodes) < CSS_SELECTOR_MAX_LEN →
  String.length (sel_buf (select_loop 0 (take k (rev nodes)) ss)) < CSS_SELECTOR_MAX_LEN.
Proof.
  intros Hinv Hbuf Hfit.
  rewrite firstn_rev.
  destruct (drop (List.length nodes - k) nodes) as [|m rest] eqn:Ed.
  - cbn. rewrite Hbuf. cbn. unfold CSS_SELECTOR_MAX_LEN. lia.
  - rewrite select_loop_buf by done. rewrite <- Ed.
    pose proof (selector_text_drop nodes (List.length nodes - k)). lia.
Qed.

(** X30.  A rule added with [css_add_style_sheet] is found by the query of
    the selector it was added for.  On a store whose pointers agree,
    and for a selector of at least one finished node that fits the
    scratch buffers of the code, the store still agrees afterwards and
    the query returns a rule with the selector's rank and batch number,
    the given space and the properties of the given declaration. *)
Theorem added_rule_is_found (st : css_module_t) (s : css_selector_t)
    (style : css_style_declaration_t) (space : option string) :
  store_ok st → selector_ok s → selector_fits s → 0 < sel_length s →
  let st' := (css_add_style_sheet st s style space).1 in
  store_ok st' ∧
  ∃ r, r ∈ (css_query_selector_from_group st' 0 None s []).1 ∧
       rule_rank r = sel_rank s ∧ rule_batch_num r = sel_batch_num s ∧
       rule_space r = space ∧
       rule_list r = (css_style_properties_merge css_style_properties_create style).1.
Proof.
  intros Hok Hs _ Hpos. cbv zeta. unfold css_add_style_sheet. cbv zeta.
  destruct (select_properties_spec (set_cache st ∅) s space Hok Hs Hpos)
    as (st1 & last & l & nm & -> & Hok1 & Hl & Hpath).
  cbv beta iota. unfold fill_rule. cbn [fst snd links set_links].
  apply lookup_lt_Some in Hl as Hlt.
  rewrite list_lookup_insert_eq by done. cbn [link_styles].
  rewrite list_lookup_middle by done.
  cbn [rule_rank rule_batch_num rule_space rule_selector rule_list link_selector
       link_group link_parents].
  set (r := {| rule_rank := sel_rank s; rule_batch_num := sel_batch_num s;
               rule_space := space; rule_selector := nm;
               rule_list := (css_style_properties_merge css_style_properties_create
                               style).1 |}).
  set (lf := {| link_selector := link_selector l; link_group := link_group l;
                link_styles := <[_ := r]> _; link_parents := link_parents l |}).
  set (st2 := set_links _ (<[last := lf]> _)).
  assert (Hlf : links st2 !! last = Some lf).
  { subst st2. cbn [links set_links]. apply list_lookup_insert_eq.
    by rewrite length_insert. }
  assert (Hshape : same_shape st1 st2).
  { split; [done|]. subst st2. cbn [links set_links].
    rewrite list_insert_insert_eq, list_fmap_insert. change (shape lf) with (shape l).
    apply list_insert_id. by rewrite list_lookup_fmap, Hl. }
  assert (Hok2 : store_ok st2) by (by apply (same_shape_ok st1)).
  split; [exact Hok2|]. exists r. split; [|done].
  rewrite OrderFacts.from_group_visits, OrderFacts.foldl_insert_perm. cbn [app].
  apply (path_group_visits st2 s last lf r); try done.
  - apply (path_mono st1); [| |done].
    + intros d n k q. by apply same_shape_group.
    + intros q a x. by apply same_shape_parent.
  - subst lf. cbn [link_styles].
    rewrite insert_app_r_alt by done. rewrite Nat.sub_diag. cbn.
    apply elem_of_app. right. by left.
Qed.

Lemma init_store_ok : store_ok css_init.
Proof.
  assert (Hg : groups css_init = []) by (vm_compute; reflexivity).
  assert (Hl : links css_init = []) by (vm_compute; reflexivity).
  split.
  - intros d nm key p (g & slg & H & _). rewrite Hg in H. by destruct d.
  - intros p l a q H _. rewrite Hl in H. by destruct p.
Qed.

Lemma added_rule_is_found_witness :
  store_ok css_init ∧ selector_ok long_selector ∧ selector_fits long_selector ∧
  0 < sel_length long_selector ∧
  let st' := (css_add_style_sheet css_init long_selector
                (color_declaration css_init green) (Some "main.css")).1 in
  store_ok st' ∧
  ∃ r, r ∈ (css_query_selector_from_group st' 0 None long_selector []).1 ∧
       rule_rank r = sel_rank long_selector ∧
       rule_batch_num r = sel_batch_num long_selector ∧
       rule_space r = Some "main.css" ∧
       rule_list r = (css_style_properties_merge css_style_properties_create
                        (color_declaration css_init green)).1.
Proof.
  assert (Hs : selector_ok long_selector).
  { split; [vm_compute; reflexivity|]. vm_compute. repeat econstructor. }
  assert (Hfit : selector_fits long_selector).
  { split; [|vm_compute; lia]. vm_compute. repeat (constructor; [lia|]). constructor. }
  assert (Hpos : 0 < sel_length long_selector) by (vm_compute; lia).
  split_and!; [exact init_store_ok | exact Hs | exact Hfit | exact Hpos |].
  exact (added_rule_is_found css_init long_selector (color_declaration css_init green)
           (Some "main.css") init_store_ok Hs Hfit Hpos).
Defined.

End StoreRoundTrip.
